(** * Sweep-configuration generator: a shallow embedding

    This development models [utils/matrix_logic/generate_sweep_configs.py]:
    the expansion of a catalog of benchmark configurations into a flat list
    of matrix entries ([generate_full_sweep],
    [generate_runner_model_sweep_config], [generate_test_config_sweep]) and
    the eval-selection pass ([mark_eval_entries]).

    Python integers are unbounded, so they are [Z].  Dictionaries that the
    code iterates over are association lists in insertion order.  Raised
    exceptions are values of [error]; a [while] loop is a fixpoint over an
    explicit iteration budget, and running out of budget is reported
    separately from every Python exception. *)

From stdpp Require Import base decidable option numbers list strings gmap pretty sorting.
From Stdlib Require Import ZArith Lia.

Local Open Scope Z_scope.

(** ** Exceptions and the error monad *)

Inductive error : Type :=
| ValueError (msg : string)                         (* raise ValueError(msg) *)
| InvalidRunnerTypes (invalid valid : list string)  (* the ValueError of full-sweep, whose
                                                       message prints a Python set *)
| KeyError (key : string)                           (* d[key] without that key *)
| SchemaViolation                                   (* validate_matrix_entry raised *)
| OutOfFuel                                         (* the iteration budget of a while loop
                                                       ran out: no Python exception *).

Inductive result (A : Type) : Type :=
| Ok (a : A)
| Err (e : error).
Arguments Ok {A} a.
Arguments Err {A} e.

Global Instance result_bind : MBind result := λ A B k r,
  match r with
  | Ok a => k a
  | Err e => Err e
  end.

(** [d[key]]: the value, or [KeyError]. *)
Definition require {A} (key : string) (o : option A) : result A :=
  match o with
  | Some a => Ok a
  | None => Err (KeyError key)
  end.

(** A [for] loop whose body appends to [matrix_values] and may raise. *)
Fixpoint for_each {A B} (body : A → result (list B)) (l : list A) : result (list B) :=
  match l with
  | [] => Ok []
  | a :: l' =>
      out ← body a;
      rest ← for_each body l';
      Ok (out ++ rest)
  end.

(** ** The concurrency loop

    <<
    conc = conc_start
    while conc <= conc_end:
        BODY(conc)
        if conc == conc_end:
            break
        conc *= step
        if conc > conc_end:
            conc = conc_end
    >>
    The same loop occurs four times in the source; [body] is what the loop
    emits at each concurrency value. *)
Fixpoint conc_sweep {A} (body : Z → result (list A))
    (fuel : nat) (conc conc_end step : Z) : result (list A) :=
  match fuel with
  | O => Err OutOfFuel
  | S fuel' =>
      if decide (conc ≤ conc_end) then
        out ← body conc;
        if decide (conc = conc_end) then Ok out
        else
          let conc1 := conc * step in
          let conc2 := if decide (conc1 > conc_end) then conc_end else conc1 in
          rest ← conc_sweep body fuel' conc2 conc_end step;
          Ok (out ++ rest)
      else Ok []
  end.

(** The loop with body [conc_values.append(conc)]. *)
Definition conc_range (fuel : nat) (conc_start conc_end step : Z) : result (list Z) :=
  conc_sweep (λ conc, Ok [conc]) fuel conc_start conc_end step.

(** ** Data model

    A search-space point is a dictionary whose keys depend on the shape of
    the configuration; every key is optional here and [d[key]] on an absent
    key is a [KeyError].  The key names are the tags of the [Fields]
    enumeration of [validation.py]; they only label a [KeyError], and no
    result depends on their spelling. *)

Record Worker : Type := {
  num_worker : option Z;
  worker_tp : option Z;
  worker_ep : option Z;
  worker_dp_attn : option bool;
  additional_settings : option (list string) }.

Record BenchmarkPoint : Type := {
  bmk_tp : option Z;
  bmk_ep : option Z;
  bmk_dp_attn : option bool;
  bmk_spec_decoding : option string;
  bmk_conc_start : option Z;
  bmk_conc_end : option Z;
  bmk_conc_list : option (list Z);
  bmk_prefill : option Worker;
  bmk_decode : option Worker }.

Record SeqLenProfile : Type := {
  seq_isl : Z;
  seq_osl : Z;
  search_space : list BenchmarkPoint }.

Record ConfigEntry : Type := {
  cfg_image : string;
  cfg_model : string;
  cfg_model_prefix : string;
  cfg_precision : string;
  cfg_framework : string;
  cfg_runner : string;
  cfg_multinode : option bool;
  cfg_disagg : option bool;
  seq_len_configs : list SeqLenProfile }.

(** A matrix entry is the dictionary that a generator builds.  Its
    mode-specific keys come in two shapes: the single-node one has top-level
    [tp], [ep], [dp-attn] and a scalar [conc]; the multinode one has
    [prefill], [decode] and a list [conc]. *)
Inductive Topology : Type :=
| SingleNode (tp ep : Z) (dp_attn : bool) (conc : Z)
| MultiNode (prefill decode : Worker) (conc : list Z).

Record MatrixEntry : Type := {
  image : string;
  model : string;
  model_prefix : string;
  precision : string;
  framework : string;
  runner : string;
  isl : Z;
  osl : Z;
  spec_decoding : string;
  topology : Topology;
  max_model_len : Z;
  exp_name : string;
  disagg : bool;
  run_eval : bool }.

(** [Fields.TP.value in entry], and the value. *)
Definition entry_tp (e : MatrixEntry) : option Z :=
  match topology e with
  | SingleNode tp _ _ _ => Some tp
  | MultiNode _ _ _ => None
  end.

(** The catalog and the runner inventory, in insertion order. *)
Abbreviation Catalog := (list (string * ConfigEntry)).
Abbreviation RunnerCatalog := (list (string * list string)).

Fixpoint dict_get `{EqDecision K} {V} (k : K) (d : list (K * V)) : option V :=
  match d with
  | [] => None
  | (k', v) :: d' => if decide (k = k') then Some v else dict_get k d'
  end.

Definition dict_keys {K V} (d : list (K * V)) : list K := fst <$> d.

(** ** Python built-ins *)

(** Truth value of an optional list argument ([None] and [[]] are false). *)
Definition given {A} (o : option (list A)) : list A := default [] o.

(** [sub in s] on strings. *)
Definition substring_of (sub s : string) : bool :=
  if String.index 0 sub s is Some _ then true else false.

(** [sorted] on strings: code-point order. *)
Definition sorted (l : list string) : list string := merge_sort String.le l.

Definition newline : string := String (Ascii.ascii_of_nat 10) EmptyString.

(** [max(l, key=...)] once the keys are known: the first element whose key
    is largest. *)
Definition max_by_key {A} (l : list (Z * A)) : result A :=
  match l with
  | [] => Err (ValueError "max() arg is an empty sequence")
  | x :: l' => Ok (snd (fold_left (λ best c, if decide (c.1 > best.1) then c else best) l' x))
  end.

(** [min(l)] on integers. *)
Definition python_min (l : list Z) : result Z :=
  match l with
  | [] => Err (ValueError "min() arg is an empty sequence")
  | x :: l' => Ok (fold_left (λ best c, if decide (c < best) then c else best) l' x)
  end.

(** [mapM]: evaluate [f] on each element in order, stopping at the first
    exception. *)
Fixpoint traverse {A B} (f : A → result B) (l : list A) : result (list B) :=
  match l with
  | [] => Ok []
  | a :: l' => b ← f a; bs ← traverse f l'; Ok (b :: bs)
  end.

(** ** Sequence-length names *)

Definition seq_len_stoi : list (string * (Z * Z)) :=
  [("1k1k", (1024, 1024)); ("1k8k", (1024, 8192)); ("8k1k", (8192, 1024))].

Definition seq_len_itos : list ((Z * Z) * string) :=
  (λ kv, (kv.2, kv.1)) <$> seq_len_stoi.

Definition seq_len_to_str (isl osl : Z) : string :=
  default (pretty isl +:+ "_" +:+ pretty osl) (dict_get (isl, osl) seq_len_itos).

(** ** Command-line arguments *)

Record FullSweepArgs : Type := {
  fs_model_prefix : option (list string);
  fs_precision : option (list string);
  fs_framework : option (list string);
  fs_runner_type : option (list string);
  fs_seq_lens : option (list string);
  fs_step_size : Z;
  fs_min_conc : option Z;
  fs_max_conc : option Z;
  fs_max_tp : option Z;
  fs_max_ep : option Z;
  fs_single_node : bool;
  fs_multi_node : bool;
  fs_runner_node_filter : option string }.

Record RunnerSweepArgs : Type := {
  rs_runner_type : string;
  rs_runner_config : string;
  rs_model_prefix : option (list string);
  rs_precision : option (list string);
  rs_framework : option (list string);
  rs_conc : option Z;
  rs_single_node : bool;
  rs_multi_node : bool;
  rs_runner_node_filter : option string }.

Record TestConfigArgs : Type := {
  tc_config_keys : list string;
  tc_conc : option (list Z) }.

(** ** Filters shared by the generators *)

(** [args.model_prefix] is given and no prefix starts [key]. *)
Definition prefix_mismatch (prefixes : option (list string)) (key : string) : bool :=
  bool_decide (given prefixes ≠ [])
  && negb (existsb (λ prefix, String.prefix prefix key) (given prefixes)).

(** [args.x and value not in args.x]. *)
Definition not_among (allowed : option (list string)) (value : string) : bool :=
  bool_decide (given allowed ≠ []) && bool_decide (value ∉ given allowed).

(** [args.runner_node_filter] when it is truthy ([None] and the empty string
    are false). *)
Definition truthy_filter (f : option string) : option string :=
  match f with
  | Some s => if decide (s = "") then None else Some s
  | None => None
  end.

(** ** Clamp policy of full-sweep ([None] is [continue]) *)

Definition clamp_tp (max_tp : option Z) (tp : Z) : option Z :=
  match max_tp with
  | None => Some tp
  | Some m =>
      if decide (m ≤ 0) then None
      else if decide (tp > m) then Some m else Some tp
  end.

Definition clamp_ep (max_ep : option Z) (ep : option Z) : option (option Z) :=
  match max_ep with
  | None => Some ep
  | Some m =>
      if decide (m ≤ 0) then None
      else match ep with
           | Some x => if decide (x > m) then Some (Some m) else Some ep
           | None => Some ep
           end
  end.

Definition narrow_min_conc (min_conc : option Z) (conc_start conc_end : Z) : option Z :=
  match min_conc with
  | None => Some conc_start
  | Some m =>
      if decide (m ≤ 0) then None
      else if decide (conc_end < m) then None
      else Some (conc_start `max` m)
  end.

Definition narrow_max_conc (max_conc : option Z) (conc_start conc_end : Z) : option (Z * Z) :=
  match max_conc with
  | None => Some (conc_start, conc_end)
  | Some m =>
      if decide (m ≤ 0) then None
      else if decide (conc_start > m) then Some (m, m)
      else Some (conc_start, conc_end `min` m)
  end.

Definition filter_min_conc (min_conc : option Z) (conc_values : list Z) : option (list Z) :=
  match min_conc with
  | None => Some conc_values
  | Some m =>
      if decide (m ≤ 0) then None
      else
        let conc_values := filter (λ c, c >= m) conc_values in
        if conc_values is [] then None else Some conc_values
  end.

Definition filter_max_conc (max_conc : option Z) (conc_values : list Z) : option (list Z) :=
  match max_conc with
  | None => Some conc_values
  | Some m =>
      let filtered_conc := filter (λ c, c ≤ m) conc_values in
      if filtered_conc is [] then
        if decide (m > 0) then Some [m] else None
      else Some filtered_conc
  end.

Section generators.

(** [validate_matrix_entry(entry, is_multinode)] is defined in
    [validation.py], which is not among the sources; the generators take it
    as a parameter that accepts an entry or rejects it. *)
Variable validate_matrix_entry : MatrixEntry → bool → bool.

(** Modelled from the spec: the call [validate_matrix_entry(entry,
    is_multinode)] is a precondition check on the entry about to be
    appended: it raises on a schema violation and otherwise hands back the
    entry it was given, which is appended. *)
Definition validated (entry : MatrixEntry) (is_multinode : bool) : result (list MatrixEntry) :=
  if validate_matrix_entry entry is_multinode then Ok [entry] else Err SchemaViolation.

(** ** full-sweep *)

(** The nodes an entry fans out to:
    [runner_nodes_to_use if runner_nodes_to_use else [runner]]. *)
Definition runners_for_entry (runner_nodes_to_use : option (list string)) (runner : string)
    : list string :=
  match runner_nodes_to_use with
  | Some (node :: nodes) => node :: nodes
  | _ => [runner]
  end.

(** Concurrency values of a multinode point: the explicit list when it is
    non-empty, else the expanded range. *)
Definition multinode_conc_values (fuel : nat) (step : Z) (bmk : BenchmarkPoint)
    : result (list Z) :=
  match bmk_conc_list bmk with
  | Some (c :: l) => Ok (c :: l)
  | _ =>
      conc_start ← require "conc-start" (bmk_conc_start bmk);
      conc_end ← require "conc-end" (bmk_conc_end bmk);
      conc_range fuel conc_start conc_end step
  end.

(** The multinode branch for one search-space point (source lines 188-284).
    The record built before the runner loop is overwritten before any use
    and is left out. *)
Definition full_sweep_multinode (fuel : nat) (args : FullSweepArgs) (val : ConfigEntry)
    (runner_nodes_to_use : option (list string)) (isl osl : Z) (bmk : BenchmarkPoint)
    : result (list MatrixEntry) :=
  let spec_decoding := default "none" (bmk_spec_decoding bmk) in
  prefill ← require "prefill" (bmk_prefill bmk);
  decode ← require "decode" (bmk_decode bmk);
  conc_values ← multinode_conc_values fuel (fs_step_size args) bmk;
  match filter_min_conc (fs_min_conc args) conc_values ≫= filter_max_conc (fs_max_conc args) with
  | None => Ok []
  | Some conc_values =>
      let seq_len_str := seq_len_to_str isl osl in
      for_each (λ runner_value,
        validated {|
          image := cfg_image val;
          model := cfg_model val;
          model_prefix := cfg_model_prefix val;
          precision := cfg_precision val;
          framework := cfg_framework val;
          runner := runner_value;
          isl := isl;
          osl := osl;
          spec_decoding := spec_decoding;
          topology := MultiNode prefill decode conc_values;
          max_model_len := isl + osl + 200;
          exp_name := cfg_model_prefix val +:+ "_" +:+ seq_len_str;
          disagg := default false (cfg_disagg val);
          run_eval := false |} true)
        (runners_for_entry runner_nodes_to_use (cfg_runner val))
  end.

(** The single-node branch for one search-space point (source lines
    286-389). *)
Definition full_sweep_single_node (fuel : nat) (args : FullSweepArgs) (val : ConfigEntry)
    (runner_nodes_to_use : option (list string)) (isl osl : Z) (bmk : BenchmarkPoint)
    : result (list MatrixEntry) :=
  tp ← require "tp" (bmk_tp bmk);
  conc_start ← require "conc-start" (bmk_conc_start bmk);
  conc_end ← require "conc-end" (bmk_conc_end bmk);
  let dp_attn := bmk_dp_attn bmk in
  let spec_decoding := default "none" (bmk_spec_decoding bmk) in
  let bounds :=
    tp ← clamp_tp (fs_max_tp args) tp;
    ep ← clamp_ep (fs_max_ep args) (bmk_ep bmk);
    conc_start ← narrow_min_conc (fs_min_conc args) conc_start conc_end;
    range ← narrow_max_conc (fs_max_conc args) conc_start conc_end;
    Some (tp, ep, range) in
  match bounds with
  | None => Ok []
  | Some (tp, ep, (conc_start, conc_end)) =>
      conc_sweep (λ conc,
        let seq_len_str := seq_len_to_str isl osl in
        for_each (λ runner_value,
          validated {|
            image := cfg_image val;
            model := cfg_model val;
            model_prefix := cfg_model_prefix val;
            precision := cfg_precision val;
            framework := cfg_framework val;
            runner := runner_value;
            isl := isl;
            osl := osl;
            spec_decoding := spec_decoding;
            topology := SingleNode tp (default 1 ep) (default false dp_attn) conc;
            max_model_len := isl + osl + 200;
            exp_name := cfg_model_prefix val +:+ "_" +:+ seq_len_str;
            disagg := default false (cfg_disagg val);
            run_eval := false |} false)
          (runners_for_entry runner_nodes_to_use (cfg_runner val)))
        fuel conc_start conc_end (fs_step_size args)
  end.

(** One search-space point: the branch is chosen by the configuration's
    [multinode] flag and the requested node type. *)
Definition full_sweep_point (fuel : nat) (args : FullSweepArgs) (val : ConfigEntry)
    (runner_nodes_to_use : option (list string)) (isl osl : Z) (bmk : BenchmarkPoint)
    : result (list MatrixEntry) :=
  if default false (cfg_multinode val) then
    if fs_multi_node args
    then full_sweep_multinode fuel args val runner_nodes_to_use isl osl bmk
    else Ok []
  else if fs_single_node args
    then full_sweep_single_node fuel args val runner_nodes_to_use isl osl bmk
    else Ok [].

(** One catalog entry (the body of the loop over [all_config_data]). *)
Definition full_sweep_config (fuel : nat) (args : FullSweepArgs) (runner_data : RunnerCatalog)
    (seq_lens_filter : list (Z * Z)) (key : string) (val : ConfigEntry)
    : result (list MatrixEntry) :=
  if prefix_mismatch (fs_model_prefix args) key then Ok []
  else if not_among (fs_precision args) (cfg_precision val) then Ok []
  else if not_among (fs_framework args) (cfg_framework val) then Ok []
  else if not_among (fs_runner_type args) (cfg_runner val) then Ok []
  else
    let nodes :=
      match truthy_filter (fs_runner_node_filter args) with
      | Some f =>
          let runner_nodes := default [] (dict_get (cfg_runner val) runner_data) in
          let runner_nodes_to_use := filter (λ node, substring_of f node = true) runner_nodes in
          if runner_nodes_to_use is [] then None else Some (Some runner_nodes_to_use)
      | None => Some None
      end in
    match nodes with
    | None => Ok []
    | Some runner_nodes_to_use =>
        for_each (λ seq_config,
          let isl := seq_isl seq_config in
          let osl := seq_osl seq_config in
          if bool_decide (seq_lens_filter ≠ []) && bool_decide ((isl, osl) ∉ seq_lens_filter)
          then Ok []
          else for_each (full_sweep_point fuel args val runner_nodes_to_use isl osl)
                 (search_space seq_config))
          (seq_len_configs val)
    end.

Definition generate_full_sweep (fuel : nat) (args : FullSweepArgs)
    (all_config_data : Catalog) (runner_data : RunnerCatalog) : result (list MatrixEntry) :=
  let valid_runner_types := dict_keys runner_data in
  let invalid_runners := filter (λ r, r ∉ valid_runner_types) (given (fs_runner_type args)) in
  if bool_decide (invalid_runners ≠ []) then
    Err (InvalidRunnerTypes invalid_runners (sorted valid_runner_types))
  else
    seq_lens_filter ←
      traverse (λ sl, require sl (dict_get sl seq_len_stoi)) (given (fs_seq_lens args));
    for_each (λ kv, full_sweep_config fuel args runner_data seq_lens_filter kv.1 kv.2)
      all_config_data.

(** ** runner-model-sweep *)

(** The first profile with [isl == 1024 and osl == 1024]. *)
Definition find_1k1k (configs : list SeqLenProfile) : option SeqLenProfile :=
  snd <$> list_find (λ config, seq_isl config = 1024 ∧ seq_osl config = 1024) configs.

(** The worker record that the multinode branch rebuilds field by field. *)
Definition rebuild_worker (w : Worker) : result Worker :=
  nw ← require "num-worker" (num_worker w);
  tp ← require "tp" (worker_tp w);
  ep ← require "ep" (worker_ep w);
  dp_attn ← require "dp-attn" (worker_dp_attn w);
  Ok {| num_worker := Some nw;
        worker_tp := Some tp;
        worker_ep := Some ep;
        worker_dp_attn := Some dp_attn;
        additional_settings := Some (default [] (additional_settings w)) |}.

(** [get_lowest_conc]: the key of [min(search_space, key=get_lowest_conc)];
    [None] stands for [float('inf')]. *)
Definition get_lowest_conc (search_space_entry : BenchmarkPoint) : option Z :=
  match bmk_conc_list search_space_entry with
  | Some (c :: l) => Some (fold_left (λ best c, if decide (c < best) then c else best) l c)
  | _ => None
  end.

(** [a < b] on keys that are integers or [float('inf')]. *)
Definition key_lt (a b : option Z) : bool :=
  match a, b with
  | Some x, Some y => bool_decide (x < y)
  | Some _, None => true
  | None, _ => false
  end.

(** [min(l, key=get_lowest_conc)]: the first element whose key is least. *)
Definition min_by_lowest_conc (l : list BenchmarkPoint) : result BenchmarkPoint :=
  match l with
  | [] => Err (ValueError "min() arg is an empty sequence")
  | x :: l' =>
      Ok (fold_left (λ best c,
            if key_lt (get_lowest_conc c) (get_lowest_conc best) then c else best) l' x)
  end.

(** Concurrency of the single-node branch:
    [bmk.get(conc-start) or min(bmk.get(conc-list, [1]))]. *)
Definition single_node_conc (rs_conc : option Z) (bmk : BenchmarkPoint) : result Z :=
  match rs_conc with
  | Some c => Ok c
  | None =>
      match bmk_conc_start bmk with
      | Some c => if decide (c = 0) then python_min (default [1] (bmk_conc_list bmk)) else Ok c
      | None => python_min (default [1] (bmk_conc_list bmk))
      end
  end.

(** Concurrency of the multinode branch. *)
Definition multinode_conc (rs_conc : option Z) (bmk : BenchmarkPoint) : Z :=
  match rs_conc with
  | Some c => c
  | None =>
      match get_lowest_conc bmk with
      | Some c => c
      | None => default 1 (bmk_conc_start bmk)
      end
  end.

(** One catalog entry (the body of the loop over [all_config_data]);
    [runner_nodes] is the resolved node list. *)
Definition runner_sweep_config (args : RunnerSweepArgs) (runner_nodes : list string)
    (key : string) (val : ConfigEntry) : result (list MatrixEntry) :=
  if bool_decide (cfg_runner val ≠ rs_runner_type args) then Ok []
  else if prefix_mismatch (rs_model_prefix args) key then Ok []
  else if not_among (rs_precision args) (cfg_precision val) then Ok []
  else if not_among (rs_framework args) (cfg_framework val) then Ok []
  else
    let is_multinode := default false (cfg_multinode val) in
    if rs_single_node args && is_multinode then Ok []
    else if rs_multi_node args && negb is_multinode then Ok []
    else
      let model_code := cfg_model_prefix val in
      let disagg := default false (cfg_disagg val) in
      match find_1k1k (seq_len_configs val) with
      | None => Ok []
      | Some target_config =>
          if is_multinode then
            lowest_conc_entry ← min_by_lowest_conc (search_space target_config);
            let conc_value := multinode_conc (rs_conc args) lowest_conc_entry in
            let spec_decoding := default "none" (bmk_spec_decoding lowest_conc_entry) in
            prefill_config ← require "prefill" (bmk_prefill lowest_conc_entry);
            decode_config ← require "decode" (bmk_decode lowest_conc_entry);
            for_each (λ node,
              prefill ← rebuild_worker prefill_config;
              decode ← rebuild_worker decode_config;
              validated {|
                image := cfg_image val;
                model := cfg_model val;
                model_prefix := model_code;
                precision := cfg_precision val;
                framework := cfg_framework val;
                runner := node;
                isl := 1024;
                osl := 1024;
                spec_decoding := spec_decoding;
                topology := MultiNode prefill decode [conc_value];
                max_model_len := 2048;
                exp_name := model_code +:+ "_test";
                disagg := disagg;
                run_eval := false |} true)
              runner_nodes
          else
            keyed ← traverse (λ x, tp ← require "tp" (bmk_tp x); Ok (tp, x))
                      (search_space target_config);
            highest_tp_bmk ← max_by_key keyed;
            highest_tp ← require "tp" (bmk_tp highest_tp_bmk);
            conc_value ← single_node_conc (rs_conc args) highest_tp_bmk;
            let ep := bmk_ep highest_tp_bmk in
            let dp_attn := bmk_dp_attn highest_tp_bmk in
            let spec_decoding := default "none" (bmk_spec_decoding highest_tp_bmk) in
            for_each (λ node,
              validated {|
                image := cfg_image val;
                model := cfg_model val;
                model_prefix := model_code;
                precision := cfg_precision val;
                framework := cfg_framework val;
                runner := node;
                isl := 1024;
                osl := 1024;
                spec_decoding := spec_decoding;
                topology := SingleNode highest_tp (default 1 ep) (default false dp_attn) conc_value;
                max_model_len := 2048;
                exp_name := model_code +:+ "_test";
                disagg := disagg;
                run_eval := false |} false)
              runner_nodes
      end.

(** The node list of the requested runner type, after the optional
    substring filter; both failures raise. *)
Definition resolve_runner_nodes (args : RunnerSweepArgs) (runner_data : RunnerCatalog)
    : result (list string) :=
  match dict_get (rs_runner_type args) runner_data with
  | Some (node :: nodes) =>
      match truthy_filter (rs_runner_node_filter args) with
      | Some f =>
          let runner_nodes := filter (λ node, substring_of f node = true) (node :: nodes) in
          if runner_nodes is [] then
            Err (ValueError ("No runner nodes found matching filter '" +:+ f
                   +:+ "' for runner type '" +:+ rs_runner_type args +:+ "'."))
          else Ok runner_nodes
      | None => Ok (node :: nodes)
      end
  | _ =>
      Err (ValueError ("Runner '" +:+ rs_runner_type args
             +:+ "' does not exist in runner config '" +:+ rs_runner_config args
             +:+ "'. Must choose from existing runner types: '"
             +:+ String.concat ", " (dict_keys runner_data) +:+ "'."))
  end.

Definition generate_runner_model_sweep_config (args : RunnerSweepArgs)
    (all_config_data : Catalog) (runner_data : RunnerCatalog) : result (list MatrixEntry) :=
  runner_nodes ← resolve_runner_nodes args runner_data;
  for_each (λ kv, runner_sweep_config args runner_nodes kv.1 kv.2) all_config_data.

(** ** test-config *)

(** Concurrency values of a point: the explicit list when the key is
    present, else the range expanded with the fixed step 2; then the
    [--conc] allow-list.  [None] is [continue]. *)
Definition test_config_conc_values (fuel : nat) (args : TestConfigArgs) (bmk : BenchmarkPoint)
    : result (option (list Z)) :=
  conc_values ←
    match bmk_conc_list bmk with
    | Some l => Ok l
    | None =>
        conc_start ← require "conc-start" (bmk_conc_start bmk);
        conc_end ← require "conc-end" (bmk_conc_end bmk);
        conc_range fuel conc_start conc_end 2
    end;
  if bool_decide (given (tc_conc args) ≠ []) then
    let conc_values := filter (λ c, c ∈ given (tc_conc args)) conc_values in
    if conc_values is [] then Ok None else Ok (Some conc_values)
  else Ok (Some conc_values).

Definition test_config_point (fuel : nat) (args : TestConfigArgs) (val : ConfigEntry)
    (isl osl : Z) (bmk : BenchmarkPoint) : result (list MatrixEntry) :=
  let seq_len_str := seq_len_to_str isl osl in
  if default false (cfg_multinode val) then
    let spec_decoding := default "none" (bmk_spec_decoding bmk) in
    prefill ← require "prefill" (bmk_prefill bmk);
    decode ← require "decode" (bmk_decode bmk);
    conc_values ← test_config_conc_values fuel args bmk;
    match conc_values with
    | None => Ok []
    | Some conc_values =>
        validated {|
          image := cfg_image val;
          model := cfg_model val;
          model_prefix := cfg_model_prefix val;
          precision := cfg_precision val;
          framework := cfg_framework val;
          runner := cfg_runner val;
          isl := isl;
          osl := osl;
          spec_decoding := spec_decoding;
          topology := MultiNode prefill decode conc_values;
          max_model_len := isl + osl + 200;
          exp_name := cfg_model_prefix val +:+ "_" +:+ seq_len_str;
          disagg := default false (cfg_disagg val);
          run_eval := false |} true
    end
  else
    tp ← require "tp" (bmk_tp bmk);
    let ep := bmk_ep bmk in
    let dp_attn := bmk_dp_attn bmk in
    let spec_decoding := default "none" (bmk_spec_decoding bmk) in
    conc_values ← test_config_conc_values fuel args bmk;
    match conc_values with
    | None => Ok []
    | Some conc_values =>
        for_each (λ conc,
          validated {|
            image := cfg_image val;
            model := cfg_model val;
            model_prefix := cfg_model_prefix val;
            precision := cfg_precision val;
            framework := cfg_framework val;
            runner := cfg_runner val;
            isl := isl;
            osl := osl;
            spec_decoding := spec_decoding;
            topology := SingleNode tp (default 1 ep) (default false dp_attn) conc;
            max_model_len := isl + osl + 200;
            exp_name := cfg_model_prefix val +:+ "_" +:+ seq_len_str;
            disagg := default false (cfg_disagg val);
            run_eval := false |} false)
          conc_values
    end.

Definition test_config_entry (fuel : nat) (args : TestConfigArgs) (val : ConfigEntry)
    : result (list MatrixEntry) :=
  for_each (λ seq_len_config,
    for_each (test_config_point fuel args val (seq_isl seq_len_config) (seq_osl seq_len_config))
      (search_space seq_len_config))
    (seq_len_configs val).

(** The message of the error raised for missing keys. *)
Definition missing_keys_message (missing_keys : list string) (all_config_data : Catalog)
    : string :=
  "Config key(s) not found: " +:+ String.concat ", " missing_keys +:+ "." +:+ newline
  +:+ "Available keys: " +:+ String.concat ", " (sorted (dict_keys all_config_data)).

Definition generate_test_config_sweep (fuel : nat) (args : TestConfigArgs)
    (all_config_data : Catalog) : result (list MatrixEntry) :=
  let missing_keys :=
    filter (λ key, dict_get key all_config_data = None) (tc_config_keys args) in
  if bool_decide (missing_keys ≠ []) then
    Err (ValueError (missing_keys_message missing_keys all_config_data))
  else
    for_each (λ key,
      val ← require key (dict_get key all_config_data);
      test_config_entry fuel args val)
      (tc_config_keys args).

End generators.

(** ** Eval selection ([mark_eval_entries]) *)

(** [max(l)] on integers. *)
Definition python_max (l : list Z) : result Z :=
  match l with
  | [] => Err (ValueError "max() arg is an empty sequence")
  | x :: l' => Ok (fold_left (λ best c, if decide (c > best) then c else best) l' x)
  end.

Definition enumerate {A} (l : list A) : list (nat * A) := imap (λ i x, (i, x)) l.

(** The grouping key. *)
Abbreviation EvalKey := (string * string * string * string * Z * Z * string)%type.

Definition eval_key (entry : MatrixEntry) : EvalKey :=
  (model entry, runner entry, framework entry, precision entry,
   isl entry, osl entry, spec_decoding entry).

Abbreviation Groups := (list (EvalKey * list (nat * MatrixEntry))).

(** [groups[key].append(x)] on a [defaultdict(list)]. *)
Fixpoint groups_append (key : EvalKey) (x : nat * MatrixEntry) (groups : Groups) : Groups :=
  match groups with
  | [] => [(key, [x])]
  | (key', xs) :: groups' =>
      if decide (key = key') then (key', xs ++ [x]) :: groups'
      else (key', xs) :: groups_append key x groups'
  end.

(** The body of the first loop: an entry with a top-level TP and the target
    sequence lengths is filed under its key. *)
Definition grouping_step (target : Z * Z) (groups : Groups) (ie : nat * MatrixEntry) : Groups :=
  match entry_tp ie.2 with
  | None => groups
  | Some _ =>
      if bool_decide (isl ie.2 ≠ target.1 ∨ osl ie.2 ≠ target.2) then groups
      else groups_append (eval_key ie.2) ie groups
  end.

Definition group_entries (target : Z * Z) (matrix_values : list MatrixEntry) : Groups :=
  fold_left (grouping_step target) (enumerate matrix_values) [].

(** What the second loop reads from a grouped entry: its index, [e[tp]]
    and [e[conc]].  Every [e[tp]] of a group is read (source line 80)
    before any [e[conc]]; an entry without TP raises there. *)
Definition single_node_view (ie : nat * MatrixEntry) : result (nat * Z * Z) :=
  match topology ie.2 with
  | SingleNode tp _ _ conc => Ok (ie.1, tp, conc)
  | MultiNode _ _ _ => Err (KeyError "tp")
  end.

(** Among the entries at [tp], add those of highest concurrency. *)
Definition mark_highest_conc (views : list (nat * Z * Z)) (tp : Z) (eval_indices : gset nat)
    : result (gset nat) :=
  let tp_entries := filter (λ v, v.1.2 = tp) views in
  if tp_entries is [] then Ok eval_indices
  else
    max_conc ← python_max (snd <$> tp_entries);
    Ok (eval_indices ∪ list_to_set ((λ v, v.1.1) <$> filter (λ v, v.2 = max_conc) tp_entries)).

(** The body of the second loop, for one group. *)
Definition select_in_group (entries : list (nat * MatrixEntry)) (eval_indices : gset nat)
    : result (gset nat) :=
  if entries is [] then Ok eval_indices
  else
    views ← traverse single_node_view entries;
    min_tp ← python_min ((λ v, v.1.2) <$> views);
    max_tp ← python_max ((λ v, v.1.2) <$> views);
    eval_indices ← mark_highest_conc views max_tp eval_indices;
    if decide (min_tp ≠ max_tp) then mark_highest_conc views min_tp eval_indices
    else Ok eval_indices.

Fixpoint select_in_groups (groups : Groups) (eval_indices : gset nat) : result (gset nat) :=
  match groups with
  | [] => Ok eval_indices
  | (_, entries) :: groups' =>
      eval_indices ← select_in_group entries eval_indices;
      select_in_groups groups' eval_indices
  end.

Definition eval_indices (matrix_values : list MatrixEntry) : result (gset nat) :=
  target ← require "1k8k" (dict_get "1k8k" seq_len_stoi);
  select_in_groups (group_entries target matrix_values) ∅.

(** [entry[Fields.RUN_EVAL.value] = b]. *)
Definition set_run_eval (entry : MatrixEntry) (b : bool) : MatrixEntry :=
  {| image := image entry;
     model := model entry;
     model_prefix := model_prefix entry;
     precision := precision entry;
     framework := framework entry;
     runner := runner entry;
     isl := isl entry;
     osl := osl entry;
     spec_decoding := spec_decoding entry;
     topology := topology entry;
     max_model_len := max_model_len entry;
     exp_name := exp_name entry;
     disagg := disagg entry;
     run_eval := b |}.

(** The entries of a matrix are distinct objects (each generator builds a
    fresh record per appended entry), so the in-place update of the third
    loop is a map over the list. *)
Definition mark_eval_entries (matrix_values : list MatrixEntry) : result (list MatrixEntry) :=
  eval_indices ← eval_indices matrix_values;
  Ok (imap (λ i entry, set_run_eval entry (bool_decide (i ∈ eval_indices))) matrix_values).

(** ** The dispatch of [main]

    [main] parses the command line, loads the catalog and the runner
    inventory (both outside this file), calls the generator of the chosen
    subcommand and then handles [--run-evals] and [--evals-only]. *)

Inductive Command : Type :=
| FullSweep (args : FullSweepArgs)
| RunnerModelSweep (args : RunnerSweepArgs)
| TestConfig (args : TestConfigArgs).

(** The eval options (source lines 918-923): mark the matrix when either
    option is set; with [--evals-only] keep the marked entries only. *)
Definition handle_eval_options (run_evals evals_only : bool)
    (matrix_values : list MatrixEntry) : result (list MatrixEntry) :=
  if run_evals || evals_only then
    matrix_values ← mark_eval_entries matrix_values;
    if evals_only then Ok (filter (λ e, run_eval e = true) matrix_values)
    else Ok matrix_values
  else Ok matrix_values.

(** [main] after argument parsing and loading (source lines 907-926); the
    value is the matrix that is printed and returned. *)
Definition main (validate_matrix_entry : MatrixEntry → bool → bool) (fuel : nat)
    (command : Command) (run_evals evals_only : bool)
    (all_config_data : Catalog) (runner_data : RunnerCatalog) : result (list MatrixEntry) :=
  matrix_values ←
    match command with
    | FullSweep args =>
        generate_full_sweep validate_matrix_entry fuel args all_config_data runner_data
    | RunnerModelSweep args =>
        generate_runner_model_sweep_config validate_matrix_entry args all_config_data runner_data
    | TestConfig args =>
        generate_test_config_sweep validate_matrix_entry fuel args all_config_data
    end;
  handle_eval_options run_evals evals_only matrix_values.

(** ** Predicates used in the statements *)

(** Strictly increasing, except that the last two elements may coincide. *)
Fixpoint increasing_upto_last (l : list Z) : Prop :=
  match l with
  | x :: (y :: r) as t => (x < y ∨ (x = y ∧ r = [])) ∧ increasing_upto_last t
  | _ => True
  end.

(** Range expansion at one input: the expansion returns, and what it returns
    is increasing up to a repeated last value and ends in [conc_end]. *)
Definition range_expands (conc_start conc_end step : Z) : Prop :=
  ∃ fuel l, conc_range fuel conc_start conc_end step = Ok l
            ∧ increasing_upto_last l ∧ last l = Some conc_end.

(** A value lies within the optional bounds [min_conc, max_conc]. *)
Definition within_bounds (min_conc max_conc : option Z) (c : Z) : Prop :=
  default c min_conc ≤ c ∧ c ≤ default c max_conc.
Global Instance within_bounds_dec mn mx c : Decision (within_bounds mn mx c).
Proof. unfold within_bounds. apply _. Defined.

(** A point emitted once per runner node, each entry carrying the whole
    concurrency list [conc_values]. *)
Definition emitted_with_list (runners : list string) (conc_values : list Z)
    (out : list MatrixEntry) : Prop :=
  out ≠ [] ∧ runner <$> out = runners
  ∧ Forall (λ e, ∃ prefill decode, topology e = MultiNode prefill decode conc_values) out.

(** The concurrency field is a list (the multinode shape) or a single value
    (the single-node shape). *)
Definition conc_is_list (e : MatrixEntry) : Prop :=
  ∃ prefill decode conc_values, topology e = MultiNode prefill decode conc_values.

Definition conc_is_scalar (e : MatrixEntry) : Prop :=
  ∃ tp ep dp_attn conc, topology e = SingleNode tp ep dp_attn conc.

Definition entry_ep (e : MatrixEntry) : option Z :=
  match topology e with
  | SingleNode _ ep _ _ => Some ep
  | MultiNode _ _ _ => None
  end.

(** A search-space point with its TP, or its EP, replaced. *)
Definition with_tp (bmk : BenchmarkPoint) (tp : Z) : BenchmarkPoint :=
  {| bmk_tp := Some tp; bmk_ep := bmk_ep bmk; bmk_dp_attn := bmk_dp_attn bmk;
     bmk_spec_decoding := bmk_spec_decoding bmk; bmk_conc_start := bmk_conc_start bmk;
     bmk_conc_end := bmk_conc_end bmk; bmk_conc_list := bmk_conc_list bmk;
     bmk_prefill := bmk_prefill bmk; bmk_decode := bmk_decode bmk |}.

Definition with_ep (bmk : BenchmarkPoint) (ep : Z) : BenchmarkPoint :=
  {| bmk_tp := bmk_tp bmk; bmk_ep := Some ep; bmk_dp_attn := bmk_dp_attn bmk;
     bmk_spec_decoding := bmk_spec_decoding bmk; bmk_conc_start := bmk_conc_start bmk;
     bmk_conc_end := bmk_conc_end bmk; bmk_conc_list := bmk_conc_list bmk;
     bmk_prefill := bmk_prefill bmk; bmk_decode := bmk_decode bmk |}.

(** The arguments with [--max-tp], or [--max-ep], replaced. *)
Definition with_max_tp (args : FullSweepArgs) (max_tp : option Z) : FullSweepArgs :=
  {| fs_model_prefix := fs_model_prefix args; fs_precision := fs_precision args;
     fs_framework := fs_framework args; fs_runner_type := fs_runner_type args;
     fs_seq_lens := fs_seq_lens args; fs_step_size := fs_step_size args;
     fs_min_conc := fs_min_conc args; fs_max_conc := fs_max_conc args;
     fs_max_tp := max_tp; fs_max_ep := fs_max_ep args;
     fs_single_node := fs_single_node args; fs_multi_node := fs_multi_node args;
     fs_runner_node_filter := fs_runner_node_filter args |}.

Definition with_max_ep (args : FullSweepArgs) (max_ep : option Z) : FullSweepArgs :=
  {| fs_model_prefix := fs_model_prefix args; fs_precision := fs_precision args;
     fs_framework := fs_framework args; fs_runner_type := fs_runner_type args;
     fs_seq_lens := fs_seq_lens args; fs_step_size := fs_step_size args;
     fs_min_conc := fs_min_conc args; fs_max_conc := fs_max_conc args;
     fs_max_tp := fs_max_tp args; fs_max_ep := max_ep;
     fs_single_node := fs_single_node args; fs_multi_node := fs_multi_node args;
     fs_runner_node_filter := fs_runner_node_filter args |}.

(** The concurrency of runner-model-sweep's single-node branch: the
    override when given; else the point's range start when it is present and
    not zero; else the least value of the point's explicit list, or 1 when
    the point has no list. *)
Definition resolved_conc (override : option Z) (bmk : BenchmarkPoint) (conc : Z) : Prop :=
  (∀ c, override = Some c → conc = c)
  ∧ (override = None → ∀ c, bmk_conc_start bmk = Some c → c ≠ 0 → conc = c)
  ∧ (override = None → bmk_conc_start bmk = None ∨ bmk_conc_start bmk = Some 0 →
       (∀ l, bmk_conc_list bmk = Some l → conc ∈ l ∧ ∀ c, c ∈ l → conc ≤ c)
       ∧ (bmk_conc_list bmk = None → conc = 1)).

(** The text [sub] occurs in [s]. *)
Definition occurs_in (sub s : string) : Prop :=
  ∃ before after, s = before +:+ sub +:+ after.

(** Eval selection as the policy words it.  An entry is eligible when it has
    a top-level TP and the sequence lengths (1024, 8192). *)
Definition eval_eligible (e : MatrixEntry) : Prop :=
  is_Some (entry_tp e) ∧ isl e = 1024 ∧ osl e = 8192.

Global Instance eval_eligible_dec e : Decision (eval_eligible e).
Proof. unfold eval_eligible. apply _. Defined.

(** The TP and the concurrency of a single-node entry. *)
Definition tp_conc (e : MatrixEntry) : option (Z * Z) :=
  match topology e with
  | SingleNode tp _ _ conc => Some (tp, conc)
  | MultiNode _ _ _ => None
  end.

(** The group of [e] has an entry with TP [tp] and concurrency [conc]: an
    eligible entry of the matrix with the key of [e]. *)
Definition in_group (matrix : list MatrixEntry) (e : MatrixEntry) (tp conc : Z) : Prop :=
  ∃ e', e' ∈ matrix ∧ eval_eligible e' ∧ eval_key e' = eval_key e
        ∧ tp_conc e' = Some (tp, conc).

(** [e] is selected: it is eligible, its concurrency is the highest among
    the entries of its group at its TP, and its TP is the group's highest,
    or the group's lowest when that differs from the highest. *)
Definition eval_selected (matrix : list MatrixEntry) (e : MatrixEntry) : Prop :=
  eval_eligible e
  ∧ ∃ tp conc, tp_conc e = Some (tp, conc)
      ∧ (∀ conc', in_group matrix e tp conc' → conc' ≤ conc)
      ∧ ((∀ tp' conc', in_group matrix e tp' conc' → tp' ≤ tp)
         ∨ ((∀ tp' conc', in_group matrix e tp' conc' → tp ≤ tp')
            ∧ ∃ tp' conc', in_group matrix e tp' conc' ∧ tp' ≠ tp)).

(** The indexed entries that belong to the group of [key]. *)
Definition members (key : EvalKey) (l : list (nat * MatrixEntry)) : list (nat * MatrixEntry) :=
  filter (λ ie, eval_eligible ie.2 ∧ eval_key ie.2 = key) l.

(** Selection within one group, in terms of its indexed entries. *)
Definition selected_in (xs : list (nat * MatrixEntry)) (i : nat) : Prop :=
  ∃ tp conc,
    (∃ e, (i, e) ∈ xs ∧ tp_conc e = Some (tp, conc))
    ∧ (∀ i' e' conc', (i', e') ∈ xs → tp_conc e' = Some (tp, conc') → conc' ≤ conc)
    ∧ ((∀ i' e' tp' conc', (i', e') ∈ xs → tp_conc e' = Some (tp', conc') → tp' ≤ tp)
       ∨ ((∀ i' e' tp' conc', (i', e') ∈ xs → tp_conc e' = Some (tp', conc') → tp ≤ tp')
          ∧ ∃ i' e' tp' conc', (i', e') ∈ xs ∧ tp_conc e' = Some (tp', conc') ∧ tp' ≠ tp)).

(** Two entries agree on every field but the eval flag. *)
Definition same_but_eval (e e' : MatrixEntry) : Prop :=
  image e' = image e ∧ model e' = model e ∧ model_prefix e' = model_prefix e
  ∧ precision e' = precision e ∧ framework e' = framework e ∧ runner e' = runner e
  ∧ isl e' = isl e ∧ osl e' = osl e ∧ spec_decoding e' = spec_decoding e
  ∧ topology e' = topology e ∧ max_model_len e' = max_model_len e
  ∧ exp_name e' = exp_name e ∧ disagg e' = disagg e.

(** ** Sample inputs *)

Definition accept_all : MatrixEntry → bool → bool := λ _ _, true.

Definition no_point : BenchmarkPoint :=
  {| bmk_tp := None; bmk_ep := None; bmk_dp_attn := None; bmk_spec_decoding := None;
     bmk_conc_start := None; bmk_conc_end := None; bmk_conc_list := None;
     bmk_prefill := None; bmk_decode := None |}.

Definition range_point (tp conc_start conc_end : Z) : BenchmarkPoint :=
  {| bmk_tp := Some tp; bmk_ep := None; bmk_dp_attn := None; bmk_spec_decoding := None;
     bmk_conc_start := Some conc_start; bmk_conc_end := Some conc_end; bmk_conc_list := None;
     bmk_prefill := None; bmk_decode := None |}.

Definition sample_worker : Worker :=
  {| num_worker := Some 1; worker_tp := Some 4; worker_ep := Some 1;
     worker_dp_attn := Some false; additional_settings := None |}.

Definition list_point (conc_list : list Z) : BenchmarkPoint :=
  {| bmk_tp := None; bmk_ep := None; bmk_dp_attn := None; bmk_spec_decoding := None;
     bmk_conc_start := None; bmk_conc_end := None; bmk_conc_list := Some conc_list;
     bmk_prefill := Some sample_worker; bmk_decode := Some sample_worker |}.

Definition sample_config (multinode : bool) (profiles : list SeqLenProfile) : ConfigEntry :=
  {| cfg_image := "image:latest"; cfg_model := "org/model"; cfg_model_prefix := "dsr1";
     cfg_precision := "fp8"; cfg_framework := "vllm"; cfg_runner := "h200";
     cfg_multinode := Some multinode; cfg_disagg := None; seq_len_configs := profiles |}.

Definition full_sweep_defaults : FullSweepArgs :=
  {| fs_model_prefix := None; fs_precision := None; fs_framework := None;
     fs_runner_type := None; fs_seq_lens := None; fs_step_size := 2;
     fs_min_conc := None; fs_max_conc := None; fs_max_tp := None; fs_max_ep := None;
     fs_single_node := true; fs_multi_node := true; fs_runner_node_filter := None |}.

Definition with_max_conc (args : FullSweepArgs) (max_conc : option Z) : FullSweepArgs :=
  {| fs_model_prefix := fs_model_prefix args; fs_precision := fs_precision args;
     fs_framework := fs_framework args; fs_runner_type := fs_runner_type args;
     fs_seq_lens := fs_seq_lens args; fs_step_size := fs_step_size args;
     fs_min_conc := fs_min_conc args; fs_max_conc := max_conc;
     fs_max_tp := fs_max_tp args; fs_max_ep := fs_max_ep args;
     fs_single_node := fs_single_node args; fs_multi_node := fs_multi_node args;
     fs_runner_node_filter := fs_runner_node_filter args |}.

Definition profile (isl osl : Z) (points : list BenchmarkPoint) : SeqLenProfile :=
  {| seq_isl := isl; seq_osl := osl; search_space := points |}.

Definition sample_catalog : Catalog :=
  [("dsr1-fp8-h200-vllm",
    sample_config false [profile 1024 1024 [range_point 1 4 16; range_point 4 4 64;
                                            range_point 2 8 8];
                         profile 1024 8192 [range_point 8 1 8; range_point 1 1 2]])].

Definition sample_runners : RunnerCatalog :=
  [("h200", ["h200-dgx_0"; "h200-dgx_1"; "h200-cw_0"]); ("b200", ["b200-nv_0"])].

Definition runner_sweep_single_node : RunnerSweepArgs :=
  {| rs_runner_type := "h200"; rs_runner_config := ".github/configs/runners.yaml";
     rs_model_prefix := None; rs_precision := None; rs_framework := None; rs_conc := None;
     rs_single_node := true; rs_multi_node := false; rs_runner_node_filter := None |}.

Definition test_config_keys (keys : list string) : TestConfigArgs :=
  {| tc_config_keys := keys; tc_conc := None |}.

(** A single-node entry of the sample configuration; the flag it comes
    with is [run_eval]. *)
Definition eval_sample (tp conc isl osl : Z) (run_eval : bool) : MatrixEntry :=
  {| image := "image:latest"; model := "org/model"; model_prefix := "dsr1";
     precision := "fp8"; framework := "vllm"; runner := "h200"; isl := isl; osl := osl;
     spec_decoding := "none"; topology := SingleNode tp 1 false conc;
     max_model_len := isl + osl + 200; exp_name := "dsr1_" +:+ seq_len_to_str isl osl;
     disagg := false; run_eval := run_eval |}.

Definition eval_sample_group : list MatrixEntry :=
  [eval_sample 8 1 1024 8192 false; eval_sample 8 2 1024 8192 true;
   eval_sample 8 4 1024 8192 false; eval_sample 8 8 1024 8192 false;
   eval_sample 1 1 1024 8192 true; eval_sample 1 2 1024 8192 false].

(** ** Further predicates and sample inputs *)

(** The concurrency values that an entry carries: its single value, or the
    values of its list. *)
Definition conc_values_of (e : MatrixEntry) : list Z :=
  match topology e with
  | SingleNode _ _ _ conc => [conc]
  | MultiNode _ _ conc_values => conc_values
  end.

(** A full sweep of single-node configurations with every filter given. *)
Definition filtered_sweep : FullSweepArgs :=
  {| fs_model_prefix := Some ["gptoss"; "dsr1"]; fs_precision := Some ["fp8"];
     fs_framework := Some ["vllm"; "sglang"]; fs_runner_type := Some ["h200"];
     fs_seq_lens := Some ["1k8k"]; fs_step_size := 2;
     fs_min_conc := Some 2; fs_max_conc := Some 4; fs_max_tp := Some 4; fs_max_ep := Some 1;
     fs_single_node := true; fs_multi_node := false;
     fs_runner_node_filter := Some "dgx" |}.

(** The least value of the explicit concurrency list of a point, when the
    list is present and not empty. *)
Definition lowest_listed_conc (bmk : BenchmarkPoint) (x : Z) : Prop :=
  ∃ c l, bmk_conc_list bmk = Some (c :: l) ∧ x ∈ c :: l ∧ ∀ y, y ∈ c :: l → x ≤ y.

(** The concurrency of runner-model-sweep's multinode branch: the override
    when given; else the least value of the point's explicit list; else,
    without a list (or with an empty one), the point's range start, or 1. *)
Definition resolved_multinode_conc (override : option Z) (bmk : BenchmarkPoint) (conc : Z)
    : Prop :=
  (∀ c, override = Some c → conc = c)
  ∧ (override = None → ∀ x, lowest_listed_conc bmk x → conc = x)
  ∧ (override = None → bmk_conc_list bmk = None ∨ bmk_conc_list bmk = Some [] →
       conc = default 1 (bmk_conc_start bmk)).

(** A worker record with the four keys that runner-model-sweep reads. *)
Definition complete_worker (w : Worker) : Prop :=
  is_Some (num_worker w) ∧ is_Some (worker_tp w) ∧ is_Some (worker_ep w)
  ∧ is_Some (worker_dp_attn w).

(** The worker record as runner-model-sweep writes it into an entry: the
    same four values, and the additional settings or the empty list. *)
Definition rebuilt_from (w w' : Worker) : Prop :=
  num_worker w' = num_worker w ∧ worker_tp w' = worker_tp w ∧ worker_ep w' = worker_ep w
  ∧ worker_dp_attn w' = worker_dp_attn w
  ∧ additional_settings w' = Some (default [] (additional_settings w)).

Definition runner_sweep_multi_node : RunnerSweepArgs :=
  {| rs_runner_type := "h200"; rs_runner_config := ".github/configs/runners.yaml";
     rs_model_prefix := Some ["dsr1"]; rs_precision := None; rs_framework := None;
     rs_conc := None; rs_single_node := false; rs_multi_node := true;
     rs_runner_node_filter := Some "dgx" |}.

Definition multinode_catalog : Catalog :=
  [("dsr1-fp8-h200-dynamo",
    sample_config true [profile 1024 1024 [list_point [16; 8; 32]; list_point [4; 64];
                                           list_point []]])].

(** The node list that [full_sweep_config] resolves for a configuration:
    [None] when no node filter is given. *)
Definition resolved_nodes (args : FullSweepArgs) (runner_data : RunnerCatalog)
    (val : ConfigEntry) (nodes : option (list string)) : Prop :=
  match truthy_filter (fs_runner_node_filter args) with
  | Some f =>
      ∃ l, nodes = Some l ∧ l ≠ []
           ∧ l = filter (λ node, substring_of f node = true)
                   (default [] (dict_get (cfg_runner val) runner_data))
  | None => nodes = None
  end.

(** The exceptions that expanding a search-space point can raise: a missing
    key, a rejected entry, or none at all when a range never ends. *)
Definition point_error (e : error) : Prop :=
  match e with
  | KeyError _ | SchemaViolation | OutOfFuel => True
  | ValueError _ | InvalidRunnerTypes _ _ => False
  end.

(** No character of the text is an underscore (code point 95). *)
Fixpoint no_underscore (s : string) : Prop :=
  match s with
  | EmptyString => True
  | String c s' => c ≠ Ascii.ascii_of_nat 95 ∧ no_underscore s'
  end.

(** A full sweep with no filter and no bound, and the default step 2. *)
Definition unfiltered_sweep (single_node multi_node : bool) : FullSweepArgs :=
  {| fs_model_prefix := None; fs_precision := None; fs_framework := None;
     fs_runner_type := None; fs_seq_lens := None; fs_step_size := 2;
     fs_min_conc := None; fs_max_conc := None; fs_max_tp := None; fs_max_ep := None;
     fs_single_node := single_node; fs_multi_node := multi_node;
     fs_runner_node_filter := None |}.

(** The node mode [--single-node] or [--multi-node] admits the
    configuration. *)
Definition mode_admits (single_node multi_node : bool) (val : ConfigEntry) : Prop :=
  if default false (cfg_multinode val) then multi_node = true else single_node = true.

(** The concurrency keys of a point are those of its configuration's shape:
    a single-node point has no explicit list, and the explicit list of a
    multinode point, when present, is not empty. *)
Definition conc_keys_fit (val : ConfigEntry) (bmk : BenchmarkPoint) : Prop :=
  if default false (cfg_multinode val) then bmk_conc_list bmk ≠ Some []
  else bmk_conc_list bmk = None.

(** The grouping of eval selection as the policy words it: two entries
    belong to one group when they agree on model, runner, framework,
    precision, isl, osl and spec-decoding. *)
Definition same_group (e e' : MatrixEntry) : Prop :=
  model e' = model e ∧ runner e' = runner e ∧ framework e' = framework e
  ∧ precision e' = precision e ∧ isl e' = isl e ∧ osl e' = osl e
  ∧ spec_decoding e' = spec_decoding e.

(** The group of [e] has an entry with TP [tp] and concurrency [conc]: an
    eligible entry of the matrix that agrees with [e] on the seven fields. *)
Definition group_has (matrix : list MatrixEntry) (e : MatrixEntry) (tp conc : Z) : Prop :=
  ∃ e', e' ∈ matrix ∧ eval_eligible e' ∧ same_group e e' ∧ tp_conc e' = Some (tp, conc).

(** The policy: [e] is eligible; its concurrency is the highest among the
    entries of its group at its TP; and its TP is the highest of its group,
    or it is the lowest of its group and the group has another TP. *)
Definition marked_by_policy (matrix : list MatrixEntry) (e : MatrixEntry) : Prop :=
  eval_eligible e
  ∧ ∃ tp conc, tp_conc e = Some (tp, conc)
      ∧ (∀ conc', group_has matrix e tp conc' → conc' ≤ conc)
      ∧ ((∀ tp' conc', group_has matrix e tp' conc' → tp' ≤ tp)
         ∨ ((∀ tp' conc', group_has matrix e tp' conc' → tp ≤ tp')
            ∧ ∃ tp' conc', group_has matrix e tp' conc' ∧ tp' ≠ tp)).

(** An eligible single-node entry on [runner] with the given spec-decoding
    mode. *)
Definition grouped_sample (runner spec_decoding : string) (tp conc : Z) : MatrixEntry :=
  {| image := "image:latest"; model := "org/model"; model_prefix := "dsr1";
     precision := "fp8"; framework := "vllm"; runner := runner; isl := 1024; osl := 8192;
     spec_decoding := spec_decoding; topology := SingleNode tp 1 false conc;
     max_model_len := 9416; exp_name := "dsr1_1k8k"; disagg := false; run_eval := false |}.

(** Three groups, interleaved: (h200, none) with TP 8 at concurrencies 4, 2
    and TP 2 at 4; (h200, mtp) with TP 8 at 8 and TP 2 at 1, 2; (b200, none)
    with TP 4 at 16. *)
Definition eval_sample_groups : list MatrixEntry :=
  [grouped_sample "h200" "none" 8 4; grouped_sample "h200" "mtp" 8 8;
   grouped_sample "h200" "none" 8 2; grouped_sample "b200" "none" 4 16;
   grouped_sample "h200" "mtp" 2 1; grouped_sample "h200" "none" 2 4;
   grouped_sample "h200" "mtp" 2 2].

(** The concurrency values of a multinode point as the policy words them:
    the explicit list when the point has one that is not empty, else the
    range of the point, expanded. *)
Definition listed_or_expanded (fuel : nat) (step : Z) (bmk : BenchmarkPoint)
    (values : list Z) : Prop :=
  (values ≠ [] ∧ bmk_conc_list bmk = Some values)
  ∨ ((bmk_conc_list bmk = None ∨ bmk_conc_list bmk = Some [])
     ∧ ∃ conc_start conc_end,
         bmk_conc_start bmk = Some conc_start ∧ bmk_conc_end bmk = Some conc_end
         ∧ conc_range fuel conc_start conc_end step = Ok values).

(** The whole list that a multinode entry carries, given the values of its
    point and the bounds: every value within the bounds, in order, when there
    is one; else the single value [max_conc] when that bound is given; else
    the values themselves. *)
Definition full_list (min_conc max_conc : option Z) (values conc : list Z) : Prop :=
  let kept := filter (within_bounds min_conc max_conc) values in
  (kept ≠ [] → conc = kept)
  ∧ (kept = [] → ∀ m, max_conc = Some m → conc = [m])
  ∧ (kept = [] → max_conc = None → conc = values).

(** The entry has the multinode shape, with the workers of the point and,
    as its concurrency, the whole list of the point. *)
Definition carries_full_list (fuel : nat) (args : FullSweepArgs) (bmk : BenchmarkPoint)
    (e : MatrixEntry) : Prop :=
  ∃ prefill decode values conc,
    bmk_prefill bmk = Some prefill ∧ bmk_decode bmk = Some decode
    ∧ listed_or_expanded fuel (fs_step_size args) bmk values
    ∧ full_list (fs_min_conc args) (fs_max_conc args) values conc
    ∧ topology e = MultiNode prefill decode conc.

(** The entry has the single-node shape: the TP of the point, or a lower
    one that a bound put in its place, the data-parallel attention flag of
    the point, and one concurrency value. *)
Definition carries_one_value (bmk : BenchmarkPoint) (e : MatrixEntry) : Prop :=
  ∃ tp0 tp ep dp_attn conc,
    bmk_tp bmk = Some tp0 ∧ tp ≤ tp0 ∧ dp_attn = default false (bmk_dp_attn bmk)
    ∧ topology e = SingleNode tp ep dp_attn conc.

(** A multinode point with a range and no explicit list. *)
Definition multinode_range_point (conc_start conc_end : Z) : BenchmarkPoint :=
  {| bmk_tp := None; bmk_ep := None; bmk_dp_attn := None; bmk_spec_decoding := None;
     bmk_conc_start := Some conc_start; bmk_conc_end := Some conc_end;
     bmk_conc_list := None;
     bmk_prefill := Some sample_worker; bmk_decode := Some sample_worker |}.

(** A single-node configuration followed by a multinode one, whose points
    have an explicit list, an explicit list, and a range. *)
Definition mixed_catalog : Catalog :=
  [("dsr1-fp8-h200-vllm",
    sample_config false [profile 1024 8192 [range_point 8 1 8; range_point 1 1 2]]);
   ("dsr1-fp8-h200-dynamo",
    sample_config true [profile 1024 8192 [list_point [16; 8; 32]; list_point [4; 64];
                                           multinode_range_point 2 16]])].

(** The 1k1k profile of a configuration as the policy words it: the first
    profile with [isl = osl = 1024]. *)
Definition first_1k1k (configs : list SeqLenProfile) (target : SeqLenProfile) : Prop :=
  ∃ i, configs !! i = Some target ∧ seq_isl target = 1024 ∧ seq_osl target = 1024
       ∧ ∀ j config, (j < i)%nat → configs !! j = Some config →
           ¬ (seq_isl config = 1024 ∧ seq_osl config = 1024).

(** The point at index [i] is the first point of highest TP. *)
Definition first_highest_tp (points : list BenchmarkPoint) (i : nat) (bmk : BenchmarkPoint)
    (tp : Z) : Prop :=
  points !! i = Some bmk ∧ bmk_tp bmk = Some tp
  ∧ ∀ j b tp', points !! j = Some b → bmk_tp b = Some tp' →
      tp' ≤ tp ∧ ((j < i)%nat → tp' < tp).

(** The concurrency of the single-node branch as the policy words it: the
    override when given; else the range start of the point; else the least
    value of its explicit list; else 1. *)
Definition override_or_range_start (override : option Z) (bmk : BenchmarkPoint) (conc : Z)
    : Prop :=
  match override, bmk_conc_start bmk, bmk_conc_list bmk with
  | Some c, _, _ => conc = c
  | None, Some c, _ => conc = c
  | None, None, Some l => conc ∈ l ∧ ∀ c, c ∈ l → conc ≤ c
  | None, None, None => conc = 1
  end.

(** * Results *)

(** ** The error monad and the loops: inversion lemmas *)

Lemma bind_Ok {A B} (r : result A) (k : A → result B) b :
  r ≫= k = Ok b ↔ ∃ a, r = Ok a ∧ k a = Ok b.
Proof. destruct r; simpl; split; [eauto | intros (? & [= <-] & ?); done | done | intros (? & [=] & _)]. Qed.

Ltac inv_bind H :=
  let a := fresh "a" in
  let Ha := fresh "H" a in
  apply bind_Ok in H as (a & Ha & H).

Lemma require_Ok {A} key (o : option A) a : require key o = Ok a ↔ o = Some a.
Proof. destruct o; simpl; split; congruence. Qed.

(** An entry appended by a [for] loop was appended by one run of its body. *)
Lemma for_each_Ok_inv {A B} (body : A → result (list B)) l out :
  for_each body l = Ok out →
  ∀ b, b ∈ out → ∃ a o, a ∈ l ∧ body a = Ok o ∧ b ∈ o.
Proof.
  revert out. induction l as [|a l IH]; simpl; intros out H b Hb.
  { injection H as <-. by apply elem_of_nil in Hb. }
  inv_bind H. inv_bind H. injection H as <-.
  apply elem_of_app in Hb as [Hb | Hb].
  - exists a, a0. split; [left|]; done.
  - destruct (IH _ Ha1 b Hb) as (a' & o & ? & ? & ?).
    exists a', o. split; [by right | done].
Qed.

(** The same for the concurrency loop. *)
Lemma conc_sweep_Ok_inv {A} (body : Z → result (list A)) fuel s e st out :
  conc_sweep body fuel s e st = Ok out →
  ∀ b, b ∈ out → ∃ c o, body c = Ok o ∧ b ∈ o.
Proof.
  revert s out. induction fuel as [|fuel IH]; simpl; intros s out H b Hb; [done|].
  case_decide; [|injection H as <-; by apply elem_of_nil in Hb].
  inv_bind H. case_decide; [injection H as <-; eauto|].
  inv_bind H. injection H as <-.
  apply elem_of_app in Hb as [Hb | Hb]; eauto.
Qed.

(** The loop visits exactly the values of the expanded range, in order. *)
Lemma conc_sweep_range {A} (body : Z → result (list A)) fuel s e st l :
  conc_range fuel s e st = Ok l → conc_sweep body fuel s e st = for_each body l.
Proof.
  unfold conc_range. revert s l. induction fuel as [|fuel IH]; simpl; intros s l H; [done|].
  case_decide; [|by injection H as <-].
  simpl in H. case_decide.
  - injection H as <-. simpl. destruct (body s); simpl; [by rewrite app_nil_r | done].
  - inv_bind H. injection H as <-. simpl. rewrite (IH _ _ Ha). done.
Qed.


(** [min] and [max] return an element that bounds every element. *)
Lemma fold_left_min_spec (l : list Z) x0 :
  let r := fold_left (λ best c, if decide (c < best) then c else best) l x0 in
  r ∈ x0 :: l ∧ ∀ y, y ∈ x0 :: l → r ≤ y.
Proof.
  revert x0. induction l as [|x l IH]; intros x0; simpl.
  { split; [left|]. intros y ->%list_elem_of_singleton. lia. }
  destruct (IH (if decide (x < x0) then x else x0)) as [Hin Hle]. split.
  - apply elem_of_cons in Hin as [-> | Hin]; [|by do 2 right].
    case_decide; [right; left | left].
  - intros y Hy. apply elem_of_cons in Hy as [-> | Hy].
    + trans (if decide (x < x0) then x else x0); [apply Hle; left|]. case_decide; lia.
    + apply elem_of_cons in Hy as [-> | Hy]; [|apply Hle; by right].
      trans (if decide (x < x0) then x else x0); [apply Hle; left|]. case_decide; lia.
Qed.

Lemma fold_left_max_spec (l : list Z) x0 :
  let r := fold_left (λ best c, if decide (c > best) then c else best) l x0 in
  r ∈ x0 :: l ∧ ∀ y, y ∈ x0 :: l → y ≤ r.
Proof.
  revert x0. induction l as [|x l IH]; intros x0; simpl.
  { split; [left|]. intros y ->%list_elem_of_singleton. lia. }
  destruct (IH (if decide (x > x0) then x else x0)) as [Hin Hle]. split.
  - apply elem_of_cons in Hin as [-> | Hin]; [|by do 2 right].
    case_decide; [right; left | left].
  - intros y Hy. apply elem_of_cons in Hy as [-> | Hy].
    + trans (if decide (x > x0) then x else x0); [case_decide; lia | apply Hle; left].
    + apply elem_of_cons in Hy as [-> | Hy]; [|apply Hle; by right].
      trans (if decide (x > x0) then x else x0); [case_decide; lia | apply Hle; left].
Qed.

Lemma python_min_spec l : l ≠ [] →
  ∃ m, python_min l = Ok m ∧ m ∈ l ∧ ∀ c, c ∈ l → m ≤ c.
Proof.
  destruct l as [|x l]; [done|]. intros _. eexists. split; [done|].
  apply fold_left_min_spec.
Qed.

Lemma python_max_spec l : l ≠ [] →
  ∃ m, python_max l = Ok m ∧ m ∈ l ∧ ∀ c, c ∈ l → c ≤ m.
Proof.
  destruct l as [|x l]; [done|]. intros _. eexists. split; [done|].
  apply fold_left_max_spec.
Qed.

(** [max(l, key=...)] returns an element of largest key. *)
Lemma max_by_key_spec {A} (l : list (Z * A)) : l ≠ [] →
  ∃ k x, max_by_key l = Ok x ∧ (k, x) ∈ l ∧ ∀ k' x', (k', x') ∈ l → k' ≤ k.
Proof.
  destruct l as [|x0 l]; [done|]. intros _. simpl.
  cut (∀ x0, let r := fold_left (λ best c : Z * A, if decide (c.1 > best.1) then c else best)
                        l x0 in
             r ∈ x0 :: l ∧ ∀ y, y ∈ x0 :: l → y.1 ≤ r.1).
  { intros Hcut. destruct (Hcut x0) as [Hin Hle].
    eexists _, _. split; [done|]. split.
    - by rewrite <-surjective_pairing.
    - intros k' x' Hk. exact (Hle _ Hk). }
  clear x0. induction l as [|x l IH]; intros x0; simpl.
  { split; [left|]. intros y ->%list_elem_of_singleton. lia. }
  destruct (IH (if decide (x.1 > x0.1) then x else x0)) as [Hin Hle]. split.
  - apply elem_of_cons in Hin as [-> | Hin]; [|by do 2 right].
    case_decide; [right; left | left].
  - intros y Hy. apply elem_of_cons in Hy as [-> | Hy].
    + trans ((if decide (x.1 > x0.1) then x else x0).1); [case_decide; lia | apply Hle; left].
    + apply elem_of_cons in Hy as [-> | Hy]; [|apply Hle; by right].
      trans ((if decide (x.1 > x0.1) then x else x0).1); [case_decide; lia | apply Hle; left].
Qed.

(** ** Range expansion *)

Lemma conc_range_unfold fuel s e st :
  conc_range (S fuel) s e st =
    if decide (s ≤ e) then
      if decide (s = e) then Ok [s]
      else rest ← conc_range fuel (if decide (s * st > e) then e else s * st) e st;
           Ok (s :: rest)
    else Ok [].
Proof. unfold conc_range. simpl. repeat case_decide; done. Qed.

Lemma Sorted_lt_upto_last l : Sorted Z.lt l → increasing_upto_last l.
Proof.
  induction 1 as [|x l Hl IH Hx]; [done|].
  destruct l as [|y r]; [done|]. simpl. split; [|done].
  left. by inversion Hx.
Qed.

(** With a positive start the loop needs at most [conc_end - conc_start + 1]
    iterations. *)
Lemma conc_range_positive st e : 1 < st → ∀ fuel s,
  0 < s ≤ e → (Z.to_nat (e - s) < fuel)%nat →
  ∃ r, conc_range fuel s e st = Ok (s :: r)
       ∧ Sorted Z.lt (s :: r) ∧ last (s :: r) = Some e
       ∧ Forall (λ c, s < c ≤ e) r.
Proof.
  intros Hst. induction fuel as [|fuel IH]; intros s Hs Hfuel; [lia|].
  rewrite conc_range_unfold. rewrite decide_True by lia.
  destruct (decide (s = e)) as [->|Hne].
  { exists []. repeat split; auto. }
  assert (s < s * st) by nia.
  set (s' := if decide (s * st > e) then e else s * st).
  assert (s < s' ≤ e) as Hs' by (unfold s'; case_decide; lia).
  destruct (IH s') as (r & -> & Hsorted & Hlast & Hall); [lia | lia |].
  exists (s' :: r). simpl. repeat split.
  - constructor; [done|]. constructor. lia.
  - done.
  - constructor; [lia|]. eapply Forall_impl; [exact Hall|]. simpl. lia.
Qed.

(** A start of zero or less that lies strictly below the end never reaches
    it: the loop runs through every budget. *)
Lemma conc_range_diverges st e : 1 < st → ∀ fuel s,
  s ≤ 0 → s < e → conc_range fuel s e st = Err OutOfFuel.
Proof.
  intros Hst. induction fuel as [|fuel IH]; intros s Hs He; [done|].
  rewrite conc_range_unfold. rewrite decide_True by lia.
  rewrite decide_False by lia. rewrite decide_False by nia.
  rewrite IH; [done | nia | nia].
Qed.

(** C1 (as stated, it fails): with start 0, end 1 and step 2 the value stays
    0 forever, so the expansion returns nothing. *)
Lemma conc_range_zero_start_never_returns : ¬ range_expands 0 1 2.
Proof.
  intros (fuel & l & Hl & _). rewrite conc_range_diverges in Hl; [done | lia..].
Qed.

(** C1 (amended): for [conc_start <= conc_end] and [step > 1], when the start
    is positive or equals the end, the expansion returns, within
    [conc_end - conc_start + 1] iterations, a sequence that is increasing up
    to a repeated last value (indeed strictly increasing) and whose last
    element is [conc_end]; every loop of this shape visits exactly these
    values; and (1, 100, 2) expands to [1; 2; 4; 8; 16; 32; 64; 100]. *)
Theorem conc_range_increasing_ends_at_end conc_start conc_end step :
  conc_start ≤ conc_end → step > 1 → 0 < conc_start ∨ conc_start = conc_end →
  range_expands conc_start conc_end step
  ∧ (∀ fuel, (Z.to_nat (conc_end - conc_start) < fuel)%nat →
       ∃ l, conc_range fuel conc_start conc_end step = Ok l
            ∧ Sorted Z.lt l ∧ last l = Some conc_end
            ∧ ∀ A (body : Z → result (list A)),
                conc_sweep body fuel conc_start conc_end step = for_each body l)
  ∧ conc_range 8 1 100 2 = Ok [1; 2; 4; 8; 16; 32; 64; 100].
Proof.
  intros Hle Hst Hstart.
  assert (∀ fuel, (Z.to_nat (conc_end - conc_start) < fuel)%nat →
            ∃ l, conc_range fuel conc_start conc_end step = Ok l
                 ∧ Sorted Z.lt l ∧ last l = Some conc_end) as Hreturns.
  { intros fuel Hfuel. destruct Hstart as [Hpos | ->].
    - destruct (conc_range_positive step conc_end ltac:(lia) fuel conc_start)
        as (r & Hr & Hsorted & Hlast & _); [lia..|]. eauto.
    - destruct fuel as [|fuel]; [lia|]. exists [conc_end].
      rewrite conc_range_unfold, !decide_True by lia. repeat split; auto. }
  split; [|split; [|reflexivity]].
  - destruct (Hreturns (S (Z.to_nat (conc_end - conc_start)))) as (l & Hl & Hsorted & Hlast);
      [lia|].
    exists (S (Z.to_nat (conc_end - conc_start))), l. auto using Sorted_lt_upto_last.
  - intros fuel Hfuel. destruct (Hreturns fuel Hfuel) as (l & Hl & Hsorted & Hlast).
    exists l. repeat split; try done. intros A body. by apply conc_sweep_range.
Qed.

Lemma conc_range_increasing_ends_at_end_witness :
  3 ≤ 20 ∧ 3 > 1 ∧ range_expands 3 20 3.
Proof.
  split; [lia|]. split; [lia|].
  apply (conc_range_increasing_ends_at_end 3 20 3); [lia | lia | left; lia].
Defined.

(** ** full-sweep, multinode branch: the concurrency bounds *)

Lemma filter_nil_iff {A} (P : A → Prop) `{∀ x, Decision (P x)} (l : list A) :
  filter P l = [] ↔ Forall (λ x, ¬ P x) l.
Proof.
  induction l as [|x l IH]; [by split; [constructor|]|].
  rewrite filter_cons. destruct (decide (P x)).
  - split; [done|]. by inversion 1.
  - rewrite IH. split; [by constructor | by inversion 1].
Qed.

Lemma filter_all {A} (P : A → Prop) `{∀ x, Decision (P x)} (l : list A) :
  (∀ x, P x) → filter P l = l.
Proof.
  intros HP. induction l as [|x l IH]; [done|]. by rewrite filter_cons_True, IH.
Qed.

(** The two filters of the multinode branch, composed: what remains of an
    explicit list, or [None] when the point is skipped. *)
Lemma multinode_bounds_spec mn mx (values : list Z) :
  let kept := filter (within_bounds mn mx) values in
  let resolved := filter_min_conc mn values ≫= filter_max_conc mx in
  ((∃ m, mn = Some m ∧ (m ≤ 0 ∨ Forall (λ c, c < m) values)) → resolved = None)
  ∧ ((∀ m, mn = Some m → 0 < m ∧ ¬ Forall (λ c, c < m) values) →
     (kept ≠ [] → resolved = Some kept)
     ∧ (kept = [] → ∀ m, mx = Some m →
          (0 < m → resolved = Some [m]) ∧ (m ≤ 0 → resolved = None))
     ∧ (kept = [] → mx = None → values = [] ∧ resolved = Some [])).
Proof.
  intros kept resolved.
  assert (∀ m M, filter (λ c, c ≤ M) (filter (λ c, c >= m) values)
                 = filter (within_bounds (Some m) (Some M)) values) as Hboth.
  { intros m M. rewrite list_filter_filter. apply list_filter_iff.
    intros c. unfold within_bounds. simpl. lia. }
  assert (∀ m, filter (λ c, c >= m) values = filter (within_bounds (Some m) None) values)
    as Hmin.
  { intros m. apply list_filter_iff. intros c. unfold within_bounds. simpl. lia. }
  assert (∀ M, filter (λ c, c ≤ M) values = filter (within_bounds None (Some M)) values)
    as Hmax.
  { intros M. apply list_filter_iff. intros c. unfold within_bounds. simpl. lia. }
  assert (filter (within_bounds None None) values = values) as Hnone.
  { apply filter_all. intros c. unfold within_bounds. simpl. lia. }
  split.
  - intros (m & -> & Hm). subst resolved. simpl.
    destruct (decide (m ≤ 0)); [done|]. destruct Hm as [?|Hm]; [lia|].
    replace (filter (λ c, c >= m) values) with (@nil Z); [done|].
    symmetry. apply filter_nil_iff. eapply Forall_impl; [exact Hm|]. simpl. lia.
  - intros Hmn. subst resolved kept.
    destruct mn as [m|]; simpl.
    + destruct (Hmn m eq_refl) as [Hpos Hsome].
      rewrite decide_False by lia.
      destruct (filter (λ c, c >= m) values) as [|c0 l0] eqn:Hf.
      { exfalso. apply Hsome. apply filter_nil_iff in Hf.
        eapply Forall_impl; [exact Hf|]. simpl. lia. }
      simpl. rewrite <-Hf. clear c0 l0 Hf.
      destruct mx as [M|]; simpl.
      * rewrite Hboth.
        destruct (filter (within_bounds (Some m) (Some M)) values) eqn:Hk.
        -- repeat split; try done; simplify_eq; intros ?;
             first [by rewrite decide_True by lia | by rewrite decide_False by lia].
        -- repeat split; try done.
      * assert (filter (λ c, c >= m) values ≠ []) as Hk.
        { intros Hk. apply Hsome. apply filter_nil_iff in Hk.
          eapply Forall_impl; [exact Hk|]. simpl. lia. }
        rewrite Hmin in *. repeat split; done.
    + destruct mx as [M|]; simpl.
      * rewrite Hmax.
        destruct (filter (within_bounds None (Some M)) values) eqn:Hk.
        -- repeat split; try done; simplify_eq; intros ?;
             first [by rewrite decide_True by lia | by rewrite decide_False by lia].
        -- repeat split; try done.
      * rewrite Hnone. repeat split; try done; congruence.
Qed.

Lemma runners_for_entry_nonempty nodes runner : runners_for_entry nodes runner ≠ [].
Proof. by destruct nodes as [[|??]|]. Qed.

Section accepted_entries.

(** Results that speak of what is emitted assume, where they say so, that
    entry validation accepts the entries built. *)
Variable validate_matrix_entry : MatrixEntry → bool → bool.
Hypothesis validate_accepts : ∀ entry is_multinode,
  validate_matrix_entry entry is_multinode = true.

Lemma for_each_validated {A} (f : A → MatrixEntry) b (l : list A) :
  for_each (λ a, validated validate_matrix_entry (f a) b) l = Ok (f <$> l).
Proof.
  induction l as [|a l IH]; [done|]. cbn [for_each]. rewrite IH.
  unfold validated. by rewrite validate_accepts.
Qed.

(** C2 (amended): in the multinode branch of full-sweep, for a point whose
    concurrency list [values] is expanded (an explicit list, or a range that
    was expanded): a [min_conc] that is not positive, or that lies above every
    value, drops the point; otherwise, when some value lies within
    [[min_conc, max_conc]] the point is emitted with exactly the values within
    the bounds; and when none does, a positive [max_conc] replaces the list by
    the single value [max_conc] and the point is still emitted, while a
    [max_conc] of zero or less drops it (with no [max_conc] at all, only an
    empty list has no value within the bounds, and it is emitted as it is). *)
Theorem full_sweep_multinode_list_bounds fuel args val nodes isl osl bmk values p d :
  multinode_conc_values fuel (fs_step_size args) bmk = Ok values →
  bmk_prefill bmk = Some p →
  bmk_decode bmk = Some d →
  let mn := fs_min_conc args in
  let mx := fs_max_conc args in
  let kept := filter (within_bounds mn mx) values in
  let runners := runners_for_entry nodes (cfg_runner val) in
  ∃ out,
    full_sweep_multinode validate_matrix_entry fuel args val nodes isl osl bmk = Ok out
    ∧ ((∃ m, mn = Some m ∧ (m ≤ 0 ∨ Forall (λ c, c < m) values)) → out = [])
    ∧ ((∀ m, mn = Some m → 0 < m ∧ ¬ Forall (λ c, c < m) values) →
       (kept ≠ [] → emitted_with_list runners kept out)
       ∧ (kept = [] → ∀ m, mx = Some m →
            (0 < m → emitted_with_list runners [m] out) ∧ (m ≤ 0 → out = []))
       ∧ (kept = [] → mx = None → emitted_with_list runners [] out)).
Proof.
  intros Hvalues Hp Hd mn mx kept runners.
  unfold full_sweep_multinode. rewrite Hvalues, Hp, Hd. simpl.
  destruct (multinode_bounds_spec mn mx values) as [Hdrop Hkeep].
  fold mn mx.
  destruct (filter_min_conc mn values ≫= filter_max_conc mx) as [cv|] eqn:Hres.
  - rewrite for_each_validated. eexists. split; [done|].
    assert (∀ cv', cv = cv' → emitted_with_list runners cv'
      ((λ runner_value, {|
          image := cfg_image val; model := cfg_model val;
          model_prefix := cfg_model_prefix val; precision := cfg_precision val;
          framework := cfg_framework val; runner := runner_value; isl := isl; osl := osl;
          spec_decoding := default "none" (bmk_spec_decoding bmk);
          topology := MultiNode p d cv; max_model_len := isl + osl + 200;
          exp_name := cfg_model_prefix val +:+ "_" +:+ seq_len_to_str isl osl;
          disagg := default false (cfg_disagg val); run_eval := false |}) <$> runners))
      as Hemit.
    { intros cv' <-. split; [|split].
      - pose proof (runners_for_entry_nonempty nodes (cfg_runner val)) as Hne.
        fold runners in Hne. by destruct runners.
      - rewrite <-list_fmap_compose. apply list_fmap_id.
      - apply Forall_fmap, Forall_forall. intros r _. simpl. eauto. }
    split; [intros Hm; by specialize (Hdrop Hm)|].
    intros Hmn. destruct (Hkeep Hmn) as (Hk1 & Hk2 & Hk3). split; [|split].
    + intros Hne. apply Hemit. by injection (Hk1 Hne).
    + intros Hnil m Hmx. destruct (Hk2 Hnil m Hmx) as [Hpos Hneg]. split.
      * intros Hm. apply Hemit. by injection (Hpos Hm).
      * intros Hm. by specialize (Hneg Hm).
    + intros Hnil Hmx. apply Hemit. destruct (Hk3 Hnil Hmx) as [_ Hcv]. by injection Hcv.
  - exists []. split; [done|]. split; [done|].
    intros Hmn. destruct (Hkeep Hmn) as (Hk1 & Hk2 & Hk3). split; [|split].
    + intros Hne. by specialize (Hk1 Hne).
    + intros Hnil m Hmx. destruct (Hk2 Hnil m Hmx) as [Hpos Hneg]. split; [|done].
      intros Hm. by specialize (Hpos Hm).
    + intros Hnil Hmx. by destruct (Hk3 Hnil Hmx) as [_ ?].
Qed.

End accepted_entries.

Lemma full_sweep_multinode_list_bounds_witness :
  ∃ out,
    full_sweep_multinode accept_all 0 (with_max_conc full_sweep_defaults (Some 4))
      (sample_config true []) (Some ["h200-a"; "h200-b"]) 1024 1024 (list_point [2; 4; 8]) = Ok out
    ∧ emitted_with_list ["h200-a"; "h200-b"] [2; 4] out.
Proof.
  destruct (full_sweep_multinode_list_bounds accept_all (λ _ _, eq_refl) 0
              (with_max_conc full_sweep_defaults (Some 4)) (sample_config true [])
              (Some ["h200-a"; "h200-b"]) 1024 1024 (list_point [2; 4; 8])
              [2; 4; 8] sample_worker sample_worker eq_refl eq_refl eq_refl)
    as (out & Hout & _ & Hkeep).
  exists out. split; [exact Hout|].
  apply Hkeep; [intros m [=] | done].
Defined.

(** C2 (as stated, it fails): every value of the list [[8; 16]] exceeds the
    positive bound [max_conc = 4], and the point is emitted, carrying [[4]]. *)
Lemma full_sweep_multinode_max_conc_replaces :
  Forall (λ c, c > 4) [8; 16]
  ∧ ∃ e, full_sweep_multinode accept_all 0 (with_max_conc full_sweep_defaults (Some 4))
           (sample_config true []) None 1024 1024 (list_point [8; 16]) = Ok [e]
         ∧ topology e = MultiNode sample_worker sample_worker [4].
Proof. split; [repeat constructor|]. eexists. split; reflexivity. Qed.

(** ** Where an emitted entry comes from *)

Section provenance.

Variable validate_matrix_entry : MatrixEntry → bool → bool.

Lemma validated_Ok entry b out :
  validated validate_matrix_entry entry b = Ok out → out = [entry].
Proof. unfold validated. case_match; congruence. Qed.

Lemma for_each_validated_Ok {A} (f : A → MatrixEntry) b l out :
  for_each (λ a, validated validate_matrix_entry (f a) b) l = Ok out → out = f <$> l.
Proof.
  revert out. induction l as [|a l IH]; simpl; intros out H; [congruence|].
  inv_bind H. inv_bind H. injection H as <-.
  apply validated_Ok in Ha0 as ->. by rewrite (IH _ Ha1).
Qed.

(** Every entry of a full sweep was emitted by one search-space point of one
    catalog entry. *)
Lemma generate_full_sweep_entries fuel args all_config_data runner_data out :
  generate_full_sweep validate_matrix_entry fuel args all_config_data runner_data = Ok out →
  ∀ e, e ∈ out →
    ∃ key val nodes seq bmk o,
      (key, val) ∈ all_config_data ∧ seq ∈ seq_len_configs val ∧ bmk ∈ search_space seq
      ∧ full_sweep_point validate_matrix_entry fuel args val nodes (seq_isl seq) (seq_osl seq) bmk
        = Ok o
      ∧ e ∈ o.
Proof.
  unfold generate_full_sweep. intros H e He.
  case_bool_decide; [done|]. inv_bind H.
  destruct (for_each_Ok_inv _ _ _ H e He) as ([key val] & o1 & Hkv & Hcfg & He1).
  simpl in Hcfg. unfold full_sweep_config in Hcfg.
  repeat (case_match; [by (injection Hcfg as <-; apply elem_of_nil in He1)|]).
  case_match; [|by (injection Hcfg as <-; apply elem_of_nil in He1)].
  destruct (for_each_Ok_inv _ _ _ Hcfg e He1) as (seq & o2 & Hseq & Hprof & He2).
  simpl in Hprof.
  case_match; [by (injection Hprof as <-; apply elem_of_nil in He2)|].
  destruct (for_each_Ok_inv _ _ _ Hprof e He2) as (bmk & o3 & Hbmk & Hpt & He3).
  by eexists key, val, _, seq, bmk, o3.
Qed.

(** Every entry of a runner-model sweep was emitted for one catalog entry,
    over the resolved node list. *)
Lemma generate_runner_model_sweep_entries args all_config_data runner_data out :
  generate_runner_model_sweep_config validate_matrix_entry args all_config_data runner_data
    = Ok out →
  ∀ e, e ∈ out →
    ∃ runner_nodes key val o,
      resolve_runner_nodes args runner_data = Ok runner_nodes
      ∧ (key, val) ∈ all_config_data
      ∧ runner_sweep_config validate_matrix_entry args runner_nodes key val = Ok o
      ∧ e ∈ o.
Proof.
  unfold generate_runner_model_sweep_config. intros H e He. inv_bind H.
  destruct (for_each_Ok_inv _ _ _ H e He) as ([key val] & o & Hkv & Hcfg & Ho).
  by exists a, key, val, o.
Qed.

(** Every entry of a test-config sweep was emitted by one search-space point
    of one requested catalog entry. *)
Lemma generate_test_config_sweep_entries fuel args all_config_data out :
  generate_test_config_sweep validate_matrix_entry fuel args all_config_data = Ok out →
  ∀ e, e ∈ out →
    ∃ key val seq bmk o,
      key ∈ tc_config_keys args ∧ dict_get key all_config_data = Some val
      ∧ seq ∈ seq_len_configs val ∧ bmk ∈ search_space seq
      ∧ test_config_point validate_matrix_entry fuel args val (seq_isl seq) (seq_osl seq) bmk
        = Ok o
      ∧ e ∈ o.
Proof.
  unfold generate_test_config_sweep. intros H e He.
  case_bool_decide; [done|].
  destruct (for_each_Ok_inv _ _ _ H e He) as (key & o1 & Hkey & Hval & He1).
  simpl in Hval. inv_bind Hval. apply require_Ok in Ha.
  destruct (for_each_Ok_inv _ _ _ Hval e He1) as (seq & o2 & Hseq & Hprof & He2).
  destruct (for_each_Ok_inv _ _ _ Hprof e He2) as (bmk & o3 & Hbmk & Hpt & He3).
  by exists key, a, seq, bmk, o3.
Qed.

(** What the multinode branch of full-sweep emits. *)
Lemma full_sweep_multinode_entries fuel args val nodes isl0 osl0 bmk out :
  full_sweep_multinode validate_matrix_entry fuel args val nodes isl0 osl0 bmk = Ok out →
  ∀ e, e ∈ out →
    isl e = isl0 ∧ osl e = osl0 ∧ max_model_len e = isl0 + osl0 + 200
    ∧ ∃ prefill decode values conc_values,
        multinode_conc_values fuel (fs_step_size args) bmk = Ok values
        ∧ filter_min_conc (fs_min_conc args) values ≫= filter_max_conc (fs_max_conc args)
          = Some conc_values
        ∧ topology e = MultiNode prefill decode conc_values.
Proof.
  unfold full_sweep_multinode. intros H e He.
  inv_bind H. inv_bind H. inv_bind H.
  destruct (filter_min_conc _ _ ≫= _) as [cv|] eqn:Hcv;
    [|injection H as <-; by apply elem_of_nil in He].
  apply for_each_validated_Ok in H as ->.
  apply list_elem_of_fmap in He as (r & -> & _). simpl.
  repeat split. by exists a, a0, a1, cv.
Qed.

(** What the single-node branch of full-sweep emits. *)
Lemma full_sweep_single_node_entries fuel args val nodes isl0 osl0 bmk out :
  full_sweep_single_node validate_matrix_entry fuel args val nodes isl0 osl0 bmk = Ok out →
  ∀ e, e ∈ out →
    isl e = isl0 ∧ osl e = osl0 ∧ max_model_len e = isl0 + osl0 + 200
    ∧ ∃ tp0 tp ep conc,
        bmk_tp bmk = Some tp0
        ∧ clamp_tp (fs_max_tp args) tp0 = Some tp
        ∧ clamp_ep (fs_max_ep args) (bmk_ep bmk) = Some ep
        ∧ topology e = SingleNode tp (default 1 ep) (default false (bmk_dp_attn bmk)) conc.
Proof.
  unfold full_sweep_single_node. intros H e He.
  inv_bind H. inv_bind H. inv_bind H. apply require_Ok in Ha.
  destruct (clamp_tp _ a) as [tp|] eqn:Htp; simpl in H;
    [|injection H as <-; by apply elem_of_nil in He].
  destruct (clamp_ep _ _) as [ep|] eqn:Hep; simpl in H;
    [|injection H as <-; by apply elem_of_nil in He].
  destruct (narrow_min_conc _ _ _) as [cs|]; simpl in H;
    [|injection H as <-; by apply elem_of_nil in He].
  destruct (narrow_max_conc _ _ _) as [[cs' ce']|]; simpl in H;
    [|injection H as <-; by apply elem_of_nil in He].
  destruct (conc_sweep_Ok_inv _ _ _ _ _ _ H e He) as (conc & o & Ho & Heo).
  apply for_each_validated_Ok in Ho as ->.
  apply list_elem_of_fmap in Heo as (r & -> & _). simpl.
  repeat split. by exists a, tp, ep, conc.
Qed.

(** What test-config emits for one point. *)
Lemma test_config_point_entries fuel args val isl0 osl0 bmk out :
  test_config_point validate_matrix_entry fuel args val isl0 osl0 bmk = Ok out →
  ∀ e, e ∈ out → isl e = isl0 ∧ osl e = osl0 ∧ max_model_len e = isl0 + osl0 + 200.
Proof.
  unfold test_config_point. intros H e He. case_match.
  - inv_bind H. inv_bind H. inv_bind H.
    destruct a1; [|injection H as <-; by apply elem_of_nil in He].
    apply validated_Ok in H as ->. by apply list_elem_of_singleton in He as ->.
  - inv_bind H. inv_bind H.
    destruct a0; [|injection H as <-; by apply elem_of_nil in He].
    apply for_each_validated_Ok in H as ->.
    by apply list_elem_of_fmap in He as (c & -> & _).
Qed.

(** What runner-model-sweep emits for one catalog entry. *)
Lemma runner_sweep_config_entries args runner_nodes key val out :
  runner_sweep_config validate_matrix_entry args runner_nodes key val = Ok out →
  ∀ e, e ∈ out → isl e = 1024 ∧ osl e = 1024 ∧ max_model_len e = 2048.
Proof.
  unfold runner_sweep_config. intros H e He.
  repeat (case_match; [by (injection H as <-; apply elem_of_nil in He)|]).
  case_match; [|by (injection H as <-; apply elem_of_nil in He)].
  case_match.
  - inv_bind H. inv_bind H. inv_bind H.
    destruct (for_each_Ok_inv _ _ _ H e He) as (node & o & _ & Ho & Heo).
    simpl in Ho. inv_bind Ho. inv_bind Ho.
    apply validated_Ok in Ho as ->. by apply list_elem_of_singleton in Heo as ->.
  - inv_bind H. inv_bind H. inv_bind H. inv_bind H.
    apply for_each_validated_Ok in H as ->.
    by apply list_elem_of_fmap in He as (node & -> & _).
Qed.

(** The fields that a full-sweep entry takes from its configuration, its
    profile and its search-space point. *)
Lemma full_sweep_point_fields fuel args val nodes isl0 osl0 bmk out :
  full_sweep_point validate_matrix_entry fuel args val nodes isl0 osl0 bmk = Ok out →
  ∀ e, e ∈ out →
    image e = cfg_image val ∧ model e = cfg_model val
    ∧ model_prefix e = cfg_model_prefix val ∧ precision e = cfg_precision val
    ∧ framework e = cfg_framework val
    ∧ runner e ∈ runners_for_entry nodes (cfg_runner val)
    ∧ isl e = isl0 ∧ osl e = osl0
    ∧ spec_decoding e = default "none" (bmk_spec_decoding bmk)
    ∧ exp_name e = cfg_model_prefix val +:+ "_" +:+ seq_len_to_str isl0 osl0
    ∧ disagg e = default false (cfg_disagg val)
    ∧ run_eval e = false.
Proof.
  unfold full_sweep_point. intros H e He.
  repeat case_match; try (injection H as <-; by apply elem_of_nil in He).
  - unfold full_sweep_multinode in H. inv_bind H. inv_bind H. inv_bind H.
    destruct (filter_min_conc _ _ ≫= _) as [cv|];
      [|injection H as <-; by apply elem_of_nil in He].
    apply for_each_validated_Ok in H as ->.
    apply list_elem_of_fmap in He as (r & -> & Hr). simpl. by repeat split.
  - unfold full_sweep_single_node in H. inv_bind H. inv_bind H. inv_bind H.
    destruct (clamp_tp _ a) as [tp|]; simpl in H;
      [|injection H as <-; by apply elem_of_nil in He].
    destruct (clamp_ep _ _) as [ep|]; simpl in H;
      [|injection H as <-; by apply elem_of_nil in He].
    destruct (narrow_min_conc _ _ _) as [cs|]; simpl in H;
      [|injection H as <-; by apply elem_of_nil in He].
    destruct (narrow_max_conc _ _ _) as [[cs' ce']|]; simpl in H;
      [|injection H as <-; by apply elem_of_nil in He].
    destruct (conc_sweep_Ok_inv _ _ _ _ _ _ H e He) as (conc & o & Ho & Heo).
    apply for_each_validated_Ok in Ho as ->.
    apply list_elem_of_fmap in Heo as (r & -> & Hr). simpl. by repeat split.
Qed.

(** The values that the multinode branch reads off a point are the values of
    the point. *)
Lemma multinode_conc_values_spec fuel step bmk values :
  multinode_conc_values fuel step bmk = Ok values ↔ listed_or_expanded fuel step bmk values.
Proof.
  unfold multinode_conc_values, listed_or_expanded.
  destruct (bmk_conc_list bmk) as [[|c l]|].
  - split.
    + intros H. inv_bind H. inv_bind H. apply require_Ok in Ha, Ha0.
      right. split; [by right|]. by exists a, a0.
    + intros [[Hne [= <-]] | (_ & s & e & -> & -> & H)]; done.
  - split.
    + intros [= <-]. by left.
    + intros [[_ [= <-]] | ([?|?] & _)]; done.
  - split.
    + intros H. inv_bind H. inv_bind H. apply require_Ok in Ha, Ha0.
      right. split; [by left|]. by exists a, a0.
    + intros [[_ ?] | (_ & s & e & -> & -> & H)]; done.
Qed.

(** What the two bounds leave of the values, when they leave a list. *)
Lemma full_list_spec mn mx values conc :
  filter_min_conc mn values ≫= filter_max_conc mx = Some conc → full_list mn mx values conc.
Proof.
  intros Hres. destruct (multinode_bounds_spec mn mx values) as [Hdrop Hkeep].
  simpl in Hdrop, Hkeep.
  destruct Hkeep as (Hk1 & Hk2 & Hk3).
  { intros m ->. split.
    - destruct (decide (0 < m)); [done|].
      rewrite Hdrop in Hres; [done|]. exists m. split; [done|]. left. lia.
    - intros Hall. rewrite Hdrop in Hres; [done|]. exists m. split; [done|]. by right. }
  unfold full_list. simpl. split; [|split].
  - intros Hne. specialize (Hk1 Hne). congruence.
  - intros Hnil m ->. destruct (Hk2 Hnil m eq_refl) as [Hpos Hneg].
    destruct (decide (0 < m)) as [Hm'|Hm'].
    + specialize (Hpos Hm'). congruence.
    + rewrite Hneg in Hres by lia. done.
  - intros Hnil ->. destruct (Hk3 Hnil eq_refl) as [-> Hcv]. congruence.
Qed.

(** What a point of a full sweep emits has the shape of its configuration. *)
Lemma full_sweep_point_shape fuel args val nodes isl0 osl0 bmk out :
  full_sweep_point validate_matrix_entry fuel args val nodes isl0 osl0 bmk = Ok out →
  ∀ e, e ∈ out →
    if default false (cfg_multinode val) then carries_full_list fuel args bmk e
    else carries_one_value bmk e.
Proof.
  unfold full_sweep_point. intros H e He.
  destruct (default false (cfg_multinode val)).
  - destruct (fs_multi_node args); [|injection H as <-; by apply elem_of_nil in He].
    unfold full_sweep_multinode in H. inv_bind H. inv_bind H. inv_bind H.
    apply require_Ok in Ha, Ha0. apply multinode_conc_values_spec in Ha1.
    destruct (filter_min_conc _ a1 ≫= _) as [cv|] eqn:Hcv;
      [|injection H as <-; by apply elem_of_nil in He].
    apply full_list_spec in Hcv. apply for_each_validated_Ok in H as ->.
    apply list_elem_of_fmap in He as (r & -> & _). by exists a, a0, a1, cv.
  - destruct (fs_single_node args); [|injection H as <-; by apply elem_of_nil in He].
    destruct (full_sweep_single_node_entries _ _ _ _ _ _ _ _ H e He)
      as (_ & _ & _ & tp0 & tp & ep & conc & Htp0 & Htp & _ & Htop).
    exists tp0, tp, (default 1 ep), (default false (bmk_dp_attn bmk)), conc.
    split; [done|]. split; [|done].
    unfold clamp_tp in Htp. repeat case_match; repeat case_decide; simplify_eq; lia.
Qed.

(** C3 (amended): every entry emitted by full-sweep and by test-config
    carries [max_model_len = isl + osl + 200]; every entry emitted by
    runner-model-sweep has [isl = osl = 1024] and carries
    [max_model_len = 2048]. *)
Theorem max_model_len_by_mode fuel fs_args rs_args tc_args all_config_data runner_data :
  (∀ out,
     generate_full_sweep validate_matrix_entry fuel fs_args all_config_data runner_data
       = Ok out →
     Forall (λ e, max_model_len e = isl e + osl e + 200) out)
  ∧ (∀ out,
       generate_test_config_sweep validate_matrix_entry fuel tc_args all_config_data = Ok out →
       Forall (λ e, max_model_len e = isl e + osl e + 200) out)
  ∧ (∀ out,
       generate_runner_model_sweep_config validate_matrix_entry rs_args all_config_data
         runner_data = Ok out →
       Forall (λ e, isl e = 1024 ∧ osl e = 1024 ∧ max_model_len e = 2048) out).
Proof.
  split; [|split]; intros out H; apply Forall_forall; intros e He.
  - destruct (generate_full_sweep_entries _ _ _ _ _ H e He)
      as (key & val & nodes & seq & bmk & o & _ & _ & _ & Hpt & Heo).
    unfold full_sweep_point in Hpt.
    repeat case_match; try (injection Hpt as <-; by apply elem_of_nil in Heo).
    + destruct (full_sweep_multinode_entries _ _ _ _ _ _ _ _ Hpt e Heo) as (-> & -> & -> & _).
      done.
    + destruct (full_sweep_single_node_entries _ _ _ _ _ _ _ _ Hpt e Heo) as (-> & -> & -> & _).
      done.
  - destruct (generate_test_config_sweep_entries _ _ _ _ H e He)
      as (key & val & seq & bmk & o & _ & _ & _ & _ & Hpt & Heo).
    destruct (test_config_point_entries _ _ _ _ _ _ _ Hpt e Heo) as (-> & -> & ->). done.
  - destruct (generate_runner_model_sweep_entries _ _ _ _ H e He)
      as (nodes & key & val & o & _ & _ & Hcfg & Heo).
    exact (runner_sweep_config_entries _ _ _ _ _ Hcfg e Heo).
Qed.

(** C9: in full-sweep, every entry emitted by the multinode branch for a
    point carries the workers of the point and, as its concurrency, the whole
    list of the point (the explicit list, or else the expanded range; under
    bounds, every value within them, or the single value [max_conc] when none
    is), never a single value; every entry emitted by the single-node branch
    carries one concurrency value, never a list.  So in a whole sweep every
    entry has the image, model, prefix, precision, framework, sequence
    lengths and spec-decoding of a search-space point of a catalog entry, and
    the shape of that catalog entry: the whole list of that point for a
    multinode configuration, one value for a single-node one. *)
Theorem full_sweep_conc_list_or_scalar fuel args all_config_data runner_data val nodes
    isl0 osl0 bmk :
  (∀ out,
     full_sweep_multinode validate_matrix_entry fuel args val nodes isl0 osl0 bmk = Ok out →
     Forall (λ e, carries_full_list fuel args bmk e ∧ ¬ conc_is_scalar e) out)
  ∧ (∀ out,
       full_sweep_single_node validate_matrix_entry fuel args val nodes isl0 osl0 bmk = Ok out →
       Forall (λ e, carries_one_value bmk e ∧ ¬ conc_is_list e) out)
  ∧ (∀ out,
       generate_full_sweep validate_matrix_entry fuel args all_config_data runner_data = Ok out →
       Forall (λ e, ∃ key val seq bmk,
                 (key, val) ∈ all_config_data
                 ∧ seq ∈ seq_len_configs val ∧ bmk ∈ search_space seq
                 ∧ image e = cfg_image val ∧ model e = cfg_model val
                 ∧ model_prefix e = cfg_model_prefix val
                 ∧ precision e = cfg_precision val ∧ framework e = cfg_framework val
                 ∧ isl e = seq_isl seq ∧ osl e = seq_osl seq
                 ∧ spec_decoding e = default "none" (bmk_spec_decoding bmk)
                 ∧ if default false (cfg_multinode val)
                   then carries_full_list fuel args bmk e ∧ ¬ conc_is_scalar e
                   else carries_one_value bmk e ∧ ¬ conc_is_list e) out).
Proof.
  assert (∀ bmk' e, carries_full_list fuel args bmk' e → ¬ conc_is_scalar e) as Hlist.
  { intros bmk' e (p & d & vs & cv & _ & _ & _ & _ & Htop) (tp & ep & dp & c & Htop').
    congruence. }
  assert (∀ bmk' e, carries_one_value bmk' e → ¬ conc_is_list e) as Hscalar.
  { intros bmk' e (tp0 & tp & ep & dp & c & _ & _ & _ & Htop) (p & d & cv & Htop').
    congruence. }
  split; [|split]; intros out H; apply Forall_forall; intros e He.
  - assert (carries_full_list fuel args bmk e) as Hc; [|by eauto].
    unfold full_sweep_multinode in H. inv_bind H. inv_bind H. inv_bind H.
    apply require_Ok in Ha, Ha0. apply multinode_conc_values_spec in Ha1.
    destruct (filter_min_conc _ a1 ≫= _) as [cv|] eqn:Hcv;
      [|injection H as <-; by apply elem_of_nil in He].
    apply full_list_spec in Hcv. apply for_each_validated_Ok in H as ->.
    apply list_elem_of_fmap in He as (r & -> & _). by exists a, a0, a1, cv.
  - assert (carries_one_value bmk e) as Hc; [|by eauto].
    destruct (full_sweep_single_node_entries _ _ _ _ _ _ _ _ H e He)
      as (_ & _ & _ & tp0 & tp & ep & conc & Htp0 & Htp & _ & Htop).
    exists tp0, tp, (default 1 ep), (default false (bmk_dp_attn bmk)), conc.
    split; [done|]. split; [|done].
    unfold clamp_tp in Htp. repeat case_match; repeat case_decide; simplify_eq; lia.
  - destruct (generate_full_sweep_entries _ _ _ _ _ H e He)
      as (key & val' & nodes' & seq & bmk' & o & Hkv & Hseq & Hbmk & Hpt & Heo).
    destruct (full_sweep_point_fields _ _ _ _ _ _ _ _ Hpt e Heo)
      as (Himg & Hmodel & Hmp & Hp & Hf & _ & Hisl & Hosl & Hspec & _).
    pose proof (full_sweep_point_shape _ _ _ _ _ _ _ _ Hpt e Heo) as Hshape.
    exists key, val', seq, bmk'. do 11 (split; [done|]).
    destruct (default false (cfg_multinode val')); eauto.
Qed.

(** C6: in single-node full-sweep, for a point with TP [tp] and range
    [(conc_start, conc_end)]: a [max_tp] of zero or less drops the point; a
    positive [max_tp] below [tp] makes the point emit exactly what the same
    point with [tp = max_tp] emits with no [max_tp] at all, every entry
    carrying [tp = max_tp]; likewise for [ep] against a positive [max_ep];
    and [max_tp = 4] on a point with [tp = 8] and range (1, 4) emits three
    entries, all with [tp = 4]. *)
Theorem full_sweep_single_node_clamps fuel args val nodes isl0 osl0 bmk tp conc_start conc_end :
  bmk_tp bmk = Some tp →
  bmk_conc_start bmk = Some conc_start →
  bmk_conc_end bmk = Some conc_end →
  let emit args bmk :=
    full_sweep_single_node validate_matrix_entry fuel args val nodes isl0 osl0 bmk in
  (∀ m, fs_max_tp args = Some m → m ≤ 0 → emit args bmk = Ok [])
  ∧ (∀ m, fs_max_tp args = Some m → 0 < m → tp > m →
       emit args bmk = emit (with_max_tp args None) (with_tp bmk m)
       ∧ ∀ out, emit args bmk = Ok out → Forall (λ e, entry_tp e = Some m) out)
  ∧ (∀ m ep, fs_max_ep args = Some m → bmk_ep bmk = Some ep → 0 < m → ep > m →
       emit args bmk = emit (with_max_ep args None) (with_ep bmk m)
       ∧ ∀ out, emit args bmk = Ok out → Forall (λ e, entry_ep e = Some m) out)
  ∧ (∃ out, full_sweep_single_node accept_all 8 (with_max_tp full_sweep_defaults (Some 4))
              (sample_config false []) None 1024 8192 (range_point 8 1 4) = Ok out
            ∧ length out = 3%nat ∧ Forall (λ e, entry_tp e = Some 4) out).
Proof.
  intros Htp Hcs Hce emit. split; [|split; [|split]].
  - intros m Hm Hle. unfold emit, full_sweep_single_node.
    rewrite Htp, Hcs, Hce. simpl. unfold clamp_tp. rewrite Hm.
    by rewrite decide_True.
  - intros m Hm Hpos Hgt.
    assert (clamp_tp (fs_max_tp args) tp = Some m) as Hclamp.
    { unfold clamp_tp. rewrite Hm. rewrite decide_False by lia. by rewrite decide_True. }
    split.
    + unfold emit, full_sweep_single_node. simpl.
      by rewrite Htp, Hcs, Hce; simpl; rewrite Hclamp.
    + intros out Hout. apply Forall_forall. intros e He.
      destruct (full_sweep_single_node_entries _ _ _ _ _ _ _ _ Hout e He)
        as (_ & _ & _ & tp0 & tp' & ep & conc & Htp0 & Htp' & _ & Htop).
      unfold entry_tp. rewrite Htop. congruence.
  - intros m ep Hm Hep Hpos Hgt.
    assert (clamp_ep (fs_max_ep args) (bmk_ep bmk) = Some (Some m)) as Hclamp.
    { unfold clamp_ep. rewrite Hm, Hep. rewrite decide_False by lia. by rewrite decide_True. }
    split.
    + unfold emit, full_sweep_single_node. simpl.
      by rewrite Htp, Hcs, Hce; simpl; rewrite Hclamp.
    + intros out Hout. apply Forall_forall. intros e He.
      destruct (full_sweep_single_node_entries _ _ _ _ _ _ _ _ Hout e He)
        as (_ & _ & _ & tp0 & tp' & ep' & conc & _ & _ & Hep' & Htop).
      unfold entry_ep. rewrite Htop. rewrite Hclamp in Hep'. by injection Hep' as <-.
  - eexists. split; [vm_compute; reflexivity|]. split; [done|]. by repeat constructor.
Qed.

End provenance.

Lemma full_sweep_conc_list_or_scalar_witness :
  ∃ out, generate_full_sweep accept_all 8 full_sweep_defaults mixed_catalog sample_runners
           = Ok out
         ∧ conc_values_of <$> out
           = [[1]; [2]; [4]; [8]; [1]; [2]; [16; 8; 32]; [4; 64]; [2; 4; 8; 16]]
         ∧ Forall (λ e, ∃ key val seq bmk,
                     (key, val) ∈ mixed_catalog
                     ∧ seq ∈ seq_len_configs val ∧ bmk ∈ search_space seq
                     ∧ image e = cfg_image val ∧ model e = cfg_model val
                     ∧ model_prefix e = cfg_model_prefix val
                     ∧ precision e = cfg_precision val ∧ framework e = cfg_framework val
                     ∧ isl e = seq_isl seq ∧ osl e = seq_osl seq
                     ∧ spec_decoding e = default "none" (bmk_spec_decoding bmk)
                     ∧ if default false (cfg_multinode val)
                       then carries_full_list 8 full_sweep_defaults bmk e ∧ ¬ conc_is_scalar e
                       else carries_one_value bmk e ∧ ¬ conc_is_list e) out.
Proof.
  eexists. split; [vm_compute; reflexivity|]. split; [reflexivity|].
  apply (full_sweep_conc_list_or_scalar accept_all 8 full_sweep_defaults mixed_catalog
           sample_runners (sample_config false []) None 0 0 no_point).
  vm_compute. reflexivity.
Defined.

Lemma full_sweep_single_node_clamps_witness :
  let args := with_max_tp full_sweep_defaults (Some 4) in
  let emit args bmk :=
    full_sweep_single_node accept_all 8 args (sample_config false []) None 1024 8192 bmk in
  emit args (range_point 8 1 4)
  = emit (with_max_tp args None) (with_tp (range_point 8 1 4) 4)
  ∧ emit (with_max_tp full_sweep_defaults (Some 0)) (range_point 8 1 4) = Ok [].
Proof.
  destruct (full_sweep_single_node_clamps accept_all 8
              (with_max_tp full_sweep_defaults (Some 4)) (sample_config false []) None
              1024 8192 (range_point 8 1 4) 8 1 4 eq_refl eq_refl eq_refl)
    as (_ & Hclamp & _).
  destruct (full_sweep_single_node_clamps accept_all 8
              (with_max_tp full_sweep_defaults (Some 0)) (sample_config false []) None
              1024 8192 (range_point 8 1 4) 8 1 4 eq_refl eq_refl eq_refl)
    as (Hdrop & _).
  split.
  - apply (Hclamp 4 eq_refl); lia.
  - apply (Hdrop 0 eq_refl). lia.
Defined.

Lemma max_model_len_by_mode_witness :
  (∃ out, generate_full_sweep accept_all 8 full_sweep_defaults sample_catalog sample_runners
            = Ok out
          ∧ length out = 15%nat ∧ Forall (λ e, max_model_len e = isl e + osl e + 200) out)
  ∧ (∃ out, generate_test_config_sweep accept_all 8 (test_config_keys ["dsr1-fp8-h200-vllm"])
              sample_catalog = Ok out
            ∧ length out = 15%nat ∧ Forall (λ e, max_model_len e = isl e + osl e + 200) out)
  ∧ (∃ out, generate_runner_model_sweep_config accept_all runner_sweep_single_node
              sample_catalog sample_runners = Ok out
            ∧ length out = 3%nat
            ∧ Forall (λ e, isl e = 1024 ∧ osl e = 1024 ∧ max_model_len e = 2048) out).
Proof.
  pose proof (max_model_len_by_mode accept_all 8 full_sweep_defaults runner_sweep_single_node
                (test_config_keys ["dsr1-fp8-h200-vllm"]) sample_catalog sample_runners)
    as (Hfull & Htest & Hrunner).
  split; [|split]; (eexists; split; [vm_compute; reflexivity|split; [reflexivity|]]).
  - apply Hfull. vm_compute. reflexivity.
  - apply Htest. vm_compute. reflexivity.
  - apply Hrunner. vm_compute. reflexivity.
Defined.

(** C3 (as stated, it fails): runner-model-sweep emits entries with
    [isl = osl = 1024] whose [max_model_len] is 2048, not 2248. *)
Lemma runner_model_sweep_max_model_len_2048 :
  ∃ out e, generate_runner_model_sweep_config accept_all runner_sweep_single_node
             sample_catalog sample_runners = Ok out
           ∧ e ∈ out ∧ max_model_len e ≠ isl e + osl e + 200.
Proof.
  eexists _, _. split; [vm_compute; reflexivity|]. split; [left|]. simpl. lia.
Qed.

(** ** runner-model-sweep, single-node branch *)

Lemma single_node_conc_spec override bmk :
  bmk_conc_list bmk ≠ Some [] →
  ∃ conc, single_node_conc override bmk = Ok conc ∧ resolved_conc override bmk conc.
Proof.
  intros Hlist. unfold single_node_conc, resolved_conc.
  destruct override as [c|].
  { exists c. split; [done|]. split; [by intros ? [= ->]|]. split; done. }
  assert (∃ conc, python_min (default [1] (bmk_conc_list bmk)) = Ok conc
                  ∧ (∀ l, bmk_conc_list bmk = Some l → conc ∈ l ∧ ∀ c, c ∈ l → conc ≤ c)
                  ∧ (bmk_conc_list bmk = None → conc = 1)) as (conc & Hmin & Hl & Hnone).
  { destruct (bmk_conc_list bmk) as [l|]; simpl.
    - destruct (python_min_spec l) as (m & Hm & Hin & Hle); [congruence|].
      exists m. split; [done|]. split; [by intros ? [= <-] | done].
    - exists 1. split; [done|]. split; done. }
  destruct (bmk_conc_start bmk) as [c|] eqn:Hstart.
  - destruct (decide (c = 0)) as [->|Hc].
    + exists conc. split; [done|]. split; [done|]. split; [by intros _ ? [= <-]|done].
    + exists c. split; [done|]. split; [done|]. split; [by intros _ ? [= <-]|].
      intros _ [?|[= ?]]; done.
  - exists conc. split; [done|]. split; [done|]. split; done.
Qed.

(** The keys that [max(search_space, key=lambda x: x[tp])] computes. *)
Lemma traverse_keyed_by_tp (points : list BenchmarkPoint) :
  (∀ b, b ∈ points → is_Some (bmk_tp b)) →
  ∃ keyed, traverse (λ x, tp ← require "tp" (bmk_tp x); Ok (tp, x)) points = Ok keyed
           ∧ Forall2 (λ b kb, bmk_tp b = Some kb.1 ∧ kb.2 = b) points keyed.
Proof.
  induction points as [|b l IH]; intros Hpoints.
  - exists []. split; [done | constructor].
  - destruct IH as (keyed & Hk & Hrel); [intros; apply Hpoints; by right|].
    destruct (Hpoints b) as [tp Htp]; [left|].
    exists ((tp, b) :: keyed). split; [|by constructor].
    cbn [traverse]. rewrite Htp, Hk. done.
Qed.

(** [max(l, key=...)] returns the first element of largest key. *)
Lemma max_by_key_first {A} (l : list (Z * A)) : l ≠ [] →
  ∃ i k x, max_by_key l = Ok x ∧ l !! i = Some (k, x)
           ∧ ∀ j k' x', l !! j = Some (k', x') → k' ≤ k ∧ ((j < i)%nat → k' < k).
Proof.
  destruct l as [|x0 l]; [done|]. intros _. simpl.
  cut (∃ i, (x0 :: l) !! i
            = Some (fold_left (λ best c : Z * A, if decide (c.1 > best.1) then c else best)
                      l x0)
            ∧ ∀ j y, (x0 :: l) !! j = Some y →
                y.1 ≤ (fold_left (λ best c : Z * A, if decide (c.1 > best.1) then c else best)
                         l x0).1
                ∧ ((j < i)%nat →
                   y.1 < (fold_left (λ best c : Z * A,
                                       if decide (c.1 > best.1) then c else best) l x0).1)).
  { intros (i & Hi & Hall). eexists i, _, _. split; [done|]. split.
    - by rewrite <-surjective_pairing.
    - intros j k' x' Hj. exact (Hall j (k', x') Hj). }
  induction l as [|y l IH] using rev_ind.
  { exists 0%nat. split; [done|]. intros [|j] z Hz; simplify_eq/=. split; [lia|lia]. }
  destruct IH as (i & Hi & Hall). rewrite fold_left_app. simpl.
  set (r := fold_left (λ best c : Z * A, if decide (c.1 > best.1) then c else best) l x0) in *.
  assert (∀ j z, (x0 :: l ++ [y]) !! j = Some z →
            (x0 :: l) !! j = Some z ∨ (j = length (x0 :: l) ∧ z = y)) as Hsplit.
  { intros j z Hz. rewrite app_comm_cons in Hz.
    apply lookup_app_Some in Hz as [Hz | [Hge Hz]]; [by left|]. right.
    destruct (j - length (x0 :: l))%nat as [|n] eqn:Hn; simplify_eq/=. split; [lia|done]. }
  case_decide as Hgt.
  - exists (length (x0 :: l)). split.
    { rewrite app_comm_cons, lookup_app_r by done. by rewrite Nat.sub_diag. }
    intros j z Hz. destruct (Hsplit j z Hz) as [Hj | [-> ->]].
    + destruct (Hall j z Hj) as [Hle _]. split; [lia|]. intros _. lia.
    + split; [lia|]. intros ?. lia.
  - exists i. split.
    { rewrite app_comm_cons. by apply lookup_app_l_Some. }
    intros j z Hz. destruct (Hsplit j z Hz) as [Hj | [-> ->]].
    + by apply Hall.
    + split; [lia|]. intros Hlt. apply lookup_lt_Some in Hi. lia.
Qed.

Lemma find_1k1k_first configs target :
  first_1k1k configs target → find_1k1k configs = Some target.
Proof.
  intros (i & Hi & Hisl & Hosl & Hfirst). unfold find_1k1k.
  assert (list_find (λ config, seq_isl config = 1024 ∧ seq_osl config = 1024) configs
          = Some (i, target)) as ->; [|done].
  apply list_find_Some. split; [done|]. split; [done|].
  intros j y Hj Hlt. by eapply Hfirst.
Qed.

Section accepted_runner_sweep.

Variable validate_matrix_entry : MatrixEntry → bool → bool.
Hypothesis validate_accepts : ∀ entry is_multinode,
  validate_matrix_entry entry is_multinode = true.

(** X21: in runner-model-sweep, for a matching single-node configuration
    whose first profile with [isl = osl = 1024] has a search space that is
    not empty, every point having a TP, no empty explicit list and no range
    start of zero: the first point of highest TP is selected; the concurrency
    is the override when given, else that point's range start, else the least
    value of its explicit list, else 1; and exactly one entry per resolved
    runner node is emitted, in node order, all with that TP, that
    concurrency, and the EP, data-parallel attention flag and spec-decoding
    of that point.  On the sample catalog, whose points have TP 1, 4 and 2,
    three nodes give three entries at TP 4. *)
Theorem runner_sweep_single_node_highest_tp args runner_nodes key val target :
  cfg_runner val = rs_runner_type args →
  prefix_mismatch (rs_model_prefix args) key = false →
  not_among (rs_precision args) (cfg_precision val) = false →
  not_among (rs_framework args) (cfg_framework val) = false →
  default false (cfg_multinode val) = false →
  rs_multi_node args = false →
  first_1k1k (seq_len_configs val) target →
  search_space target ≠ [] →
  (∀ b, b ∈ search_space target →
     is_Some (bmk_tp b) ∧ bmk_conc_list b ≠ Some [] ∧ bmk_conc_start b ≠ Some 0) →
  (∃ i bmk tp conc out,
     first_highest_tp (search_space target) i bmk tp
     ∧ override_or_range_start (rs_conc args) bmk conc
     ∧ runner_sweep_config validate_matrix_entry args runner_nodes key val = Ok out
     ∧ length out = length runner_nodes
     ∧ runner <$> out = runner_nodes
     ∧ Forall (λ e, topology e
                    = SingleNode tp (default 1 (bmk_ep bmk))
                        (default false (bmk_dp_attn bmk)) conc
                    ∧ spec_decoding e = default "none" (bmk_spec_decoding bmk)
                    ∧ isl e = 1024 ∧ osl e = 1024) out)
  ∧ (∃ out, generate_runner_model_sweep_config accept_all runner_sweep_single_node
              sample_catalog sample_runners = Ok out
            ∧ length out = 3%nat
            ∧ Forall (λ e, ∃ ep dp_attn, topology e = SingleNode 4 ep dp_attn 4) out).
Proof.
  intros Hrunner Hprefix Hprec Hfw Hsingle Hmulti Htarget%find_1k1k_first Hne Hpoints.
  split; [|eexists; split; [vm_compute; reflexivity|];
           split; [done|]; repeat constructor; by eexists _, _].
  unfold runner_sweep_config.
  rewrite bool_decide_eq_false_2 by (by intros ?).
  rewrite Hprefix, Hprec, Hfw, Hsingle, Hmulti, Htarget, andb_false_r. simpl.
  destruct (traverse_keyed_by_tp (search_space target)) as (keyed & Hkeyed & Hrel).
  { intros b Hb. by apply Hpoints. }
  rewrite Hkeyed. simpl.
  destruct (max_by_key_first keyed) as (i & tp & bmk & Hmax & Hi & Hfirst).
  { intros ->. apply Forall2_nil_inv_r in Hrel. done. }
  rewrite Hmax. simpl.
  destruct (Forall2_lookup_r _ _ _ _ _ Hrel Hi) as (b' & Hb' & Htp & Heq).
  simpl in Htp, Heq. subst b'.
  assert (bmk ∈ search_space target) as Hbmk by (by eapply list_elem_of_lookup_2).
  rewrite Htp. simpl.
  destruct (Hpoints bmk Hbmk) as (_ & Hlist & Hstart).
  destruct (single_node_conc_spec (rs_conc args) bmk Hlist) as (conc & Hconc & Hres).
  rewrite Hconc. simpl. rewrite (for_each_validated _ validate_accepts).
  exists i, bmk, tp, conc. eexists.
  split; [|split; [|split; [done|]; split; [|split]]].
  - split; [done|]. split; [done|]. intros j b tp' Hj Hb.
    destruct (Forall2_lookup_l _ _ _ _ _ Hrel Hj) as ([k b2] & Hkb & Hk & Heq).
    simpl in Hk, Heq. subst b2. assert (k = tp') as -> by congruence.
    exact (Hfirst j tp' b Hkb).
  - destruct Hres as (Hov & Hst & Hrest). unfold override_or_range_start.
    destruct (rs_conc args) as [c|]; [by apply Hov|].
    destruct (bmk_conc_start bmk) as [c|] eqn:Hs.
    + apply Hst; [done..|]. intros ->. done.
    + destruct (Hrest eq_refl (or_introl eq_refl)) as [Hl Hnone].
      destruct (bmk_conc_list bmk) as [l|]; [by apply Hl | by apply Hnone].
  - by rewrite length_fmap.
  - rewrite <-list_fmap_compose. apply list_fmap_id.
  - apply Forall_fmap, Forall_forall. intros node _. simpl. done.
Qed.

End accepted_runner_sweep.

Lemma runner_sweep_single_node_highest_tp_witness :
  let target := profile 1024 1024 [range_point 1 4 16; range_point 4 4 64; range_point 2 8 8;
                                   range_point 4 8 8] in
  let val := sample_config false [profile 1024 8192 [range_point 8 1 8]; target] in
  ∃ i bmk tp conc out,
    first_highest_tp (search_space target) i bmk tp
    ∧ override_or_range_start None bmk conc
    ∧ runner_sweep_config accept_all runner_sweep_single_node ["h200-dgx_0"; "h200-dgx_1"]
        "dsr1-fp8-h200-vllm" val = Ok out
    ∧ length out = 2%nat
    ∧ runner <$> out = ["h200-dgx_0"; "h200-dgx_1"]
    ∧ Forall (λ e, topology e
                   = SingleNode tp (default 1 (bmk_ep bmk))
                       (default false (bmk_dp_attn bmk)) conc
                   ∧ spec_decoding e = default "none" (bmk_spec_decoding bmk)
                   ∧ isl e = 1024 ∧ osl e = 1024) out.
Proof.
  intros target val.
  apply (runner_sweep_single_node_highest_tp accept_all (λ _ _, eq_refl)
           runner_sweep_single_node ["h200-dgx_0"; "h200-dgx_1"] "dsr1-fp8-h200-vllm"
           val target); try reflexivity.
  - exists 1%nat. split; [reflexivity|]. split; [reflexivity|]. split; [reflexivity|].
    intros [|[|j]] config Hlt Hj; [|lia..]. injection Hj as <-. simpl. intros [_ ?]. done.
  - discriminate.
  - intros b Hb. simpl in Hb.
    repeat (apply elem_of_cons in Hb as [-> | Hb]);
      try (split; [eexists; reflexivity | split; discriminate]).
    by apply elem_of_nil in Hb.
Defined.

(** C7 (a defect of the code): the single-node branch of runner-model-sweep
    resolves the concurrency with [bmk.get(conc-start) or min(...)], which
    passes over a range start of zero.  For a single-node configuration whose
    1k1k point has TP 4, the range (0, 8) and no explicit list, and with no
    override, the three entries carry concurrency 1 and not the range start
    0, whereas the same point with range start 4 gives concurrency 4.  The
    multinode branch tests the presence of the key: for a multinode point
    with the range (0, 8) and no explicit list its entries carry [[0]]. *)
Theorem runner_sweep_zero_range_start_ignored :
  let sweep args multinode point :=
    generate_runner_model_sweep_config accept_all args
      [("dsr1-fp8-h200-vllm", sample_config multinode [profile 1024 1024 [point]])]
      sample_runners in
  bmk_conc_start (range_point 4 0 8) = Some 0
  ∧ bmk_conc_list (range_point 4 0 8) = None
  ∧ (∃ out, sweep runner_sweep_single_node false (range_point 4 0 8) = Ok out
            ∧ length out = 3%nat ∧ Forall (λ e, tp_conc e = Some (4, 1)) out)
  ∧ (∃ out, sweep runner_sweep_single_node false (range_point 4 4 8) = Ok out
            ∧ length out = 3%nat ∧ Forall (λ e, tp_conc e = Some (4, 4)) out)
  ∧ bmk_conc_start (multinode_range_point 0 8) = Some 0
  ∧ (∃ out, sweep runner_sweep_multi_node true (multinode_range_point 0 8) = Ok out
            ∧ length out = 2%nat ∧ Forall (λ e, conc_values_of e = [0]) out).
Proof.
  intros sweep. split; [reflexivity|]. split; [reflexivity|].
  split; [|split; [|split; [reflexivity|]]];
    (eexists; split; [vm_compute; reflexivity|]; split; [reflexivity|];
     repeat constructor).
Qed.

(** ** test-config: the check of the requested keys *)

Lemma dict_get_None `{EqDecision K} {V} (k : K) (d : list (K * V)) :
  dict_get k d = None ↔ k ∉ dict_keys d.
Proof.
  induction d as [|[k' v] d IH]; simpl.
  { split; [intros _; apply not_elem_of_nil | done]. }
  rewrite not_elem_of_cons. case_decide; [split; [done | by intros [? _]]|].
  rewrite IH. unfold dict_keys. simpl. tauto.
Qed.

Lemma string_app_assoc (a b c : string) : (a +:+ b) +:+ c = a +:+ b +:+ c.
Proof.
  induction a as [|ch a IH]; [done|].
  change (String ch ((a +:+ b) +:+ c) = String ch (a +:+ b +:+ c)). by rewrite IH.
Qed.

Lemma string_app_nil_r (a : string) : a +:+ "" = a.
Proof.
  induction a as [|ch a IH]; [done|].
  change (String ch (a +:+ "") = String ch a). by rewrite IH.
Qed.

Lemma occurs_in_app_r sub a s : occurs_in sub s → occurs_in sub (a +:+ s).
Proof.
  intros (before & after & ->). exists (a +:+ before), after. by rewrite string_app_assoc.
Qed.

Lemma occurs_in_app_l sub s b : occurs_in sub s → occurs_in sub (s +:+ b).
Proof.
  intros (before & after & ->). exists before, (after +:+ b).
  by rewrite !string_app_assoc.
Qed.

Lemma occurs_in_concat sep key (l : list string) :
  key ∈ l → occurs_in key (String.concat sep l).
Proof.
  induction l as [|x l IH]; [by intros ?%elem_of_nil|].
  intros [-> | Hin]%elem_of_cons.
  - destruct l as [|y l]; simpl.
    + exists "", "". change (x = x +:+ ""). by rewrite string_app_nil_r.
    + by exists "", (sep +:+ String.concat sep (y :: l)).
  - destruct l as [|y l]; [by apply elem_of_nil in Hin|].
    change (String.concat sep (x :: y :: l)) with (x +:+ sep +:+ String.concat sep (y :: l)).
    by apply occurs_in_app_r, occurs_in_app_r, IH.
Qed.

Lemma bind_Err {A B} (r : result A) (k : A → result B) e :
  r ≫= k = Err e → r = Err e ∨ ∃ a, r = Ok a ∧ k a = Err e.
Proof. destruct r; simpl; [eauto | intros [= ->]; by left]. Qed.

Lemma for_each_Err {A B} (body : A → result (list B)) l e :
  for_each body l = Err e → ∃ a, a ∈ l ∧ body a = Err e.
Proof.
  induction l as [|a l IH]; simpl; [done|]. intros H.
  apply bind_Err in H as [H | (out & _ & H)]; [exists a; split; [left | done]|].
  apply bind_Err in H as [H | (rest & _ & H)]; [|done].
  destruct (IH H) as (a' & ? & ?). exists a'. split; [by right | done].
Qed.

Lemma conc_sweep_Err {A} (body : Z → result (list A)) fuel s e st err :
  conc_sweep body fuel s e st = Err err → err = OutOfFuel ∨ ∃ c, body c = Err err.
Proof.
  revert s. induction fuel as [|fuel IH]; simpl; intros s H; [left; congruence|].
  case_decide; [|done].
  apply bind_Err in H as [H | (out & _ & H)]; [right; eauto|].
  case_decide; [done|].
  apply bind_Err in H as [H | (rest & _ & H)]; [eauto | done].
Qed.

Section key_check.

Variable validate_matrix_entry : MatrixEntry → bool → bool.

(** Past the key check, test-config raises no [ValueError]. *)
Lemma test_config_point_no_ValueError fuel args val isl0 osl0 bmk msg :
  test_config_point validate_matrix_entry fuel args val isl0 osl0 bmk ≠ Err (ValueError msg).
Proof.
  assert (∀ o, test_config_conc_values fuel args bmk = Err o → o ≠ ValueError msg) as Hconc.
  { unfold test_config_conc_values. intros o H.
    apply bind_Err in H as [H | (cv & _ & H)]; [|by repeat case_match].
    destruct (bmk_conc_list bmk); [done|].
    apply bind_Err in H as [H | (cs & _ & H)];
      [destruct (bmk_conc_start bmk); simpl in H; congruence|].
    apply bind_Err in H as [H | (ce & _ & H)];
      [destruct (bmk_conc_end bmk); simpl in H; congruence|].
    apply conc_sweep_Err in H as [-> | (c & H)]; done. }
  assert (∀ e b, validated validate_matrix_entry e b ≠ Err (ValueError msg)) as Hvalid.
  { intros e b. unfold validated. by case_match. }
  unfold test_config_point. intros H. case_match.
  - apply bind_Err in H as [H | (p & _ & H)];
      [destruct (bmk_prefill bmk); simpl in H; congruence|].
    apply bind_Err in H as [H | (d & _ & H)];
      [destruct (bmk_decode bmk); simpl in H; congruence|].
    apply bind_Err in H as [H | (cv & _ & H)]; [by apply Hconc in H|].
    destruct cv; [by apply Hvalid in H | done].
  - apply bind_Err in H as [H | (tp & _ & H)];
      [destruct (bmk_tp bmk); simpl in H; congruence|].
    apply bind_Err in H as [H | (cv & _ & H)]; [by apply Hconc in H|].
    destruct cv; [|done].
    apply for_each_Err in H as (c & _ & H). by apply Hvalid in H.
Qed.

(** C8: when a requested key is absent from the catalog, test-config raises
    an error and returns no matrix; the message names every missing key and
    every key of the catalog.  When every requested key is in the catalog, no
    such error is raised. *)
Theorem test_config_missing_keys fuel args all_config_data :
  ((∃ key, key ∈ tc_config_keys args ∧ key ∉ dict_keys all_config_data) →
   ∃ msg,
     generate_test_config_sweep validate_matrix_entry fuel args all_config_data
       = Err (ValueError msg)
     ∧ (∀ key, key ∈ tc_config_keys args → key ∉ dict_keys all_config_data →
          occurs_in key msg)
     ∧ (∀ key, key ∈ dict_keys all_config_data → occurs_in key msg))
  ∧ ((∀ key, key ∈ tc_config_keys args → key ∈ dict_keys all_config_data) →
     ∀ msg,
       generate_test_config_sweep validate_matrix_entry fuel args all_config_data
         ≠ Err (ValueError msg)).
Proof.
  unfold generate_test_config_sweep. split.
  - intros (key & Hkey & Habsent).
    rewrite bool_decide_eq_true_2.
    2:{ intros Hnil.
        assert (key ∈ filter (λ key, dict_get key all_config_data = None) (tc_config_keys args))
          as Hin by (apply list_elem_of_filter; split; [by apply dict_get_None | done]).
        rewrite Hnil in Hin. by apply elem_of_nil in Hin. }
    eexists. split; [done|]. unfold missing_keys_message. split.
    + intros k Hk Hk'. apply occurs_in_app_r, occurs_in_app_l, occurs_in_concat.
      apply list_elem_of_filter. split; [by apply dict_get_None | done].
    + intros k Hk. do 5 apply occurs_in_app_r. apply occurs_in_concat.
      unfold sorted. by rewrite merge_sort_Permutation.
  - intros Hall msg.
    rewrite bool_decide_eq_false_2.
    2:{ intros Hne. apply Hne. apply filter_nil_iff, Forall_forall.
        intros k Hk Hnone. apply dict_get_None in Hnone. by apply Hnone, Hall. }
    intros H. apply for_each_Err in H as (key & Hkey & H).
    apply bind_Err in H as [H | (val & _ & H)].
    { destruct (dict_get key all_config_data); simpl in H; congruence. }
    apply for_each_Err in H as (seq & _ & H).
    apply for_each_Err in H as (bmk & _ & H).
    by apply test_config_point_no_ValueError in H.
Qed.

End key_check.

Lemma test_config_missing_keys_witness :
  ∃ msg,
    generate_test_config_sweep accept_all 8
      (test_config_keys ["dsr1-fp8-h200-vllm"; "gptoss-fp4-b200-trt"]) sample_catalog
      = Err (ValueError msg)
    ∧ occurs_in "gptoss-fp4-b200-trt" msg
    ∧ occurs_in "dsr1-fp8-h200-vllm" msg.
Proof.
  destruct (proj1 (test_config_missing_keys accept_all 8
                     (test_config_keys ["dsr1-fp8-h200-vllm"; "gptoss-fp4-b200-trt"])
                     sample_catalog)) as (msg & Hmsg & Hmissing & Havailable).
  { exists "gptoss-fp4-b200-trt". split; [right; left|].
    intros Hin. apply list_elem_of_singleton in Hin. discriminate Hin. }
  exists msg. split; [exact Hmsg|]. split.
  - apply Hmissing; [right; left|].
    intros Hin. apply list_elem_of_singleton in Hin. discriminate Hin.
  - apply Havailable. left.
Defined.

(** ** Eval selection *)

(** *** The grouping loop *)

Lemma dict_get_groups_append key x (groups : Groups) key' :
  dict_get key' (groups_append key x groups)
  = if decide (key' = key) then Some (default [] (dict_get key groups) ++ [x])
    else dict_get key' groups.
Proof.
  induction groups as [|[k xs] groups IH]; simpl.
  { by repeat case_decide. }
  destruct (decide (key = k)) as [->|Hne]; simpl.
  - by destruct (decide (key' = k)).
  - rewrite IH. repeat case_decide; simplify_eq; done.
Qed.

Lemma dict_keys_groups_append key x (groups : Groups) :
  dict_keys (groups_append key x groups)
  = if decide (key ∈ dict_keys groups) then dict_keys groups else dict_keys groups ++ [key].
Proof.
  unfold dict_keys. induction groups as [|[k xs] groups IH]; [done|].
  cbn [groups_append]. destruct (decide (key = k)) as [->|Hne]; rewrite !fmap_cons; cbn [fst].
  - rewrite decide_True; [done | left].
  - rewrite IH. destruct (decide (key ∈ fst <$> groups)) as [Hin|Hnin].
    + rewrite decide_True; [done | by right].
    + rewrite decide_False; [done|]. by intros [?|?]%elem_of_cons.
Qed.

Lemma dict_get_Some_elem_of `{EqDecision K} {V} (k : K) (d : list (K * V)) v :
  dict_get k d = Some v → (k, v) ∈ d.
Proof.
  induction d as [|[k' v'] d IH]; simpl; [done|].
  case_decide; [intros [= ->]; subst; left | intros; right; auto].
Qed.

Lemma dict_get_elem_of_NoDup `{EqDecision K} {V} (k : K) (d : list (K * V)) v :
  NoDup (dict_keys d) → (k, v) ∈ d → dict_get k d = Some v.
Proof.
  unfold dict_keys. induction d as [|[k' v'] d IH]; simpl; [by intros _ ?%elem_of_nil|].
  intros Hnd Hin. apply NoDup_cons in Hnd as [Hk' Hnd].
  apply elem_of_cons in Hin as [[= -> ->] | Hin]; [by rewrite decide_True|].
  rewrite decide_False; [by apply IH|].
  intros ->. apply Hk'. apply list_elem_of_fmap. by exists (k', v).
Qed.

Lemma grouping_step_eligible groups ie :
  grouping_step (1024, 8192) groups ie
  = if decide (eval_eligible ie.2) then groups_append (eval_key ie.2) ie groups else groups.
Proof.
  unfold grouping_step. simpl.
  destruct (decide (eval_eligible ie.2)) as [([tp Htp] & Hisl & Hosl) | Hnel].
  - rewrite Htp. rewrite bool_decide_eq_false_2; [done|]. by intros [?|?].
  - destruct (entry_tp ie.2) as [tp|] eqn:Htp; [|done].
    case_bool_decide as Hb; [done|]. destruct Hnel. split; [by eexists|].
    destruct (decide (isl ie.2 = 1024)), (decide (osl ie.2 = 8192)); tauto.
Qed.

(** After the loop, every group holds, in matrix order, the eligible entries
    with its key; no key occurs twice. *)
Lemma grouping_invariant (l : list (nat * MatrixEntry)) :
  let groups := fold_left (grouping_step (1024, 8192)) l [] in
  (∀ key, dict_get key groups
          = if members key l is [] then None else Some (members key l))
  ∧ NoDup (dict_keys groups).
Proof.
  induction l as [|ie l IH] using rev_ind; simpl.
  { split; [done | constructor]. }
  rewrite fold_left_app. simpl.
  set (groups := fold_left (grouping_step (1024, 8192)) l []) in *.
  destruct IH as [IHget IHnd].
  rewrite grouping_step_eligible.
  assert (∀ key, members key (l ++ [ie])
                 = members key l
                   ++ if decide (eval_eligible ie.2 ∧ eval_key ie.2 = key) then [ie] else [])
    as Hmembers.
  { intros key. unfold members. by rewrite filter_app, filter_cons, filter_nil. }
  destruct (decide (eval_eligible ie.2)) as [Hel | Hnel].
  - split.
    + intros key. rewrite dict_get_groups_append, Hmembers.
      destruct (decide (key = eval_key ie.2)) as [->|Hne].
      * rewrite decide_True by done. rewrite IHget.
        by destruct (members (eval_key ie.2) l).
      * rewrite decide_False by (intros [_ ?]; done).
        rewrite app_nil_r. apply IHget.
    + rewrite dict_keys_groups_append. case_decide; [done|].
      apply NoDup_app. split; [done|]. split; [|apply NoDup_singleton].
      by intros k Hk ->%list_elem_of_singleton.
  - split; [|done]. intros key. rewrite Hmembers.
    rewrite decide_False by (intros [? _]; done). rewrite app_nil_r. apply IHget.
Qed.

(** *** The selection loop *)

Lemma mark_highest_conc_spec views tp (S0 : gset nat) :
  ∃ S1, mark_highest_conc views tp S0 = Ok S1
        ∧ ∀ i, i ∈ S1 ↔
            i ∈ S0 ∨ ∃ conc, (i, tp, conc) ∈ views
                             ∧ ∀ i' conc', (i', tp, conc') ∈ views → conc' ≤ conc.
Proof.
  unfold mark_highest_conc.
  assert (∀ i t c, (i, t, c) ∈ filter (λ v : nat * Z * Z, v.1.2 = tp) views
                   ↔ t = tp ∧ (i, t, c) ∈ views) as Hentries.
  { intros i t c. by rewrite list_elem_of_filter. }
  destruct (filter (λ v : nat * Z * Z, v.1.2 = tp) views) as [|v0 rest].
  { exists S0. split; [done|]. intros i. split; [by left|].
    intros [? | (conc & Hin & _)]; [done|].
    exfalso. eapply elem_of_nil. apply Hentries. by split. }
  set (tp_entries := v0 :: rest) in *.
  assert (∃ m, python_max (snd <$> tp_entries) = Ok m
               ∧ (∃ i, (i, tp, m) ∈ views)
               ∧ ∀ i c, (i, tp, c) ∈ views → c ≤ m) as (m & -> & [im Hm] & Hmax).
  { destruct (python_max_spec (snd <$> tp_entries)) as (m & Hmeq & Hm & Hmax); [done|].
    exists m. split; [done|]. split.
    - apply (list_elem_of_fmap snd tp_entries m) in Hm as ([[i t] c] & -> & Hin).
      apply Hentries in Hin as [-> Hin]. by exists i.
    - intros i c Hin. apply Hmax. apply (list_elem_of_fmap snd tp_entries c).
      exists (i, tp, c). split; [done|]. by apply Hentries. }
  eexists. split; [done|]. intros i.
  rewrite elem_of_union, elem_of_list_to_set, list_elem_of_fmap.
  apply or_iff_compat_l. split.
  - intros ([[i' t] c] & -> & [Hc Hin]%list_elem_of_filter). simpl in *. subst c.
    apply Hentries in Hin as [-> Hin]. exists m. split; [done|].
    intros i2 c2 Hin2. by apply (Hmax i2).
  - intros (conc & Hin & Hle). exists (i, tp, conc). split; [done|].
    apply list_elem_of_filter. split; [|by apply Hentries]. simpl.
    apply Z.le_antisymm; [by apply (Hmax i) | by apply (Hle im)].
Qed.

(** What the second loop reads from the entries of a group. *)
Lemma single_node_views (xs : list (nat * MatrixEntry)) :
  (∀ ie, ie ∈ xs → is_Some (tp_conc ie.2)) →
  ∃ views, traverse single_node_view xs = Ok views
           ∧ ∀ i tp conc, (i, tp, conc) ∈ views ↔
               ∃ e, (i, e) ∈ xs ∧ tp_conc e = Some (tp, conc).
Proof.
  induction xs as [|[i0 e0] xs IH]; intros Hxs.
  { exists []. split; [done|]. intros i tp conc. split.
    - by intros ?%elem_of_nil.
    - by intros (e & ?%elem_of_nil & _). }
  destruct IH as (views & Hviews & Hspec); [intros; apply Hxs; by right|].
  destruct (Hxs (i0, e0)) as [[tp0 conc0] Htc]; [left|]. simpl in Htc.
  exists ((i0, tp0, conc0) :: views). split.
  - cbn [traverse]. rewrite Hviews. unfold single_node_view, tp_conc in *. simpl.
    by destruct (topology e0); simplify_eq.
  - intros i tp conc. rewrite elem_of_cons, Hspec. split.
    + intros [[= -> -> ->] | (e & Hin & He)]; [exists e0; split; [left|done]|].
      exists e. split; [by right | done].
    + intros (e & [[= -> ->] | Hin]%elem_of_cons & He); [left; congruence|].
      right. by exists e.
Qed.

Lemma select_in_group_spec xs (S0 : gset nat) :
  (∀ ie, ie ∈ xs → is_Some (tp_conc ie.2)) →
  ∃ S1, select_in_group xs S0 = Ok S1 ∧ ∀ i, i ∈ S1 ↔ i ∈ S0 ∨ selected_in xs i.
Proof.
  intros Hxs. unfold select_in_group.
  destruct xs as [|x0 xs'] eqn:Heq.
  { exists S0. split; [done|]. intros i. split; [by left|].
    intros [?|(tp & conc & (e & ?%elem_of_nil & _) & _)]; done. }
  rewrite <-Heq in *.
  destruct (single_node_views xs Hxs) as (views & -> & Hviews). simpl.
  assert (views ≠ []) as Hne.
  { destruct (Hxs x0) as [[tp0 conc0] H0]; [rewrite Heq; left|].
    intros Hnil. eapply elem_of_nil. rewrite <-Hnil. apply (Hviews x0.1 tp0 conc0).
    exists x0.2. split; [|done]. rewrite Heq, <-surjective_pairing. left. }
  clear Heq x0 xs'.
  assert (∀ t, t ∈ (λ v : nat * Z * Z, v.1.2) <$> views ↔ ∃ i c, (i, t, c) ∈ views) as Htps.
  { intros t. rewrite list_elem_of_fmap. split.
    - intros ([[i t'] c] & -> & Hin). by exists i, c.
    - intros (i & c & Hin). by exists (i, t, c). }
  destruct (python_min_spec ((λ v : nat * Z * Z, v.1.2) <$> views)) as (mn & -> & Hmn & Hmin).
  { by destruct views. }
  destruct (python_max_spec ((λ v : nat * Z * Z, v.1.2) <$> views)) as (mx & -> & Hmx & Hmax).
  { by destruct views. }
  simpl.
  destruct (mark_highest_conc_spec views mx S0) as (S1 & -> & HS1). simpl.
  destruct (mark_highest_conc_spec views mn S1) as (S2 & HS2eq & HS2).
  apply Htps in Hmn as (imn & cmn & Hmn). apply Htps in Hmx as (imx & cmx & Hmx).
  assert (∀ i t c, (i, t, c) ∈ views → mn ≤ t ≤ mx) as Hbounds.
  { intros i t c Hin. split; [apply Hmin | apply Hmax]; apply Htps; eauto. }
  (* the selection, on the views *)
  assert (∀ i, (i ∈ S0 ∨ selected_in xs i) ↔
               (i ∈ S0
                ∨ (∃ conc, (i, mx, conc) ∈ views
                           ∧ ∀ i' conc', (i', mx, conc') ∈ views → conc' ≤ conc))
               ∨ (mn ≠ mx ∧ ∃ conc, (i, mn, conc) ∈ views
                                    ∧ ∀ i' conc', (i', mn, conc') ∈ views → conc' ≤ conc))
    as Hsel.
  { intros i. unfold selected_in. split.
    - intros [? | (tp & conc & Hin & Hconc & Htp)]; [by do 2 left|].
      apply Hviews in Hin.
      assert (∀ i' conc', (i', tp, conc') ∈ views → conc' ≤ conc) as Hconc'.
      { intros i' c' (e' & ? & ?)%Hviews. eauto. }
      destruct Htp as [Hhigh | [Hlow (i' & e' & tp' & conc' & Hin' & He' & Hne')]].
      + assert (tp = mx) as ->.
        { apply Z.le_antisymm; [by apply (Hbounds i tp conc)|].
          apply Hviews in Hmx as (e' & ? & ?). eauto. }
        left. right. eauto.
      + assert (tp = mn) as ->.
        { apply Z.le_antisymm; [|by apply (Hbounds i tp conc)].
          apply Hviews in Hmn as (e2 & ? & ?). eauto. }
        right. split; [|eauto].
        intros <-. apply Hne'. apply Z.le_antisymm; [|eauto].
        apply (Hbounds i' tp' conc'). apply Hviews. eauto.
    - intros [[? | (conc & Hin & Hconc)] | (Hne' & conc & Hin & Hconc)]; [by left|..].
      + right. exists mx, conc. split; [by apply Hviews|]. split.
        * intros i' e' c' ? ?. apply (Hconc i'). apply Hviews. eauto.
        * left. intros i' e' t' c' ? ?. apply (Hbounds i' t' c'). apply Hviews. eauto.
      + right. exists mn, conc. split; [by apply Hviews|]. split.
        * intros i' e' c' ? ?. apply (Hconc i'). apply Hviews. eauto.
        * right. split.
          -- intros i' e' t' c' ? ?. apply (Hbounds i' t' c'). apply Hviews. eauto.
          -- apply Hviews in Hmx as (e' & ? & ?). exists imx, e', mx, cmx. eauto. }
  destruct (decide (mn ≠ mx)) as [Hne'|Heq'].
  - exists S2. split; [done|]. intros i. rewrite Hsel, HS2, HS1. tauto.
  - exists S1. split; [done|]. intros i. rewrite Hsel, HS1. tauto.
Qed.

Lemma select_in_groups_spec (groups : Groups) (S0 : gset nat) :
  (∀ key xs ie, (key, xs) ∈ groups → ie ∈ xs → is_Some (tp_conc ie.2)) →
  ∃ S1, select_in_groups groups S0 = Ok S1
        ∧ ∀ i, i ∈ S1 ↔ i ∈ S0 ∨ ∃ key xs, (key, xs) ∈ groups ∧ selected_in xs i.
Proof.
  revert S0. induction groups as [|[key xs] groups IH]; intros S0 Hgroups.
  { exists S0. split; [done|]. intros i. split; [by left|].
    intros [?|(? & ? & ?%elem_of_nil & _)]; done. }
  destruct (select_in_group_spec xs S0) as (S1 & HS1eq & HS1).
  { intros ie. apply (Hgroups key xs). left. }
  destruct (IH S1) as (S2 & HS2eq & HS2).
  { intros k ys ie Hin. apply (Hgroups k ys). by right. }
  exists S2. split; [simpl; by rewrite HS1eq|].
  intros i. rewrite HS2, HS1. split.
  - intros [[?|?] | (k & ys & Hin & Hsel)]; [by left| |].
    + right. exists key, xs. split; [left | done].
    + right. exists k, ys. split; [by right | done].
  - intros [? | (k & ys & [[= -> ->] | Hin]%elem_of_cons & Hsel)];
      [by do 2 left | by left; right | right; eauto].
Qed.

(** *** The selected indices *)

Lemma elem_of_enumerate {A} (l : list A) i x : (i, x) ∈ enumerate l ↔ l !! i = Some x.
Proof.
  unfold enumerate. rewrite elem_of_lookup_imap. split.
  - by intros (i' & x' & [= -> ->] & ?).
  - intros ?. by exists i, x.
Qed.

Lemma elem_of_members key (m : list MatrixEntry) i e :
  (i, e) ∈ members key (enumerate m)
  ↔ m !! i = Some e ∧ eval_eligible e ∧ eval_key e = key.
Proof. unfold members. rewrite list_elem_of_filter, elem_of_enumerate. simpl. tauto. Qed.

Lemma eligible_tp_conc e : eval_eligible e → is_Some (tp_conc e).
Proof.
  intros ([tp Htp] & _). unfold entry_tp, tp_conc in *.
  destruct (topology e); [by eexists | done].
Qed.

(** The group of [e], as the policy words it, is the group the loop built. *)
Lemma in_group_members (m : list MatrixEntry) e tp conc :
  in_group m e tp conc
  ↔ ∃ i' e', (i', e') ∈ members (eval_key e) (enumerate m) ∧ tp_conc e' = Some (tp, conc).
Proof.
  unfold in_group. split.
  - intros (e' & [i' Hi']%list_elem_of_lookup & Hel & Hkey & Htc).
    exists i', e'. split; [by apply elem_of_members | done].
  - intros (i' & e' & (Hi' & Hel & Hkey)%elem_of_members & Htc).
    exists e'. split; [by eapply list_elem_of_lookup_2 | done].
Qed.

Lemma selected_in_members (m : list MatrixEntry) i e :
  m !! i = Some e → eval_eligible e →
  selected_in (members (eval_key e) (enumerate m)) i ↔ eval_selected m e.
Proof.
  intros Hi Hel. unfold selected_in, eval_selected. split.
  - intros (tp & conc & (e0 & (Hi0 & _)%elem_of_members & Htc) & Hconc & Htp).
    assert (e0 = e) as -> by congruence.
    split; [done|]. exists tp, conc. split; [done|]. split.
    + intros conc' (i' & e' & ? & ?)%in_group_members. eauto.
    + destruct Htp as [Hhigh | [Hlow (i' & e' & tp' & conc' & ? & ? & ?)]].
      * left. intros tp' conc' (i' & e' & ? & ?)%in_group_members. eauto.
      * right. split.
        -- intros tp2 conc2 (i2 & e2 & ? & ?)%in_group_members. eauto.
        -- exists tp', conc'. split; [|done]. apply in_group_members. eauto.
  - intros (_ & tp & conc & Htc & Hconc & Htp).
    exists tp, conc. split; [exists e; split; [by apply elem_of_members | done]|]. split.
    + intros i' e' conc' ? ?. apply Hconc, in_group_members. eauto.
    + destruct Htp as [Hhigh | [Hlow (tp' & conc' & (i' & e' & ? & ?)%in_group_members & ?)]].
      * left. intros i' e' tp' conc' ? ?. eapply Hhigh, in_group_members. eauto.
      * right. split; [|by exists i', e', tp', conc'].
        intros i2 e2 tp2 conc2 ? ?. eapply Hlow, in_group_members. eauto.
Qed.

(** The loops compute the indices of the selected entries, and never raise. *)
Lemma eval_indices_spec (m : list MatrixEntry) :
  ∃ S, eval_indices m = Ok S
       ∧ ∀ i, i ∈ S ↔ ∃ e, m !! i = Some e ∧ eval_selected m e.
Proof.
  unfold eval_indices, group_entries. simpl.
  destruct (grouping_invariant (enumerate m)) as [Hget Hnd].
  set (groups := fold_left (grouping_step (1024, 8192)) (enumerate m) []) in *.
  assert (∀ key xs, (key, xs) ∈ groups → xs = members key (enumerate m) ∧ xs ≠ []) as Hgroups.
  { intros key xs Hin. apply (dict_get_elem_of_NoDup _ _ _ Hnd) in Hin.
    rewrite Hget in Hin. destruct (members key (enumerate m)); by simplify_eq. }
  destruct (select_in_groups_spec groups ∅) as (S & HS & Hspec).
  { intros key xs [i e] Hin Hie. destruct (Hgroups _ _ Hin) as [-> _].
    apply elem_of_members in Hie as (_ & Hel & _). by apply eligible_tp_conc. }
  exists S. split; [done|]. intros i. rewrite Hspec. split.
  - intros [?%elem_of_empty | (key & xs & Hin & Hsel)]; [done|].
    destruct (Hgroups _ _ Hin) as [-> _].
    destruct Hsel as (tp & conc & (e & Hie & Htc) & Hrest).
    pose proof Hie as (Hi & Hel & <-)%elem_of_members.
    exists e. split; [done|]. apply (selected_in_members m i e Hi Hel).
    exists tp, conc. split; [by exists e | done].
  - intros (e & Hi & Hsel). right.
    pose proof Hsel as [Hel _].
    exists (eval_key e), (members (eval_key e) (enumerate m)). split.
    + apply dict_get_Some_elem_of. rewrite Hget.
      destruct (members (eval_key e) (enumerate m)) eqn:Heq; [|done].
      exfalso. eapply elem_of_nil. rewrite <-Heq. by apply (elem_of_members _ m i e).
    + by apply selected_in_members.
Qed.

(** [mark_eval_entries] never raises; it returns the matrix with the flag of
    each entry set to whether the entry is selected. *)
Lemma mark_eval_entries_lookup (m : list MatrixEntry) :
  ∃ m', mark_eval_entries m = Ok m'
        ∧ length m' = length m
        ∧ ∀ i e, m !! i = Some e →
            ∃ b, m' !! i = Some (set_run_eval e b) ∧ (b = true ↔ eval_selected m e).
Proof.
  destruct (eval_indices_spec m) as (S & HS & Hspec).
  unfold mark_eval_entries. rewrite HS. simpl.
  eexists. split; [done|]. split; [apply length_imap|].
  intros i e Hi. exists (bool_decide (i ∈ S)).
  rewrite list_lookup_imap, Hi. split; [done|].
  rewrite bool_decide_eq_true, Hspec. split.
  - intros (e0 & ? & ?). by assert (e0 = e) as -> by congruence.
  - intros ?. by exists e.
Qed.

(** The key of the grouping loop is the seven fields of the policy. *)
Lemma eval_key_same_group e e' : eval_key e' = eval_key e ↔ same_group e e'.
Proof.
  unfold eval_key, same_group. split.
  - intros [= -> -> -> -> -> -> ->]. done.
  - intros (-> & -> & -> & -> & -> & -> & ->). done.
Qed.

Lemma in_group_group_has matrix e tp conc :
  in_group matrix e tp conc ↔ group_has matrix e tp conc.
Proof.
  unfold in_group, group_has. split.
  - intros (e' & ? & ? & ?%eval_key_same_group & ?). by exists e'.
  - intros (e' & ? & ? & ?%eval_key_same_group & ?). by exists e'.
Qed.

Lemma eval_selected_marked_by_policy matrix e :
  eval_selected matrix e ↔ marked_by_policy matrix e.
Proof.
  unfold eval_selected, marked_by_policy.
  split; intros (Hel & tp & conc & Htc & Hconc & Htp);
    (split; [done|]; exists tp, conc; split; [done|]; split;
     [intros conc' ?%in_group_group_has; by apply Hconc|]);
    (destruct Htp as [Hhigh | [Hlow (tp' & conc' & Hg%in_group_group_has & Hne)]];
     [left; intros tp' conc' ?%in_group_group_has; by eapply Hhigh
     |right; split; [intros tp2 conc2 ?%in_group_group_has; by eapply Hlow
                    |by exists tp', conc']]).
Qed.

(** C4: eval selection never raises and marks exactly the entries that the
    policy selects: the eligible entries (top-level TP, isl = 1024,
    osl = 8192) that, within their group (the eligible entries with the same
    model, runner, framework, precision, isl, osl and spec-decoding), have
    the highest concurrency among the entries at their TP, at the group's
    highest TP or, when it differs from the highest, at the group's lowest
    TP; every other field of an entry is left as it was.  On the sample
    group (TP 8 with concurrencies 1, 2, 4, 8 and TP 1 with concurrencies 1,
    2) exactly (TP 8, conc 8) and (TP 1, conc 2) are marked; on three
    interleaved groups that differ in runner or in spec-decoding, each group
    gets its own marks. *)
Theorem mark_eval_entries_selects (matrix : list MatrixEntry) :
  (∃ marked, mark_eval_entries matrix = Ok marked
             ∧ length marked = length matrix
             ∧ ∀ i e, matrix !! i = Some e →
                 ∃ e', marked !! i = Some e'
                       ∧ e' = set_run_eval e (run_eval e')
                       ∧ (run_eval e' = true ↔ marked_by_policy matrix e))
  ∧ (∃ marked, mark_eval_entries eval_sample_group = Ok marked
               ∧ tp_conc <$> filter (λ e, run_eval e = true) marked
                 = [Some (8, 8); Some (1, 2)])
  ∧ (∃ marked, mark_eval_entries eval_sample_groups = Ok marked
               ∧ (λ e, (runner e, spec_decoding e, tp_conc e))
                   <$> filter (λ e, run_eval e = true) marked
                 = [("h200", "none", Some (8, 4)); ("h200", "mtp", Some (8, 8));
                    ("b200", "none", Some (4, 16)); ("h200", "none", Some (2, 4));
                    ("h200", "mtp", Some (2, 2))]).
Proof.
  split; [|split; eexists; split; vm_compute; reflexivity].
  destruct (mark_eval_entries_lookup matrix) as (marked & Hmarked & Hlen & Hlookup).
  exists marked. split; [done|]. split; [done|]. intros i e Hi.
  destruct (Hlookup i e Hi) as (b & Hb & Hsel). exists (set_run_eval e b).
  split; [done|]. split; [done|]. simpl. by rewrite <-eval_selected_marked_by_policy.
Qed.

(** C5: eval selection never sets the flag of an entry whose (isl, osl) is
    not (1024, 8192) or that has no top-level TP. *)
Theorem mark_eval_entries_only_eligible (matrix : list MatrixEntry) :
  ∃ marked, mark_eval_entries matrix = Ok marked
            ∧ ∀ e', e' ∈ marked → run_eval e' = true →
                is_Some (entry_tp e') ∧ isl e' = 1024 ∧ osl e' = 8192.
Proof.
  destruct (mark_eval_entries_lookup matrix) as (marked & Hmarked & Hlen & Hlookup).
  exists marked. split; [done|]. intros e' [i Hi]%list_elem_of_lookup Hrun.
  destruct (lookup_lt_is_Some_2 matrix i) as [e He].
  { rewrite <-Hlen. by eapply lookup_lt_Some. }
  destruct (Hlookup i e He) as (b & Hb & Hsel).
  assert (e' = set_run_eval e b) as -> by congruence.
  simpl in Hrun. apply Hsel in Hrun as [Hel _]. exact Hel.
Qed.

(** C10: eval selection returns a list of the same length as its input; the
    entry at each index is the input's entry at that index with every field
    but the eval flag unchanged, and with the eval flag true exactly when the
    entry is selected, whatever the flag was before. *)
Theorem mark_eval_entries_frame (matrix : list MatrixEntry) :
  ∃ marked, mark_eval_entries matrix = Ok marked
            ∧ length marked = length matrix
            ∧ ∀ i e, matrix !! i = Some e →
                ∃ e', marked !! i = Some e'
                      ∧ same_but_eval e e'
                      ∧ (run_eval e' = true ↔ eval_selected matrix e)
                      ∧ e' = set_run_eval e (run_eval e').
Proof.
  destruct (mark_eval_entries_lookup matrix) as (marked & Hmarked & Hlen & Hlookup).
  exists marked. split; [done|]. split; [done|]. intros i e Hi.
  destruct (Hlookup i e Hi) as (b & Hb & Hsel).
  exists (set_run_eval e b). split; [done|]. split; [|split; done].
  unfold same_but_eval. simpl. tauto.
Qed.

Lemma mark_eval_entries_selects_witness :
  ∃ marked e',
    mark_eval_entries eval_sample_groups = Ok marked
    ∧ length marked = 7%nat
    ∧ marked !! 3%nat = Some e'
    ∧ run_eval e' = true
    ∧ marked_by_policy eval_sample_groups (grouped_sample "b200" "none" 4 16).
Proof.
  destruct (proj1 (mark_eval_entries_selects eval_sample_groups))
    as (marked & Hmarked & Hlen & Hall).
  destruct (Hall 3%nat (grouped_sample "b200" "none" 4 16) eq_refl) as (e' & He' & _ & Hiff).
  assert (run_eval e' = true) as Hrun.
  { vm_compute in Hmarked. injection Hmarked as <-. injection He' as <-. reflexivity. }
  exists marked, e'. split; [exact Hmarked|]. split; [exact Hlen|]. split; [exact He'|].
  split; [exact Hrun|]. apply Hiff, Hrun.
Defined.

Lemma mark_eval_entries_only_eligible_witness :
  ∃ marked,
    mark_eval_entries (eval_sample 8 64 1024 1024 true :: eval_sample_group) = Ok marked
    ∧ length marked = 7%nat
    ∧ ∀ e', e' ∈ marked → run_eval e' = true →
        is_Some (entry_tp e') ∧ isl e' = 1024 ∧ osl e' = 8192.
Proof.
  destruct (mark_eval_entries_only_eligible (eval_sample 8 64 1024 1024 true :: eval_sample_group))
    as (marked & Hmarked & Hall).
  exists marked. split; [exact Hmarked|]. split; [|exact Hall].
  vm_compute in Hmarked. injection Hmarked as <-. reflexivity.
Defined.

Lemma mark_eval_entries_frame_witness :
  ∃ marked e',
    mark_eval_entries eval_sample_group = Ok marked
    ∧ length marked = 6%nat
    ∧ marked !! 1%nat = Some e'
    ∧ same_but_eval (eval_sample 8 2 1024 8192 true) e'
    ∧ run_eval e' = false.
Proof.
  destruct (mark_eval_entries_frame eval_sample_group) as (marked & Hmarked & Hlen & Hall).
  destruct (Hall 1%nat (eval_sample 8 2 1024 8192 true) eq_refl) as (e' & He' & Hsame & _).
  exists marked, e'. split; [exact Hmarked|]. split; [exact Hlen|]. split; [exact He'|].
  split; [exact Hsame|].
  vm_compute in Hmarked. injection Hmarked as <-. injection He' as <-. reflexivity.
Defined.

(** * Further results *)

(** ** full-sweep: what the filters let through *)

Lemma traverse_elem_of {A B} (f : A → result B) l bs :
  traverse f l = Ok bs →
  length bs = length l ∧ ∀ b, b ∈ bs → ∃ a, a ∈ l ∧ f a = Ok b.
Proof.
  revert bs. induction l as [|a l IH]; simpl; intros bs H.
  { injection H as <-. split; [done|]. by intros ? ?%elem_of_nil. }
  inv_bind H. inv_bind H. injection H as <-.
  destruct (IH _ Ha1) as [Hlen Hin]. split; [simpl; by rewrite Hlen|].
  intros b [-> | Hb]%elem_of_cons.
  - exists a. split; [left | done].
  - destruct (Hin b Hb) as (a' & ? & ?). exists a'. split; [by right | done].
Qed.

(** The concurrency loop stays at or below [conc_end]; from a positive
    start and with a step of at least 1 it never goes below its start. *)
Lemma conc_sweep_Ok_bounds {A} (body : Z → result (list A)) fuel s e st out :
  conc_sweep body fuel s e st = Ok out →
  ∀ b, b ∈ out →
    ∃ c o, c ≤ e ∧ (0 < s → 1 ≤ st → s ≤ c) ∧ body c = Ok o ∧ b ∈ o.
Proof.
  revert s out. induction fuel as [|fuel IH]; simpl; intros s out H b Hb; [done|].
  case_decide; [|injection H as <-; by apply elem_of_nil in Hb].
  inv_bind H. case_decide.
  { injection H as <-. exists s, a. repeat split; try done; lia. }
  inv_bind H. injection H as <-.
  apply elem_of_app in Hb as [Hb | Hb].
  { exists s, a. repeat split; try done; lia. }
  destruct (IH _ _ Ha0 b Hb) as (c & o & Hle & Hge & Ho & Hbo).
  exists c, o. repeat split; try done.
  intros Hs Hst. etrans; [|apply Hge; [case_decide; nia | done]].
  case_decide; nia.
Qed.

Section full_sweep_provenance.

Variable validate_matrix_entry : MatrixEntry → bool → bool.

(** Every entry of a full sweep was emitted by a search-space point of a
    catalog entry that passed every filter. *)
Lemma generate_full_sweep_provenance fuel args all_config_data runner_data out :
  generate_full_sweep validate_matrix_entry fuel args all_config_data runner_data = Ok out →
  ∀ e, e ∈ out →
    ∃ key val nodes seq bmk o seq_lens_filter,
      (key, val) ∈ all_config_data ∧ seq ∈ seq_len_configs val ∧ bmk ∈ search_space seq
      ∧ prefix_mismatch (fs_model_prefix args) key = false
      ∧ not_among (fs_precision args) (cfg_precision val) = false
      ∧ not_among (fs_framework args) (cfg_framework val) = false
      ∧ not_among (fs_runner_type args) (cfg_runner val) = false
      ∧ traverse (λ sl, require sl (dict_get sl seq_len_stoi)) (given (fs_seq_lens args))
        = Ok seq_lens_filter
      ∧ (seq_lens_filter ≠ [] → (seq_isl seq, seq_osl seq) ∈ seq_lens_filter)
      ∧ resolved_nodes args runner_data val nodes
      ∧ full_sweep_point validate_matrix_entry fuel args val nodes (seq_isl seq) (seq_osl seq) bmk
        = Ok o
      ∧ e ∈ o.
Proof.
  unfold generate_full_sweep. intros H e He.
  case_bool_decide; [done|]. inv_bind H. rename a into seq_lens_filter.
  destruct (for_each_Ok_inv _ _ _ H e He) as ([key val] & o1 & Hkv & Hcfg & He1).
  simpl in Hcfg. unfold full_sweep_config in Hcfg.
  destruct (prefix_mismatch _ _) eqn:Hprefix;
    [by (injection Hcfg as <-; apply elem_of_nil in He1)|].
  destruct (not_among (fs_precision args) _) eqn:Hprec;
    [by (injection Hcfg as <-; apply elem_of_nil in He1)|].
  destruct (not_among (fs_framework args) _) eqn:Hfw;
    [by (injection Hcfg as <-; apply elem_of_nil in He1)|].
  destruct (not_among (fs_runner_type args) _) eqn:Hrt;
    [by (injection Hcfg as <-; apply elem_of_nil in He1)|].
  assert (∃ nodes, resolved_nodes args runner_data val nodes
            ∧ for_each (λ seq_config,
                 if bool_decide (seq_lens_filter ≠ [])
                    && bool_decide ((seq_isl seq_config, seq_osl seq_config) ∉ seq_lens_filter)
                 then Ok []
                 else for_each (full_sweep_point validate_matrix_entry fuel args val nodes
                                  (seq_isl seq_config) (seq_osl seq_config))
                        (search_space seq_config)) (seq_len_configs val) = Ok o1)
    as (nodes & Hnodes & Hseqs).
  { unfold resolved_nodes. destruct (truthy_filter _) as [f|]; [|by exists None].
    match type of Hcfg with
    | context [filter ?P ?l] => destruct (filter P l) as [|n l'] eqn:Hf
    end; [by (injection Hcfg as <-; apply elem_of_nil in He1)|].
    exists (Some (n :: l')). split; [|done]. exists (n :: l'). by rewrite ?Hf. }
  clear Hcfg.
  destruct (for_each_Ok_inv _ _ _ Hseqs e He1) as (seq & o2 & Hseq & Hprof & He2).
  simpl in Hprof.
  destruct (bool_decide (seq_lens_filter ≠ []) && _) eqn:Hsl;
    [by (injection Hprof as <-; apply elem_of_nil in He2)|].
  destruct (for_each_Ok_inv _ _ _ Hprof e He2) as (bmk & o3 & Hbmk & Hpt & He3).
  exists key, val, nodes, seq, bmk, o3, seq_lens_filter.
  repeat (split; [done|]). split; [|done].
  intros Hne. apply andb_false_iff in Hsl as [Hsl | Hsl].
  - by apply bool_decide_eq_false in Hsl.
  - apply bool_decide_eq_false in Hsl.
    by destruct (decide ((seq_isl seq, seq_osl seq) ∈ seq_lens_filter)).
Qed.

Lemma not_among_false allowed value :
  not_among allowed value = false → given allowed ≠ [] → value ∈ given allowed.
Proof.
  unfold not_among. intros H Hne.
  rewrite bool_decide_eq_true_2 in H by done. simpl in H.
  apply bool_decide_eq_false in H. by destruct (decide (value ∈ given allowed)).
Qed.

Lemma prefix_mismatch_false prefixes key :
  prefix_mismatch prefixes key = false → given prefixes ≠ [] →
  ∃ prefix, prefix ∈ given prefixes ∧ String.prefix prefix key = true.
Proof.
  unfold prefix_mismatch. intros H Hne.
  rewrite bool_decide_eq_true_2 in H by done. simpl in H.
  apply negb_false_iff, existsb_exists in H as (prefix & Hin & Hp).
  exists prefix. split; [by apply list_elem_of_In | done].
Qed.

(** X2: every entry of a full sweep comes from a catalog entry that passes
    every filter that was given: its key starts with one of the model
    prefixes, its precision, framework and runner type are among those asked
    for, and the entry's sequence lengths are those of one of the names
    given with [--seq-lens].  The entry carries the image, model, model
    prefix, precision and framework of that catalog entry. *)
Theorem full_sweep_respects_filters fuel args all_config_data runner_data out :
  generate_full_sweep validate_matrix_entry fuel args all_config_data runner_data = Ok out →
  Forall (λ e,
    ∃ key val,
      (key, val) ∈ all_config_data
      ∧ image e = cfg_image val ∧ model e = cfg_model val
      ∧ model_prefix e = cfg_model_prefix val
      ∧ precision e = cfg_precision val ∧ framework e = cfg_framework val
      ∧ (given (fs_model_prefix args) ≠ [] →
           ∃ prefix, prefix ∈ given (fs_model_prefix args) ∧ String.prefix prefix key = true)
      ∧ (given (fs_precision args) ≠ [] → precision e ∈ given (fs_precision args))
      ∧ (given (fs_framework args) ≠ [] → framework e ∈ given (fs_framework args))
      ∧ (given (fs_runner_type args) ≠ [] → cfg_runner val ∈ given (fs_runner_type args))
      ∧ (given (fs_seq_lens args) ≠ [] →
           ∃ name, name ∈ given (fs_seq_lens args)
                   ∧ dict_get name seq_len_stoi = Some (isl e, osl e))) out.
Proof.
  intros H. apply Forall_forall. intros e He.
  destruct (generate_full_sweep_provenance _ _ _ _ _ H e He)
    as (key & val & nodes & seq & bmk & o & slf & Hkv & _ & _ & Hprefix & Hprec & Hfw & Hrt
        & Hslf & Hseq & _ & Hpt & Heo).
  destruct (full_sweep_point_fields _ _ _ _ _ _ _ _ _ Hpt e Heo)
    as (Himg & Hmodel & Hmp & Hp & Hf & _ & Hisl & Hosl & _).
  exists key, val. repeat (split; [done|]).
  split; [by apply prefix_mismatch_false|].
  split; [rewrite Hp; by apply not_among_false|].
  split; [rewrite Hf; by apply not_among_false|].
  split; [by apply not_among_false|].
  intros Hne. destruct (traverse_elem_of _ _ _ Hslf) as [Hlen Hin].
  destruct (Hin (seq_isl seq, seq_osl seq)) as (name & Hname & Hget).
  { apply Hseq. intros ->. destruct (given (fs_seq_lens args)); done. }
  exists name. split; [done|]. apply require_Ok in Hget. by rewrite Hisl, Hosl.
Qed.

Lemma require_Err {A} key (o : option A) e : require key o = Err e → point_error e.
Proof. destruct o; simpl; [done | by intros [= <-]]. Qed.

Lemma validated_Err entry b e :
  validated validate_matrix_entry entry b = Err e → point_error e.
Proof. unfold validated. case_match; [done | by intros [= <-]]. Qed.

Lemma conc_range_Err fuel s e st err : conc_range fuel s e st = Err err → point_error err.
Proof. intros [-> | (c & H)]%conc_sweep_Err; done. Qed.

Lemma full_sweep_point_Err fuel args val nodes isl0 osl0 bmk e :
  full_sweep_point validate_matrix_entry fuel args val nodes isl0 osl0 bmk = Err e →
  point_error e.
Proof.
  unfold full_sweep_point. intros H. repeat case_match; try done.
  - unfold full_sweep_multinode, multinode_conc_values in H.
    apply bind_Err in H as [H | (p & _ & H)]; [by apply require_Err in H|].
    apply bind_Err in H as [H | (d & _ & H)]; [by apply require_Err in H|].
    apply bind_Err in H as [H | (cv & _ & H)].
    + repeat case_match; try done;
        (apply bind_Err in H as [H | (cs & _ & H)]; [by apply require_Err in H|];
         apply bind_Err in H as [H | (ce & _ & H)]; [by apply require_Err in H|];
         by apply conc_range_Err in H).
    + case_match; [|done].
      apply for_each_Err in H as (r & _ & H). by apply validated_Err in H.
  - unfold full_sweep_single_node in H.
    apply bind_Err in H as [H | (tp & _ & H)]; [by apply require_Err in H|].
    apply bind_Err in H as [H | (cs & _ & H)]; [by apply require_Err in H|].
    apply bind_Err in H as [H | (ce & _ & H)]; [by apply require_Err in H|].
    repeat case_match; try done.
    apply conc_sweep_Err in H as [-> | (c & H)]; [done|].
    apply for_each_Err in H as (r & _ & H). by apply validated_Err in H.
Qed.

(** X1: full-sweep raises for a runner type that the inventory does not
    list, whatever the catalog holds; the error carries the unknown types and
    the sorted known ones.  When every given type is listed, that error is
    not raised. *)
Theorem full_sweep_invalid_runner_types fuel args all_config_data runner_data :
  ((∃ r, r ∈ given (fs_runner_type args) ∧ r ∉ dict_keys runner_data) →
   ∃ invalid,
     generate_full_sweep validate_matrix_entry fuel args all_config_data runner_data
       = Err (InvalidRunnerTypes invalid (sorted (dict_keys runner_data)))
     ∧ ∀ r, r ∈ invalid ↔ r ∈ given (fs_runner_type args) ∧ r ∉ dict_keys runner_data)
  ∧ ((∀ r, r ∈ given (fs_runner_type args) → r ∈ dict_keys runner_data) →
     ∀ invalid valid,
       generate_full_sweep validate_matrix_entry fuel args all_config_data runner_data
         ≠ Err (InvalidRunnerTypes invalid valid)).
Proof.
  unfold generate_full_sweep. split.
  - intros (r & Hr & Hnot). rewrite bool_decide_eq_true_2.
    + eexists. split; [done|]. intros r'. rewrite list_elem_of_filter. tauto.
    + intros Hnil. eapply (filter_nil_not_elem_of _ _ r Hnil); done.
  - intros Hall invalid valid. rewrite bool_decide_eq_false_2.
    2:{ intros Hne. apply Hne, filter_nil_iff, Forall_forall. intros r Hr Hnot.
        by apply Hnot, Hall. }
    intros H. apply bind_Err in H as [H | (slf & _ & H)].
    + clear Hall. induction (given (fs_seq_lens args)) as [|sl l IH]; [done|].
      cbn [traverse] in H. apply bind_Err in H as [H | (p & _ & H)];
        [destruct (dict_get sl seq_len_stoi); cbn [require] in H; congruence|].
      apply bind_Err in H as [H | (ps & _ & H)]; [by apply IH | done].
    + apply for_each_Err in H as ([key val] & _ & H). simpl in H.
      unfold full_sweep_config in H.
      repeat case_match; try done;
        apply for_each_Err in H as (seq & _ & H); simpl in H;
        (case_match; [done|]);
        apply for_each_Err in H as (bmk & _ & H);
        by apply full_sweep_point_Err in H.
Qed.

End full_sweep_provenance.

Lemma full_sweep_invalid_runner_types_witness :
  ∃ invalid,
    generate_full_sweep accept_all 8
      (with_max_tp filtered_sweep None) sample_catalog [("b200", ["b200-nv_0"])]
      = Err (InvalidRunnerTypes invalid ["b200"])
    ∧ ∀ r, r ∈ invalid ↔ r ∈ ["h200"] ∧ r ∉ ["b200"].
Proof.
  apply (proj1 (full_sweep_invalid_runner_types accept_all 8 (with_max_tp filtered_sweep None)
                  sample_catalog [("b200", ["b200-nv_0"])])).
  exists "h200". split; [left|]. intros Hin. apply list_elem_of_singleton in Hin. discriminate Hin.
Defined.

Lemma full_sweep_respects_filters_witness :
  ∃ out,
    generate_full_sweep accept_all 8 filtered_sweep sample_catalog sample_runners = Ok out
    ∧ length out = 6%nat
    ∧ Forall (λ e, precision e ∈ ["fp8"] ∧ framework e ∈ ["vllm"; "sglang"]
                   ∧ ∃ name, name ∈ ["1k8k"]
                             ∧ dict_get name seq_len_stoi = Some (isl e, osl e)) out.
Proof.
  eexists. split; [vm_compute; reflexivity|]. split; [reflexivity|].
  eapply Forall_impl.
  - apply (full_sweep_respects_filters accept_all 8 filtered_sweep sample_catalog
             sample_runners). vm_compute. reflexivity.
  - intros e (key & val & _ & _ & _ & _ & _ & _ & _ & Hp & Hf & _ & Hsl).
    split; [by apply Hp|]. split; [by apply Hf|]. by apply Hsl.
Defined.

(** ** full-sweep: the bounds hold on what is emitted *)

Lemma filter_max_conc_le m values cv :
  filter_max_conc (Some m) values = Some cv → Forall (λ c, c ≤ m) cv.
Proof.
  unfold filter_max_conc.
  destruct (filter (λ c, c ≤ m) values) as [|c0 l] eqn:Hf.
  - case_decide; [|done]. intros [= <-]. repeat constructor. lia.
  - intros [= <-]. rewrite <-Hf. apply Forall_forall.
    by intros c [? _]%list_elem_of_filter.
Qed.

Lemma filter_min_conc_ge m values cv :
  filter_min_conc (Some m) values = Some cv →
  0 < m ∧ cv ≠ [] ∧ Forall (λ c, m ≤ c) cv.
Proof.
  unfold filter_min_conc. case_decide; [done|].
  destruct (filter (λ c, c >= m) values) as [|c0 l] eqn:Hf; [done|].
  intros [= <-]. split; [lia|]. split; [done|]. rewrite <-Hf. apply Forall_forall.
  intros c [? _]%list_elem_of_filter. lia.
Qed.

Lemma filter_max_conc_ge mx m values cv :
  Forall (λ c, m ≤ c) values → (∀ M, mx = Some M → m ≤ M) →
  filter_max_conc mx values = Some cv → Forall (λ c, m ≤ c) cv.
Proof.
  intros Hvalues Hmx. unfold filter_max_conc. destruct mx as [M|]; [|by intros [= <-]].
  destruct (filter (λ c, c ≤ M) values) as [|c0 l] eqn:Hf.
  - case_decide; [|done]. intros [= <-]. repeat constructor. by apply Hmx.
  - intros [= <-]. rewrite <-Hf. apply Forall_forall.
    intros c [_ Hc]%list_elem_of_filter. by eapply Forall_forall in Hvalues.
Qed.

Section full_sweep_bounds.

Variable validate_matrix_entry : MatrixEntry → bool → bool.

(** The range that the single-node branch sweeps, and where the emitted
    concurrency lies in it. *)
Lemma full_sweep_single_node_conc fuel args val nodes isl0 osl0 bmk out :
  full_sweep_single_node validate_matrix_entry fuel args val nodes isl0 osl0 bmk = Ok out →
  ∀ e, e ∈ out →
    ∃ conc_start0 conc_end0 conc_start1 conc_start conc_end tp ep dp_attn conc,
      bmk_conc_start bmk = Some conc_start0 ∧ bmk_conc_end bmk = Some conc_end0
      ∧ narrow_min_conc (fs_min_conc args) conc_start0 conc_end0 = Some conc_start1
      ∧ narrow_max_conc (fs_max_conc args) conc_start1 conc_end0 = Some (conc_start, conc_end)
      ∧ topology e = SingleNode tp ep dp_attn conc
      ∧ conc ≤ conc_end
      ∧ (0 < conc_start → 1 ≤ fs_step_size args → conc_start ≤ conc).
Proof.
  unfold full_sweep_single_node. intros H e He.
  inv_bind H. inv_bind H. inv_bind H. apply require_Ok in Ha0, Ha1.
  destruct (clamp_tp _ a) as [tp|]; simpl in H;
    [|injection H as <-; by apply elem_of_nil in He].
  destruct (clamp_ep _ _) as [ep|]; simpl in H;
    [|injection H as <-; by apply elem_of_nil in He].
  destruct (narrow_min_conc _ _ _) as [cs|] eqn:Hmin; simpl in H;
    [|injection H as <-; by apply elem_of_nil in He].
  destruct (narrow_max_conc _ _ _) as [[cs' ce']|] eqn:Hmax; simpl in H;
    [|injection H as <-; by apply elem_of_nil in He].
  destruct (conc_sweep_Ok_bounds _ _ _ _ _ _ H e He) as (conc & o & Hle & Hge & Ho & Heo).
  apply for_each_validated_Ok in Ho as ->.
  apply list_elem_of_fmap in Heo as (r & -> & _). simpl.
  by eexists a0, a1, cs, cs', ce', _, _, _, conc.
Qed.

(** X4: in a full sweep with [--max-conc], no emitted concurrency exceeds
    the bound: not the value of a single-node entry, and no value of a
    multinode entry's list. *)
Theorem full_sweep_max_conc_respected fuel args all_config_data runner_data max_conc out :
  fs_max_conc args = Some max_conc →
  generate_full_sweep validate_matrix_entry fuel args all_config_data runner_data = Ok out →
  Forall (λ e, Forall (λ c, c ≤ max_conc) (conc_values_of e)) out.
Proof.
  intros Hmax H. apply Forall_forall. intros e He.
  destruct (generate_full_sweep_entries _ _ _ _ _ _ H e He)
    as (key & val & nodes & seq & bmk & o & _ & _ & _ & Hpt & Heo).
  unfold full_sweep_point in Hpt.
  repeat case_match; try (injection Hpt as <-; by apply elem_of_nil in Heo).
  - destruct (full_sweep_multinode_entries _ _ _ _ _ _ _ _ _ Hpt e Heo)
      as (_ & _ & _ & p & d & values & cv & _ & Hcv & Htop).
    unfold conc_values_of. rewrite Htop, Hmax in *.
    destruct (filter_min_conc _ values) as [cv1|]; [|done]. simpl in Hcv.
    by apply filter_max_conc_le in Hcv.
  - destruct (full_sweep_single_node_conc _ _ _ _ _ _ _ _ Hpt e Heo)
      as (cs0 & ce0 & cs1 & cs & ce & tp & ep & dp & conc & _ & _ & _ & Hnarrow & Htop & Hle & _).
    unfold conc_values_of. rewrite Htop. repeat constructor.
    unfold narrow_max_conc in Hnarrow. rewrite Hmax in Hnarrow.
    repeat case_decide; simplify_eq; lia.
Qed.

(** X5: in a full sweep with [--min-conc], a step of at least 1 and a
    [--max-conc] that is absent or not below [--min-conc], no emitted
    concurrency is below the bound. *)
Theorem full_sweep_min_conc_respected fuel args all_config_data runner_data min_conc out :
  fs_min_conc args = Some min_conc →
  (∀ max_conc, fs_max_conc args = Some max_conc → min_conc ≤ max_conc) →
  1 ≤ fs_step_size args →
  generate_full_sweep validate_matrix_entry fuel args all_config_data runner_data = Ok out →
  Forall (λ e, Forall (λ c, min_conc ≤ c) (conc_values_of e)) out.
Proof.
  intros Hmin Hmax Hstep H. apply Forall_forall. intros e He.
  destruct (generate_full_sweep_entries _ _ _ _ _ _ H e He)
    as (key & val & nodes & seq & bmk & o & _ & _ & _ & Hpt & Heo).
  unfold full_sweep_point in Hpt.
  repeat case_match; try (injection Hpt as <-; by apply elem_of_nil in Heo).
  - destruct (full_sweep_multinode_entries _ _ _ _ _ _ _ _ _ Hpt e Heo)
      as (_ & _ & _ & p & d & values & cv & _ & Hcv & Htop).
    unfold conc_values_of. rewrite Htop, Hmin in *.
    destruct (filter_min_conc _ values) as [cv1|] eqn:Hcv1; [|done]. simpl in Hcv.
    apply filter_min_conc_ge in Hcv1 as (_ & _ & Hge).
    by eapply filter_max_conc_ge.
  - destruct (full_sweep_single_node_conc _ _ _ _ _ _ _ _ Hpt e Heo)
      as (cs0 & ce0 & cs1 & cs & ce & tp & ep & dp & conc
          & _ & _ & Hnmin & Hnmax & Htop & _ & Hge).
    unfold conc_values_of. rewrite Htop. repeat constructor.
    unfold narrow_min_conc in Hnmin. rewrite Hmin in Hnmin.
    unfold narrow_max_conc in Hnmax.
    destruct (fs_max_conc args) as [M|].
    + specialize (Hmax M eq_refl).
      repeat case_decide; simplify_eq; (etrans; [|apply Hge; [lia | done]]); lia.
    + repeat case_decide; simplify_eq. etrans; [|apply Hge; [lia | done]]. lia.
Qed.

(** X6: the bounds [--max-tp] and [--max-ep] of a full sweep concern
    single-node entries only.  Every single-node entry that is emitted with
    [--max-tp] given has a TP of at most the bound, and the bound is then
    positive: a bound of zero or less leaves no single-node entry; likewise
    for [--max-ep] and the entry's EP, the default EP of 1 included.  What the
    multinode branch emits for a point does not depend on the two bounds. *)
Theorem full_sweep_max_tp_ep_respected fuel args all_config_data runner_data out :
  generate_full_sweep validate_matrix_entry fuel args all_config_data runner_data = Ok out →
  Forall (λ e,
    (∀ max_tp tp, fs_max_tp args = Some max_tp → entry_tp e = Some tp → 0 < max_tp ∧ tp ≤ max_tp)
    ∧ (∀ max_ep ep, fs_max_ep args = Some max_ep → entry_ep e = Some ep →
         0 < max_ep ∧ ep ≤ max_ep)) out
  ∧ (∀ max_tp max_ep val nodes isl0 osl0 bmk,
       full_sweep_multinode validate_matrix_entry fuel
         (with_max_ep (with_max_tp args max_tp) max_ep) val nodes isl0 osl0 bmk
       = full_sweep_multinode validate_matrix_entry fuel args val nodes isl0 osl0 bmk).
Proof.
  intros H. split; [|done]. apply Forall_forall. intros e He.
  destruct (generate_full_sweep_entries _ _ _ _ _ _ H e He)
    as (key & val & nodes & seq & bmk & o & _ & _ & _ & Hpt & Heo).
  unfold full_sweep_point in Hpt.
  repeat case_match; try (injection Hpt as <-; by apply elem_of_nil in Heo).
  - destruct (full_sweep_multinode_entries _ _ _ _ _ _ _ _ _ Hpt e Heo)
      as (_ & _ & _ & p & d & values & cv & _ & _ & Htop).
    unfold entry_tp, entry_ep. rewrite Htop. by split.
  - destruct (full_sweep_single_node_entries _ _ _ _ _ _ _ _ _ Hpt e Heo)
      as (_ & _ & _ & tp0 & tp & ep & conc & _ & Htp & Hep & Htop).
    unfold entry_tp, entry_ep. rewrite Htop. split.
    + intros m tp' Hm [= <-]. unfold clamp_tp in Htp. rewrite Hm in Htp.
      repeat case_decide; simplify_eq; lia.
    + intros m ep' Hm [= <-]. unfold clamp_ep in Hep. rewrite Hm in Hep.
      repeat case_match; repeat case_decide; simplify_eq; simpl; lia.
Qed.

End full_sweep_bounds.

Lemma full_sweep_max_conc_respected_witness :
  ∃ out,
    generate_full_sweep accept_all 8 filtered_sweep sample_catalog sample_runners = Ok out
    ∧ length out = 6%nat
    ∧ Forall (λ e, Forall (λ c, c ≤ 4) (conc_values_of e)) out.
Proof.
  eexists. split; [vm_compute; reflexivity|]. split; [reflexivity|].
  apply (full_sweep_max_conc_respected accept_all 8 filtered_sweep sample_catalog
           sample_runners 4 _ eq_refl). vm_compute. reflexivity.
Defined.

Lemma full_sweep_min_conc_respected_witness :
  ∃ out,
    generate_full_sweep accept_all 8 filtered_sweep sample_catalog sample_runners = Ok out
    ∧ length out = 6%nat
    ∧ Forall (λ e, Forall (λ c, 2 ≤ c) (conc_values_of e)) out.
Proof.
  eexists. split; [vm_compute; reflexivity|]. split; [reflexivity|].
  apply (full_sweep_min_conc_respected accept_all 8 filtered_sweep sample_catalog
           sample_runners 2 _ eq_refl).
  - intros M [= <-]. lia.
  - simpl. lia.
  - vm_compute. reflexivity.
Defined.

Lemma full_sweep_max_tp_ep_respected_witness :
  ∃ out multi,
    generate_full_sweep accept_all 8 filtered_sweep sample_catalog sample_runners = Ok out
    ∧ length out = 6%nat
    ∧ Forall (λ e, (∀ tp, entry_tp e = Some tp → tp ≤ 4)
                   ∧ (∀ ep, entry_ep e = Some ep → ep ≤ 1)) out
    ∧ full_sweep_multinode accept_all 8
        (with_max_ep (with_max_tp filtered_sweep (Some 0)) (Some 0))
        (sample_config true []) None 1024 8192 (list_point [4; 64]) = Ok multi
    ∧ length multi = 1%nat.
Proof.
  eexists _, _. split; [vm_compute; reflexivity|]. split; [reflexivity|].
  destruct (full_sweep_max_tp_ep_respected accept_all 8 filtered_sweep sample_catalog
              sample_runners _ eq_refl) as [Hall Hmulti].
  split; [|split].
  - eapply Forall_impl; [exact Hall|].
    intros e [Htp Hep]. split.
    + intros tp Htp'. by apply (Htp 4 tp eq_refl).
    + intros ep Hep'. by apply (Hep 1 ep eq_refl).
  - rewrite Hmulti. vm_compute. reflexivity.
  - reflexivity.
Defined.

(** ** full-sweep, single-node branch: the order of emission *)

(** When no run of the body raises, a loop returns, in order, what its runs
    return. *)
Lemma for_each_total {A B} (f : A → list B) (body : A → result (list B)) l :
  (∀ a, a ∈ l → body a = Ok (f a)) → for_each body l = Ok (concat (f <$> l)).
Proof.
  induction l as [|a l IH]; intros H; [done|]. cbn [for_each].
  rewrite H by left. rewrite IH; [done|]. intros a' Ha'. apply H. by right.
Qed.

Section accepted_single_node.

Variable validate_matrix_entry : MatrixEntry → bool → bool.
Hypothesis validate_accepts : ∀ entry is_multinode,
  validate_matrix_entry entry is_multinode = true.

(** X7: for a single-node point whose bounds leave the range
    [(conc_start, conc_end)], and whose expansion is [values], full-sweep
    emits one entry for each value and each runner node, the values in
    expansion order and, for each value, the nodes in their order: so
    [length values * length runners] entries. *)
Theorem full_sweep_single_node_order fuel args val nodes isl0 osl0 bmk
    tp0 conc_start0 conc_end0 tp ep conc_start1 conc_start conc_end values :
  bmk_tp bmk = Some tp0 →
  bmk_conc_start bmk = Some conc_start0 →
  bmk_conc_end bmk = Some conc_end0 →
  clamp_tp (fs_max_tp args) tp0 = Some tp →
  clamp_ep (fs_max_ep args) (bmk_ep bmk) = Some ep →
  narrow_min_conc (fs_min_conc args) conc_start0 conc_end0 = Some conc_start1 →
  narrow_max_conc (fs_max_conc args) conc_start1 conc_end0 = Some (conc_start, conc_end) →
  conc_range fuel conc_start conc_end (fs_step_size args) = Ok values →
  let runners := runners_for_entry nodes (cfg_runner val) in
  ∃ out,
    full_sweep_single_node validate_matrix_entry fuel args val nodes isl0 osl0 bmk = Ok out
    ∧ (λ e, (tp_conc e, runner e)) <$> out
      = concat ((λ conc, (λ r, (Some (tp, conc), r)) <$> runners) <$> values)
    ∧ length out = (length values * length runners)%nat.
Proof.
  intros Htp0 Hcs0 Hce0 Htp Hep Hmin Hmax Hvalues runners.
  unfold full_sweep_single_node. rewrite Htp0, Hcs0, Hce0. simpl.
  rewrite Htp. simpl. rewrite Hep. simpl. rewrite Hmin. simpl. rewrite Hmax. simpl.
  rewrite (conc_sweep_range _ _ _ _ _ _ Hvalues).
  erewrite for_each_total; [|intros conc _; apply (for_each_validated _ validate_accepts)].
  eexists. split; [done|]. fold runners. clear Hvalues.
  induction values as [|c values [IH1 IH2]]; [done|].
  rewrite !fmap_cons. simpl. rewrite fmap_app, length_app, !length_fmap, IH1, IH2.
  split; [|done]. f_equal. rewrite <-list_fmap_compose. done.
Qed.

End accepted_single_node.

Lemma full_sweep_single_node_order_witness :
  ∃ out,
    full_sweep_single_node accept_all 8 filtered_sweep (sample_config false [])
      (Some ["h200-dgx_0"; "h200-dgx_1"]) 1024 8192 (range_point 8 1 8) = Ok out
    ∧ (λ e, (tp_conc e, runner e)) <$> out
      = [(Some (4, 2), "h200-dgx_0"); (Some (4, 2), "h200-dgx_1");
         (Some (4, 4), "h200-dgx_0"); (Some (4, 4), "h200-dgx_1")]
    ∧ length out = 4%nat.
Proof.
  apply (full_sweep_single_node_order accept_all (λ _ _, eq_refl) 8 filtered_sweep
           (sample_config false []) (Some ["h200-dgx_0"; "h200-dgx_1"]) 1024 8192
           (range_point 8 1 8) 8 1 8 4 None 2 2 4 [2; 4]); reflexivity.
Defined.

(** ** runner-model-sweep: the resolved nodes *)

Lemma occurs_in_head sub rest : occurs_in sub (sub +:+ rest).
Proof. by exists "", rest. Qed.

Section runner_sweep_nodes.

Variable validate_matrix_entry : MatrixEntry → bool → bool.

(** X8: runner-model-sweep raises, whatever the catalog holds, when the
    inventory has no node for the runner type (the message names the type and
    every type of the inventory) and when the node filter matches no node of
    the type (the message names the filter and the type).  Otherwise the
    resolved node list is not empty and holds nodes of the type only, each
    containing the filter text when a filter is given. *)
Theorem runner_sweep_node_errors args all_config_data runner_data :
  let sweep := generate_runner_model_sweep_config validate_matrix_entry args all_config_data
                 runner_data in
  let listed := default [] (dict_get (rs_runner_type args) runner_data) in
  (listed = [] →
   ∃ msg, sweep = Err (ValueError msg)
          ∧ occurs_in (rs_runner_type args) msg
          ∧ ∀ k, k ∈ dict_keys runner_data → occurs_in k msg)
  ∧ (∀ f, listed ≠ [] → truthy_filter (rs_runner_node_filter args) = Some f →
          Forall (λ node, substring_of f node ≠ true) listed →
          ∃ msg, sweep = Err (ValueError msg)
                 ∧ occurs_in f msg ∧ occurs_in (rs_runner_type args) msg)
  ∧ (∀ runner_nodes, resolve_runner_nodes args runner_data = Ok runner_nodes →
       runner_nodes ≠ []
       ∧ ∀ node, node ∈ runner_nodes →
           node ∈ listed
           ∧ ∀ f, truthy_filter (rs_runner_node_filter args) = Some f →
                  substring_of f node = true).
Proof.
  intros sweep listed. subst sweep listed.
  unfold generate_runner_model_sweep_config, resolve_runner_nodes.
  split; [|split].
  - intros Hnone.
    destruct (dict_get _ runner_data) as [[|n l]|]; simpl in Hnone; try done;
      (eexists; split; [done|]; split;
       [apply occurs_in_app_r, occurs_in_head
       |intros k Hk; do 5 apply occurs_in_app_r; by apply occurs_in_app_l, occurs_in_concat]).
  - intros f Hne Hf Hnomatch. rewrite Hf.
    destruct (dict_get _ runner_data) as [[|n l]|]; simpl in Hne; try done.
    simpl in Hnomatch.
    replace (filter (λ node, substring_of f node = true) (n :: l)) with (@nil string).
    2:{ symmetry. by apply filter_nil_iff. }
    eexists. split; [done|]. split.
    + apply occurs_in_app_r, occurs_in_head.
    + do 3 apply occurs_in_app_r. apply occurs_in_head.
  - intros runner_nodes H.
    destruct (dict_get _ runner_data) as [[|n l]|]; try done. simpl.
    destruct (truthy_filter _) as [f|].
    + destruct (filter (λ node, substring_of f node = true) (n :: l)) as [|n' l'] eqn:Hfilter;
        [done|]. injection H as <-. split; [done|]. intros node Hnode.
      rewrite <-Hfilter in Hnode. apply list_elem_of_filter in Hnode as [? ?].
      split; [done|]. by intros ? [= <-].
    + injection H as <-. split; [done|]. intros node Hnode. split; done.
Qed.

End runner_sweep_nodes.

Lemma runner_sweep_node_errors_witness :
  ∃ msg,
    generate_runner_model_sweep_config accept_all runner_sweep_single_node sample_catalog
      [("b200", ["b200-nv_0"]); ("h200", [])] = Err (ValueError msg)
    ∧ occurs_in "h200" msg ∧ occurs_in "b200" msg.
Proof.
  destruct (proj1 (runner_sweep_node_errors accept_all runner_sweep_single_node sample_catalog
                     [("b200", ["b200-nv_0"]); ("h200", [])]) eq_refl)
    as (msg & Hmsg & Htype & Hkeys).
  exists msg. split; [exact Hmsg|]. split; [exact Htype|]. apply Hkeys. left.
Defined.

(** ** runner-model-sweep, multinode branch *)

Lemma get_lowest_conc_Some bmk x : get_lowest_conc bmk = Some x ↔ lowest_listed_conc bmk x.
Proof.
  unfold get_lowest_conc, lowest_listed_conc. split.
  - destruct (bmk_conc_list bmk) as [[|c l]|]; [done| |done]. intros [= <-].
    exists c, l. split; [done|]. apply fold_left_min_spec.
  - intros (c & l & -> & Hin & Hle). f_equal.
    destruct (fold_left_min_spec l c) as [Hin' Hle']. simpl in *.
    apply Z.le_antisymm; [by apply Hle' | by apply Hle].
Qed.

Lemma get_lowest_conc_None bmk :
  get_lowest_conc bmk = None ↔ bmk_conc_list bmk = None ∨ bmk_conc_list bmk = Some [].
Proof.
  unfold get_lowest_conc. destruct (bmk_conc_list bmk) as [[|c l]|]; split; try done; auto.
  by intros [|].
Qed.

Lemma key_lt_false_trans a b c :
  key_lt b a = false → key_lt c b = false → key_lt c a = false.
Proof.
  destruct a, b, c; simpl; rewrite ?bool_decide_eq_false; try done; lia.
Qed.

Lemma key_lt_false_refl a : key_lt a a = false.
Proof. destruct a; simpl; [|done]. apply bool_decide_eq_false. lia. Qed.

Lemma key_lt_true_false a b : key_lt a b = true → key_lt b a = false.
Proof.
  destruct a, b; simpl; rewrite ?bool_decide_eq_true, ?bool_decide_eq_false; try done; lia.
Qed.

(** [min(l, key=get_lowest_conc)] returns a point that no point of [l] has
    a smaller key than. *)
Lemma min_by_lowest_conc_spec (l : list BenchmarkPoint) : l ≠ [] →
  ∃ b, min_by_lowest_conc l = Ok b ∧ b ∈ l
       ∧ ∀ b', b' ∈ l → key_lt (get_lowest_conc b') (get_lowest_conc b) = false.
Proof.
  destruct l as [|x0 l]; [done|]. intros _. simpl. eexists. split; [done|].
  revert x0. induction l as [|x l IH]; intros x0; simpl.
  { split; [left|]. intros y ->%list_elem_of_singleton. apply key_lt_false_refl. }
  set (x1 := if key_lt (get_lowest_conc x) (get_lowest_conc x0) then x else x0).
  destruct (IH x1) as [Hin Hle].
  assert (key_lt (get_lowest_conc x) (get_lowest_conc x1) = false
          ∧ key_lt (get_lowest_conc x0) (get_lowest_conc x1) = false) as [Hx Hx0].
  { unfold x1. destruct (key_lt (get_lowest_conc x) (get_lowest_conc x0)) eqn:Hlt.
    - split; [apply key_lt_false_refl | by apply key_lt_true_false].
    - split; [done | apply key_lt_false_refl]. }
  split.
  - apply elem_of_cons in Hin as [-> | Hin]; [|by do 2 right].
    unfold x1. case_match; [right; left | left].
  - intros y Hy. apply elem_of_cons in Hy as [-> | Hy].
    + eapply key_lt_false_trans; [apply Hle; left | done].
    + apply elem_of_cons in Hy as [-> | Hy]; [|apply Hle; by right].
      eapply key_lt_false_trans; [apply Hle; left | done].
Qed.

Lemma multinode_conc_spec override bmk :
  resolved_multinode_conc override bmk (multinode_conc override bmk).
Proof.
  unfold resolved_multinode_conc, multinode_conc.
  destruct override as [c|]; [split; [by intros ? [= ->]|split; done]|].
  split; [done|]. split.
  - intros _ x Hx%get_lowest_conc_Some. by rewrite Hx.
  - intros _ Hnone%get_lowest_conc_None. by rewrite Hnone.
Qed.

Lemma rebuild_worker_spec w :
  complete_worker w → ∃ w', rebuild_worker w = Ok w' ∧ rebuilt_from w w'.
Proof.
  intros ([nw Hnw] & [tp Htp] & [ep Hep] & [dp Hdp]).
  unfold rebuild_worker. rewrite Hnw, Htp, Hep, Hdp. simpl.
  eexists. split; [done|]. unfold rebuilt_from. simpl. by rewrite Hnw, Htp, Hep, Hdp.
Qed.

Lemma for_each_ext {A B} (f g : A → result (list B)) l :
  (∀ a, a ∈ l → f a = g a) → for_each f l = for_each g l.
Proof.
  induction l as [|a l IH]; intros Hfg; [done|]. cbn [for_each].
  rewrite (Hfg a) by left. rewrite IH; [done|]. intros; apply Hfg; by right.
Qed.

Section accepted_runner_sweep_multinode.

Variable validate_matrix_entry : MatrixEntry → bool → bool.
Hypothesis validate_accepts : ∀ entry is_multinode,
  validate_matrix_entry entry is_multinode = true.

(** X9: in runner-model-sweep, for a matching multinode configuration with a
    profile [isl = osl = 1024] whose search space is not empty and whose
    points all have prefill and decode workers with the four keys read: the
    point selected has the least lowest listed concurrency (a point with a
    non-empty list is preferred to one without); the concurrency is the
    override when given, else the least value of that point's list, else its
    range start, or 1; and exactly one entry per resolved runner node is
    emitted, in node order, each carrying the one-element list of that
    concurrency and the point's workers rebuilt key by key. *)
Theorem runner_sweep_multinode_lowest_conc args runner_nodes key val target :
  cfg_runner val = rs_runner_type args →
  prefix_mismatch (rs_model_prefix args) key = false →
  not_among (rs_precision args) (cfg_precision val) = false →
  not_among (rs_framework args) (cfg_framework val) = false →
  default false (cfg_multinode val) = true →
  rs_single_node args = false →
  find_1k1k (seq_len_configs val) = Some target →
  search_space target ≠ [] →
  (∀ b, b ∈ search_space target →
     ∃ p d, bmk_prefill b = Some p ∧ bmk_decode b = Some d
            ∧ complete_worker p ∧ complete_worker d) →
  ∃ bmk p d conc out,
    bmk ∈ search_space target
    ∧ bmk_prefill bmk = Some p ∧ bmk_decode bmk = Some d
    ∧ (∀ b x, b ∈ search_space target → lowest_listed_conc b x →
         ∃ y, lowest_listed_conc bmk y ∧ y ≤ x)
    ∧ resolved_multinode_conc (rs_conc args) bmk conc
    ∧ runner_sweep_config validate_matrix_entry args runner_nodes key val = Ok out
    ∧ runner <$> out = runner_nodes
    ∧ Forall (λ e, ∃ p' d', topology e = MultiNode p' d' [conc]
                            ∧ rebuilt_from p p' ∧ rebuilt_from d d'
                            ∧ spec_decoding e = default "none" (bmk_spec_decoding bmk)) out.
Proof.
  intros Hrunner Hprefix Hprec Hfw Hmulti Hsingle Htarget Hne Hpoints.
  unfold runner_sweep_config.
  rewrite bool_decide_eq_false_2 by (by intros ?).
  rewrite Hprefix, Hprec, Hfw, Hmulti, Hsingle, Htarget. simpl.
  rewrite andb_false_r.
  destruct (min_by_lowest_conc_spec (search_space target) Hne) as (bmk & Hmin & Hin & Hle).
  rewrite Hmin. simpl.
  destruct (Hpoints bmk Hin) as (p & d & Hp & Hd & Hcp & Hcd).
  rewrite Hp, Hd. simpl.
  destruct (rebuild_worker_spec p Hcp) as (p' & Hp' & Hrp).
  destruct (rebuild_worker_spec d Hcd) as (d' & Hd' & Hrd).
  erewrite for_each_ext; last first.
  { intros node _. rewrite Hp', Hd'. simpl. reflexivity. }
  rewrite (for_each_validated _ validate_accepts).
  exists bmk, p, d, (multinode_conc (rs_conc args) bmk). eexists.
  split; [done|]. split; [done|]. split; [done|]. split; [|split; [|split; [done|split]]].
  - intros b x Hb Hx%get_lowest_conc_Some. specialize (Hle b Hb). rewrite Hx in Hle.
    destruct (get_lowest_conc bmk) as [y|] eqn:Hy; [|done].
    exists y. split; [by apply get_lowest_conc_Some|].
    simpl in Hle. apply bool_decide_eq_false in Hle. lia.
  - apply multinode_conc_spec.
  - rewrite <-list_fmap_compose. apply list_fmap_id.
  - apply Forall_fmap, Forall_forall. intros node _. simpl. by exists p', d'.
Qed.

End accepted_runner_sweep_multinode.

Lemma runner_sweep_multinode_lowest_conc_witness :
  let target := profile 1024 1024 [list_point [16; 8; 32]; list_point [4; 64]; list_point []] in
  let val := sample_config true [target] in
  ∃ bmk p d conc out,
    bmk ∈ search_space target
    ∧ bmk_prefill bmk = Some p ∧ bmk_decode bmk = Some d
    ∧ (∀ b x, b ∈ search_space target → lowest_listed_conc b x →
         ∃ y, lowest_listed_conc bmk y ∧ y ≤ x)
    ∧ resolved_multinode_conc None bmk conc
    ∧ runner_sweep_config accept_all runner_sweep_multi_node ["h200-dgx_0"; "h200-dgx_1"]
        "dsr1-fp8-h200-dynamo" val = Ok out
    ∧ runner <$> out = ["h200-dgx_0"; "h200-dgx_1"]
    ∧ Forall (λ e, ∃ p' d', topology e = MultiNode p' d' [conc]
                            ∧ rebuilt_from p p' ∧ rebuilt_from d d'
                            ∧ spec_decoding e = default "none" (bmk_spec_decoding bmk)) out.
Proof.
  apply (runner_sweep_multinode_lowest_conc accept_all (λ _ _, eq_refl)
           runner_sweep_multi_node ["h200-dgx_0"; "h200-dgx_1"] "dsr1-fp8-h200-dynamo"
           (sample_config true [profile 1024 1024 [list_point [16; 8; 32]; list_point [4; 64];
                                                   list_point []]])
           (profile 1024 1024 [list_point [16; 8; 32]; list_point [4; 64]; list_point []]));
    try reflexivity.
  - discriminate.
  - intros b Hb. exists sample_worker, sample_worker. simpl in Hb.
    repeat (apply elem_of_cons in Hb as [-> | Hb]);
      try (split; [reflexivity|]; split; [reflexivity|];
           split; (split; [eexists; reflexivity|]; split; [eexists; reflexivity|];
                   split; eexists; reflexivity)).
    by apply elem_of_nil in Hb.
Defined.

(** ** runner-model-sweep: where the entries come from *)

Lemma resolve_runner_nodes_Ok args runner_data runner_nodes :
  resolve_runner_nodes args runner_data = Ok runner_nodes →
  runner_nodes ≠ []
  ∧ ∀ node, node ∈ runner_nodes →
      node ∈ default [] (dict_get (rs_runner_type args) runner_data)
      ∧ ∀ f, truthy_filter (rs_runner_node_filter args) = Some f → substring_of f node = true.
Proof.
  unfold resolve_runner_nodes. intros H.
  destruct (dict_get _ runner_data) as [[|n l]|]; [done| |done].
  destruct (truthy_filter _) as [f|].
  - destruct (filter _ (n :: l)) as [|n' l'] eqn:Hf; [done|]. injection H as <-.
    split; [done|]. intros node Hnode. rewrite <-Hf in Hnode.
    apply list_elem_of_filter in Hnode as [Hsub Hin]. split; [done|]. by intros ? [= <-].
  - injection H as <-. split; [done|]. intros node Hnode. split; done.
Qed.

Section runner_sweep_origin.

Variable validate_matrix_entry : MatrixEntry → bool → bool.

(** The fields that a runner-model-sweep entry takes from its configuration,
    and the shape it has. *)
Lemma runner_sweep_config_fields args runner_nodes key val out :
  runner_sweep_config validate_matrix_entry args runner_nodes key val = Ok out →
  ∀ e, e ∈ out →
    cfg_runner val = rs_runner_type args
    ∧ prefix_mismatch (rs_model_prefix args) key = false
    ∧ not_among (rs_precision args) (cfg_precision val) = false
    ∧ not_among (rs_framework args) (cfg_framework val) = false
    ∧ (rs_single_node args = true → default false (cfg_multinode val) = false)
    ∧ (rs_multi_node args = true → default false (cfg_multinode val) = true)
    ∧ image e = cfg_image val ∧ model e = cfg_model val
    ∧ model_prefix e = cfg_model_prefix val ∧ precision e = cfg_precision val
    ∧ framework e = cfg_framework val
    ∧ runner e ∈ runner_nodes
    ∧ exp_name e = cfg_model_prefix val +:+ "_test"
    ∧ disagg e = default false (cfg_disagg val)
    ∧ run_eval e = false
    ∧ (if default false (cfg_multinode val) then conc_is_list e ∧ length (conc_values_of e) = 1%nat
       else conc_is_scalar e).
Proof.
  unfold runner_sweep_config. intros H e He.
  case_bool_decide as Hrunner; [by (injection H as <-; apply elem_of_nil in He)|].
  destruct (prefix_mismatch _ _) eqn:Hprefix; [by (injection H as <-; apply elem_of_nil in He)|].
  destruct (not_among (rs_precision args) _) eqn:Hprec;
    [by (injection H as <-; apply elem_of_nil in He)|].
  destruct (not_among (rs_framework args) _) eqn:Hfw;
    [by (injection H as <-; apply elem_of_nil in He)|].
  simpl in H.
  destruct (rs_single_node args && default false (cfg_multinode val)) eqn:Hsn;
    [by (injection H as <-; apply elem_of_nil in He)|].
  destruct (rs_multi_node args && negb (default false (cfg_multinode val))) eqn:Hmn;
    [by (injection H as <-; apply elem_of_nil in He)|].
  destruct (find_1k1k _) as [target|]; [|by (injection H as <-; apply elem_of_nil in He)].
  assert (cfg_runner val = rs_runner_type args) as Hr.
  { by destruct (decide (cfg_runner val = rs_runner_type args)). }
  split; [done|]. do 3 (split; [done|]).
  split; [intros Hs; rewrite Hs in Hsn; by destruct (default false (cfg_multinode val))|].
  split; [intros Hm; rewrite Hm in Hmn; by destruct (default false (cfg_multinode val))|].
  destruct (default false (cfg_multinode val)).
  - inv_bind H. inv_bind H. inv_bind H.
    destruct (for_each_Ok_inv _ _ _ H e He) as (node & o & Hnode & Ho & Heo).
    simpl in Ho. inv_bind Ho. inv_bind Ho.
    apply validated_Ok in Ho as ->. apply list_elem_of_singleton in Heo as ->. simpl.
    repeat (split; [done|]). split; [|done]. by eexists _, _, _.
  - inv_bind H. inv_bind H. inv_bind H. inv_bind H.
    apply for_each_validated_Ok in H as ->.
    apply list_elem_of_fmap in He as (node & -> & Hnode). simpl.
    repeat (split; [done|]). by eexists _, _, _, _.
Qed.

(** X10: every entry of a runner-model sweep runs on a node that the
    inventory lists for the requested runner type (and that contains the
    node filter, when one is given), and comes from a catalog entry of that
    runner type that passes the prefix, precision and framework filters and
    has the requested node mode.  The entry carries that catalog entry's
    image, model, model prefix, precision and framework, the sequence
    lengths (1024, 1024), the experiment name [<model prefix>_test] and a
    false eval flag; for a multinode configuration its concurrency is a list
    of one value, else a single value. *)
Theorem runner_sweep_provenance args all_config_data runner_data out :
  generate_runner_model_sweep_config validate_matrix_entry args all_config_data runner_data
    = Ok out →
  Forall (λ e,
    runner e ∈ default [] (dict_get (rs_runner_type args) runner_data)
    ∧ (∀ f, truthy_filter (rs_runner_node_filter args) = Some f →
         substring_of f (runner e) = true)
    ∧ isl e = 1024 ∧ osl e = 1024 ∧ run_eval e = false
    ∧ ∃ key val,
        (key, val) ∈ all_config_data
        ∧ cfg_runner val = rs_runner_type args
        ∧ (given (rs_model_prefix args) ≠ [] →
             ∃ prefix, prefix ∈ given (rs_model_prefix args) ∧ String.prefix prefix key = true)
        ∧ (given (rs_precision args) ≠ [] → precision e ∈ given (rs_precision args))
        ∧ (given (rs_framework args) ≠ [] → framework e ∈ given (rs_framework args))
        ∧ (rs_single_node args = true → default false (cfg_multinode val) = false)
        ∧ (rs_multi_node args = true → default false (cfg_multinode val) = true)
        ∧ image e = cfg_image val ∧ model e = cfg_model val
        ∧ model_prefix e = cfg_model_prefix val
        ∧ precision e = cfg_precision val ∧ framework e = cfg_framework val
        ∧ exp_name e = cfg_model_prefix val +:+ "_test"
        ∧ disagg e = default false (cfg_disagg val)
        ∧ (if default false (cfg_multinode val)
           then conc_is_list e ∧ length (conc_values_of e) = 1%nat
           else conc_is_scalar e)) out.
Proof.
  intros H. apply Forall_forall. intros e He.
  destruct (generate_runner_model_sweep_entries _ _ _ _ _ H e He)
    as (runner_nodes & key & val & o & Hnodes & Hkv & Hcfg & Heo).
  destruct (resolve_runner_nodes_Ok _ _ _ Hnodes) as [_ Hlisted].
  destruct (runner_sweep_config_entries _ _ _ _ _ _ Hcfg e Heo) as (Hisl & Hosl & _).
  destruct (runner_sweep_config_fields _ _ _ _ _ Hcfg e Heo)
    as (Hr & Hprefix & Hprec & Hfw & Hsn & Hmn & Himg & Hmodel & Hmp & Hp & Hf & Hnode
        & Hexp & Hdis & Hrun & Hshape).
  destruct (Hlisted _ Hnode) as [Hin Hsub].
  do 5 (split; [done|]). exists key, val. do 2 (split; [done|]).
  split; [by apply prefix_mismatch_false|].
  split; [rewrite Hp; by apply not_among_false|].
  split; [rewrite Hf; by apply not_among_false|].
  by repeat (split; [done|]).
Qed.

End runner_sweep_origin.

Lemma runner_sweep_provenance_witness :
  ∃ out,
    generate_runner_model_sweep_config accept_all runner_sweep_multi_node multinode_catalog
      sample_runners = Ok out
    ∧ length out = 2%nat
    ∧ Forall (λ e,
        runner e ∈ default [] (dict_get "h200" sample_runners)
        ∧ (∀ f, truthy_filter (Some "dgx") = Some f → substring_of f (runner e) = true)
        ∧ isl e = 1024 ∧ osl e = 1024 ∧ run_eval e = false
        ∧ ∃ key val,
            (key, val) ∈ multinode_catalog
            ∧ cfg_runner val = "h200"
            ∧ (given (Some ["dsr1"]) ≠ [] →
                 ∃ prefix, prefix ∈ given (Some ["dsr1"]) ∧ String.prefix prefix key = true)
            ∧ (given (None : option (list string)) ≠ [] → precision e ∈ given None)
            ∧ (given (None : option (list string)) ≠ [] → framework e ∈ given None)
            ∧ (false = true → default false (cfg_multinode val) = false)
            ∧ (true = true → default false (cfg_multinode val) = true)
            ∧ image e = cfg_image val ∧ model e = cfg_model val
            ∧ model_prefix e = cfg_model_prefix val
            ∧ precision e = cfg_precision val ∧ framework e = cfg_framework val
            ∧ exp_name e = cfg_model_prefix val +:+ "_test"
            ∧ disagg e = default false (cfg_disagg val)
            ∧ (if default false (cfg_multinode val)
               then conc_is_list e ∧ length (conc_values_of e) = 1%nat
               else conc_is_scalar e)) out.
Proof.
  eexists. split; [vm_compute; reflexivity|]. split; [reflexivity|].
  apply (runner_sweep_provenance accept_all runner_sweep_multi_node multinode_catalog
           sample_runners).
  vm_compute; reflexivity.
Defined.

(** ** test-config: the concurrency allow-list and the fields of an entry *)

Lemma test_config_conc_values_Some fuel args bmk cv :
  test_config_conc_values fuel args bmk = Ok (Some cv) →
  ∃ values,
    match bmk_conc_list bmk with
    | Some l => values = l
    | None => ∃ conc_start conc_end,
        bmk_conc_start bmk = Some conc_start ∧ bmk_conc_end bmk = Some conc_end
        ∧ conc_range fuel conc_start conc_end 2 = Ok values
    end
    ∧ if decide (given (tc_conc args) = [])
      then cv = values
      else cv ≠ [] ∧ cv = filter (λ c, c ∈ given (tc_conc args)) values.
Proof.
  unfold test_config_conc_values. intros H. inv_bind H. exists a. split.
  - destruct (bmk_conc_list bmk) as [l|]; [by injection Ha as <-|].
    inv_bind Ha. inv_bind Ha. apply require_Ok in Ha0, Ha1. by exists a0, a1.
  - case_bool_decide as Hc; destruct (decide (given (tc_conc args) = [])); try done.
    + destruct (filter _ a) eqn:Hf; [done|]. injection H as <-. done.
    + by injection H as <-.
Qed.

Section test_config_entries.

Variable validate_matrix_entry : MatrixEntry → bool → bool.

(** What test-config emits for one point: the fields taken from the
    configuration and the point, and concurrency values among those that the
    point resolves to. *)
Lemma test_config_point_fields fuel args val isl0 osl0 bmk out :
  test_config_point validate_matrix_entry fuel args val isl0 osl0 bmk = Ok out →
  ∀ e, e ∈ out →
    image e = cfg_image val ∧ model e = cfg_model val
    ∧ model_prefix e = cfg_model_prefix val ∧ precision e = cfg_precision val
    ∧ framework e = cfg_framework val ∧ runner e = cfg_runner val
    ∧ isl e = isl0 ∧ osl e = osl0
    ∧ spec_decoding e = default "none" (bmk_spec_decoding bmk)
    ∧ exp_name e = cfg_model_prefix val +:+ "_" +:+ seq_len_to_str isl0 osl0
    ∧ disagg e = default false (cfg_disagg val)
    ∧ run_eval e = false
    ∧ (if default false (cfg_multinode val) then conc_is_list e else conc_is_scalar e)
    ∧ ∃ cv, test_config_conc_values fuel args bmk = Ok (Some cv)
            ∧ if default false (cfg_multinode val) then conc_values_of e = cv
              else ∃ conc, conc_values_of e = [conc] ∧ conc ∈ cv.
Proof.
  unfold test_config_point, conc_values_of, conc_is_list, conc_is_scalar. intros H e He.
  destruct (default false (cfg_multinode val)).
  - inv_bind H. inv_bind H. inv_bind H.
    destruct a1 as [cv|]; [|injection H as <-; by apply elem_of_nil in He].
    apply validated_Ok in H as ->. apply list_elem_of_singleton in He as ->. simpl.
    repeat (split; [done|]). split; [by eexists _, _, _|]. by exists cv.
  - inv_bind H. inv_bind H.
    destruct a0 as [cv|]; [|injection H as <-; by apply elem_of_nil in He].
    apply for_each_validated_Ok in H as ->.
    apply list_elem_of_fmap in He as (c & -> & Hc). simpl.
    repeat (split; [done|]). split; [by eexists _, _, _, _|].
    exists cv. split; [done|]. by exists c.
Qed.

(** X11: with the [--conc] allow-list of test-config, every concurrency
    value of every entry is one of the values allowed, and no entry has an
    empty concurrency list; with or without the allow-list, the values of an
    entry are values of the explicit list of a search-space point of a
    requested configuration, or of its range expanded with step 2. *)
Theorem test_config_conc_allow_list fuel args all_config_data out :
  generate_test_config_sweep validate_matrix_entry fuel args all_config_data = Ok out →
  Forall (λ e,
    (given (tc_conc args) ≠ [] →
       conc_values_of e ≠ [] ∧ ∀ c, c ∈ conc_values_of e → c ∈ given (tc_conc args))
    ∧ ∃ key val seq bmk values,
        key ∈ tc_config_keys args ∧ dict_get key all_config_data = Some val
        ∧ seq ∈ seq_len_configs val ∧ bmk ∈ search_space seq
        ∧ isl e = seq_isl seq ∧ osl e = seq_osl seq
        ∧ match bmk_conc_list bmk with
          | Some l => values = l
          | None => ∃ conc_start conc_end,
              bmk_conc_start bmk = Some conc_start ∧ bmk_conc_end bmk = Some conc_end
              ∧ conc_range fuel conc_start conc_end 2 = Ok values
          end
        ∧ ∀ c, c ∈ conc_values_of e → c ∈ values) out.
Proof.
  intros H. apply Forall_forall. intros e He.
  destruct (generate_test_config_sweep_entries _ _ _ _ _ H e He)
    as (key & val & seq & bmk & o & Hkey & Hval & Hseq & Hbmk & Hpt & Heo).
  destruct (test_config_point_fields _ _ _ _ _ _ _ Hpt e Heo)
    as (_ & _ & _ & _ & _ & _ & Hisl & Hosl & _ & _ & _ & _ & _ & cv & Hcv & Hshape).
  apply test_config_conc_values_Some in Hcv as (values & Hvalues & Hfilter).
  assert ((given (tc_conc args) ≠ [] → conc_values_of e ≠ [])
          ∧ ∀ c, c ∈ conc_values_of e → c ∈ cv) as [Hne Hsub].
  { destruct (default false (cfg_multinode val)).
    - rewrite Hshape. split; [|done]. intros Hgiven.
      destruct (decide (given (tc_conc args) = [])); [done|]. by destruct Hfilter.
    - destruct Hshape as (conc & -> & Hconc). split; [done|].
      by intros c ->%list_elem_of_singleton. }
  split.
  - intros Hgiven. split; [by apply Hne|]. intros c Hc%Hsub.
    destruct (decide (given (tc_conc args) = [])); [done|]. destruct Hfilter as [_ ->].
    by apply list_elem_of_filter in Hc as [? _].
  - exists key, val, seq, bmk, values. repeat (split; [done|]).
    intros c Hc%Hsub. destruct (decide (given (tc_conc args) = [])); [by subst|].
    destruct Hfilter as [_ ->]. by apply list_elem_of_filter in Hc as [_ ?].
Qed.

End test_config_entries.

Lemma test_config_conc_allow_list_witness :
  let args := {| tc_config_keys := ["dsr1-fp8-h200-vllm"]; tc_conc := Some [4; 8; 100] |} in
  ∃ out,
    generate_test_config_sweep accept_all 64 args sample_catalog = Ok out
    ∧ conc_values_of <$> out = [[4]; [8]; [4]; [8]; [8]; [4]; [8]]
    ∧ Forall (λ e,
        (given (tc_conc args) ≠ [] →
           conc_values_of e ≠ [] ∧ ∀ c, c ∈ conc_values_of e → c ∈ given (tc_conc args))
        ∧ ∃ key val seq bmk values,
            key ∈ tc_config_keys args ∧ dict_get key sample_catalog = Some val
            ∧ seq ∈ seq_len_configs val ∧ bmk ∈ search_space seq
            ∧ isl e = seq_isl seq ∧ osl e = seq_osl seq
            ∧ match bmk_conc_list bmk with
              | Some l => values = l
              | None => ∃ conc_start conc_end,
                  bmk_conc_start bmk = Some conc_start ∧ bmk_conc_end bmk = Some conc_end
                  ∧ conc_range 64 conc_start conc_end 2 = Ok values
              end
            ∧ ∀ c, c ∈ conc_values_of e → c ∈ values) out.
Proof.
  intros args. eexists. split; [vm_compute; reflexivity|]. split; [reflexivity|].
  apply (test_config_conc_allow_list accept_all 64 args sample_catalog).
  vm_compute; reflexivity.
Defined.

(** ** Sequence-length names *)

Lemma string_app_cons c (s t : string) : String c s +:+ t = String c (s +:+ t).
Proof. reflexivity. Qed.

Lemma string_app_nil_l (t : string) : "" +:+ t = t.
Proof. reflexivity. Qed.

Lemma no_underscore_app s t : no_underscore (s +:+ t) ↔ no_underscore s ∧ no_underscore t.
Proof.
  induction s as [|c s IH]; [rewrite string_app_nil_l; simpl; tauto|].
  rewrite string_app_cons. simpl. tauto.
Qed.

Lemma pretty_N_go_no_underscore x s : no_underscore s → no_underscore (pretty_N_go x s).
Proof.
  revert s. induction (N.lt_wf_0 x) as [x _ IH]; intros s Hs.
  assert (x = 0 ∨ 0 < x)%N as [->|?] by lia; [by rewrite pretty_N_go_0|].
  rewrite pretty_N_go_step by done. apply IH; [by apply N.div_lt|].
  split; [|done]. unfold pretty_N_char. by repeat case_match.
Qed.

Lemma pretty_Z_no_underscore (x : Z) : no_underscore (pretty x).
Proof.
  assert (∀ p, no_underscore (pretty (Npos p))) as Hpos.
  { intros p. unfold pretty, pretty_N. case_decide; [done|].
    by apply pretty_N_go_no_underscore. }
  destruct x as [|p|p]; [done|apply Hpos|].
  change (pretty (Z.neg p)) with ("-" +:+ pretty (Npos p)).
  apply no_underscore_app. split; [done|apply Hpos].
Qed.

(** A text is cut in one way only at its first underscore. *)
Lemma underscore_split s1 t1 s2 t2 :
  no_underscore s1 → no_underscore s2 →
  s1 +:+ "_" +:+ t1 = s2 +:+ "_" +:+ t2 → s1 = s2 ∧ t1 = t2.
Proof.
  revert s2. induction s1 as [|c s1 IH]; intros [|c2 s2] H1 H2;
    rewrite ?string_app_cons, ?string_app_nil_l; simpl in *.
  - by intros [= ->].
  - intros [= <- _]. by destruct H2.
  - intros [= -> _]. by destruct H1.
  - intros [= -> Heq]. destruct (IH s2) as [-> ->]; tauto.
Qed.

Lemma seq_len_itos_stoi isl osl name :
  dict_get (isl, osl) seq_len_itos = Some name ↔ dict_get name seq_len_stoi = Some (isl, osl).
Proof.
  unfold seq_len_itos, seq_len_stoi. simpl.
  split; intros H; repeat case_decide; by simplify_eq.
Qed.

Lemma seq_len_stoi_no_underscore name p :
  dict_get name seq_len_stoi = Some p → no_underscore name.
Proof.
  unfold seq_len_stoi. simpl. intros H.
  repeat case_decide; simplify_eq; simpl; by repeat split.
Qed.

(** X12: the short name of a pair of sequence lengths.  A pair that the
    table [seq_len_stoi] lists gets its name in the table, and only such a
    pair gets a name of the table; any other pair gets the two numbers with
    an underscore between them; and two different pairs never get the same
    name. *)
Theorem seq_len_to_str_names :
  (∀ name isl osl,
     dict_get name seq_len_stoi = Some (isl, osl)
     ↔ is_Some (dict_get name seq_len_stoi) ∧ seq_len_to_str isl osl = name)
  ∧ (∀ isl osl,
       dict_get (isl, osl) seq_len_itos = None →
       seq_len_to_str isl osl = pretty isl +:+ "_" +:+ pretty osl)
  ∧ (∀ isl osl isl' osl',
       seq_len_to_str isl osl = seq_len_to_str isl' osl' ↔ (isl, osl) = (isl', osl')).
Proof.
  assert (∀ isl osl name,
            seq_len_to_str isl osl = name → is_Some (dict_get name seq_len_stoi) →
            dict_get name seq_len_stoi = Some (isl, osl)) as Hback.
  { intros isl osl name Hname [p Hp]. unfold seq_len_to_str in Hname.
    destruct (dict_get (isl, osl) seq_len_itos) as [n|] eqn:Hn; simpl in Hname.
    - subst n. by apply seq_len_itos_stoi.
    - apply seq_len_stoi_no_underscore in Hp. rewrite <-Hname in Hp.
      apply no_underscore_app in Hp as [_ Hp]. by destruct Hp. }
  split; [|split].
  - intros name isl osl. split.
    + intros H. split; [by eexists|]. apply seq_len_itos_stoi in H.
      unfold seq_len_to_str. by rewrite H.
    + intros [Hsome Hname]. by apply Hback.
  - intros isl osl H. unfold seq_len_to_str. by rewrite H.
  - intros isl osl isl' osl'. split; [|by intros [= -> ->]].
    intros Heq.
    destruct (dict_get (isl, osl) seq_len_itos) as [n|] eqn:Hn.
    + pose proof Hn as Hn'%seq_len_itos_stoi.
      assert (seq_len_to_str isl osl = n) as Hname by (unfold seq_len_to_str; by rewrite Hn).
      rewrite Hname in Heq. symmetry in Heq. apply Hback in Heq; [|by eexists]. congruence.
    + destruct (dict_get (isl', osl') seq_len_itos) as [n'|] eqn:Hn'.
      * pose proof Hn' as Hn''%seq_len_itos_stoi.
        assert (seq_len_to_str isl' osl' = n') as Hname
          by (unfold seq_len_to_str; by rewrite Hn').
        rewrite Hname in Heq. apply Hback in Heq; [|by eexists]. congruence.
      * unfold seq_len_to_str in Heq. rewrite Hn, Hn' in Heq. simpl in Heq.
        apply underscore_split in Heq as [Hi Ho]; [|apply pretty_Z_no_underscore..].
        by apply (inj pretty) in Hi, Ho; subst.
Qed.

(** ** Eval selection: the flags that come in, and the eval options of [main] *)

Lemma same_but_eval_set_run_eval e e' b :
  same_but_eval e e' → set_run_eval e' b = set_run_eval e b.
Proof.
  intros (? & ? & ? & ? & ? & ? & ? & ? & ? & ? & ? & ? & ?).
  unfold set_run_eval. by f_equal.
Qed.

Lemma same_but_eval_eligible e e' :
  same_but_eval e e' →
  (eval_eligible e ↔ eval_eligible e') ∧ eval_key e' = eval_key e ∧ tp_conc e' = tp_conc e.
Proof.
  intros (? & Hm & ? & Hp & Hf & Hr & Hi & Ho & Hs & Ht & ? & ? & ?).
  unfold eval_eligible, eval_key, tp_conc, entry_tp.
  by rewrite Hm, Hp, Hf, Hr, Hi, Ho, Hs, Ht.
Qed.

Lemma same_but_eval_sym e e' : same_but_eval e e' → same_but_eval e' e.
Proof. unfold same_but_eval. intros H. repeat split; symmetry; apply H. Qed.

Lemma same_but_eval_in_group m m' e e' tp conc :
  Forall2 same_but_eval m m' → same_but_eval e e' →
  in_group m e tp conc → in_group m' e' tp conc.
Proof.
  intros Hm He (x & [i Hi]%list_elem_of_lookup & Hel & Hkey & Htc).
  destruct (Forall2_lookup_l _ _ _ _ _ Hm Hi) as (x' & Hi' & Hx).
  destruct (same_but_eval_eligible _ _ Hx) as (Hel' & Hkey' & Htc').
  destruct (same_but_eval_eligible _ _ He) as (_ & Hkey'' & _).
  exists x'. split; [by eapply list_elem_of_lookup_2|]. split; [by apply Hel'|].
  split; congruence.
Qed.

(** Whether an entry is selected does not depend on any eval flag. *)
Lemma same_but_eval_selected m m' e e' :
  Forall2 same_but_eval m m' → same_but_eval e e' →
  eval_selected m e → eval_selected m' e'.
Proof.
  intros Hm He (Hel & tp & conc & Htc & Hconc & Htp).
  assert (Forall2 same_but_eval m' m) as Hm'.
  { apply Forall2_flip. eapply Forall2_impl; [done|]. apply same_but_eval_sym. }
  pose proof (same_but_eval_sym _ _ He) as He'.
  destruct (same_but_eval_eligible _ _ He) as (Hel' & _ & Htc').
  split; [by apply Hel'|]. exists tp, conc. split; [congruence|]. split.
  - intros conc' Hg. eapply Hconc, same_but_eval_in_group; done.
  - destruct Htp as [Hhigh | [Hlow (tp' & conc' & Hg & Hne)]].
    + left. intros tp' conc' Hg. eapply Hhigh, same_but_eval_in_group; done.
    + right. split.
      * intros tp2 conc2 Hg2. eapply Hlow, same_but_eval_in_group; done.
      * exists tp', conc'. split; [|done]. eapply same_but_eval_in_group; done.
Qed.

Lemma mark_eval_entries_same_but_eval m marked :
  mark_eval_entries m = Ok marked → Forall2 same_but_eval m marked.
Proof.
  intros H. destruct (mark_eval_entries_lookup m) as (m' & Hm' & Hlen & Hlookup).
  assert (m' = marked) as -> by congruence.
  apply Forall2_same_length_lookup. split; [done|].
  intros i e e' Hi Hi'. destruct (Hlookup i e Hi) as (b & Hb & _).
  assert (e' = set_run_eval e b) as -> by congruence.
  unfold same_but_eval. simpl. tauto.
Qed.

Lemma mark_eval_entries_ext m m' :
  Forall2 same_but_eval m m' → mark_eval_entries m' = mark_eval_entries m.
Proof.
  intros Hm.
  destruct (mark_eval_entries_lookup m) as (r & Hr & Hlen & Hlookup).
  destruct (mark_eval_entries_lookup m') as (r' & Hr' & Hlen' & Hlookup').
  rewrite Hr, Hr'. f_equal. apply list_eq_same_length with (length m).
  { done. } { rewrite Hlen'. symmetry. by eapply Forall2_length. }
  intros i x y Hi Hx Hy.
  destruct (lookup_lt_is_Some_2 m i Hi) as [e He].
  destruct (Forall2_lookup_l _ _ _ _ _ Hm He) as (e' & He' & Hee).
  destruct (Hlookup i e He) as (b & Hb & Hsel).
  destruct (Hlookup' i e' He') as (b' & Hb' & Hsel').
  assert (b' = b) as ->.
  { apply eq_true_iff_eq. rewrite Hsel, Hsel'. split.
    - apply same_but_eval_selected; [|by apply same_but_eval_sym].
      apply Forall2_flip. eapply Forall2_impl; [done|]. apply same_but_eval_sym.
    - by apply same_but_eval_selected. }
  rewrite (same_but_eval_set_run_eval _ _ _ Hee) in Hb'. congruence.
Qed.

(** X14: marking twice is marking once, and the marking does not depend on
    the eval flags that the entries come in with: two matrices that differ
    in eval flags only get the same marked matrix. *)
Theorem mark_eval_entries_idempotent (matrix : list MatrixEntry) :
  ∃ marked, mark_eval_entries matrix = Ok marked
            ∧ mark_eval_entries marked = Ok marked
            ∧ ∀ matrix', Forall2 same_but_eval matrix matrix' →
                mark_eval_entries matrix' = Ok marked.
Proof.
  destruct (mark_eval_entries_lookup matrix) as (marked & Hmarked & _).
  exists marked. split; [done|]. split.
  - rewrite <-Hmarked. by apply mark_eval_entries_ext, mark_eval_entries_same_but_eval.
  - intros matrix' H. rewrite <-Hmarked. by apply mark_eval_entries_ext.
Qed.

(** A non-empty list has an element where [f] is largest. *)
Lemma list_max_exists {A} (f : A → Z) (l : list A) :
  l ≠ [] → ∃ x, x ∈ l ∧ ∀ y, y ∈ l → f y ≤ f x.
Proof.
  induction l as [|a l IH]; [done|]. intros _.
  destruct l as [|a' l'].
  { exists a. split; [left|]. intros y ->%list_elem_of_singleton. lia. }
  destruct IH as (x & Hx & Hmax); [done|].
  destruct (decide (f x ≤ f a)).
  - exists a. split; [left|]. intros y [->|Hy]%elem_of_cons; [lia|].
    specialize (Hmax y Hy). lia.
  - exists x. split; [by right|]. intros y [->|Hy]%elem_of_cons; [lia|by apply Hmax].
Qed.

(** Every group has a selected entry: where there is an eligible entry,
    there is a selected one with its key. *)
Lemma eval_selected_exists (m : list MatrixEntry) e0 :
  e0 ∈ m → eval_eligible e0 →
  ∃ e, e ∈ m ∧ eval_selected m e ∧ eval_key e = eval_key e0.
Proof.
  intros He0 Hel0.
  set (tp_of := λ e : MatrixEntry, default 0 (fst <$> tp_conc e)).
  set (conc_of := λ e : MatrixEntry, default 0 (snd <$> tp_conc e)).
  set (G := filter (λ e, eval_eligible e ∧ eval_key e = eval_key e0) m).
  destruct (list_max_exists tp_of G) as (e1 & He1 & Hmax1).
  { intros HG. eapply elem_of_nil. rewrite <-HG. by apply list_elem_of_filter. }
  set (G1 := filter (λ e, tp_of e = tp_of e1) G).
  destruct (list_max_exists conc_of G1) as (e2 & He2 & Hmax2).
  { intros HG. eapply elem_of_nil. rewrite <-HG. by apply list_elem_of_filter. }
  apply list_elem_of_filter in He2 as [Htp2 He2].
  pose proof He2 as [[Hel2 Hkey2] Hin2]%list_elem_of_filter.
  destruct (eligible_tp_conc _ Hel2) as [[tp conc] Htc].
  exists e2. split; [done|]. split; [|done].
  split; [done|]. exists tp, conc. split; [done|].
  assert (∀ tp' conc', in_group m e2 tp' conc' →
            ∃ e', e' ∈ G ∧ tp_of e' = tp' ∧ conc_of e' = conc') as Hgroup.
  { intros tp' conc' (e' & Hin' & Hel' & Hkey' & Htc').
    exists e'. split; [apply list_elem_of_filter; split; [split; [done|congruence]|done]|].
    unfold tp_of, conc_of. by rewrite Htc'. }
  assert (tp_of e2 = tp ∧ conc_of e2 = conc) as [Htp Hconc].
  { unfold tp_of, conc_of. by rewrite Htc. }
  split.
  - intros conc' (e' & He' & Htp' & <-)%Hgroup. rewrite <-Hconc. apply Hmax2.
    apply list_elem_of_filter. split; [congruence|done].
  - left. intros tp' conc' (e' & He' & <- & _)%Hgroup. rewrite <-Htp, Htp2. by apply Hmax1.
Qed.

(** With [--evals-only], what remains is the selected entries, flagged. *)
Lemma handle_evals_only (run_evals : bool) (matrix : list MatrixEntry) :
  ∃ out, handle_eval_options run_evals true matrix = Ok out
         ∧ ∀ e', e' ∈ out ↔
                 ∃ e, e ∈ matrix ∧ eval_selected matrix e ∧ e' = set_run_eval e true.
Proof.
  destruct (mark_eval_entries_lookup matrix) as (marked & Hmarked & Hlen & Hlookup).
  unfold handle_eval_options. rewrite orb_true_r, Hmarked. simpl.
  eexists. split; [done|].
  intros e'. rewrite list_elem_of_filter. split.
  - intros [Hrun [i Hi]%list_elem_of_lookup].
    destruct (lookup_lt_is_Some_2 matrix i) as [e He].
    { rewrite <-Hlen. by eapply lookup_lt_Some. }
    destruct (Hlookup i e He) as (b & Hb & Hsel).
    assert (e' = set_run_eval e b) as -> by congruence.
    simpl in Hrun. subst b. exists e.
    split; [by eapply list_elem_of_lookup_2|]. split; [by apply Hsel | done].
  - intros (e & [i Hi]%list_elem_of_lookup & Hsel & ->). split; [done|].
    destruct (Hlookup i e Hi) as (b & Hb & Hiff).
    apply Hiff in Hsel as ->. by eapply list_elem_of_lookup_2.
Qed.

(** X13: the eval options never raise.  With [--evals-only] the matrix
    that remains holds exactly the selected entries, each with its eval flag
    set and nothing else changed; it is empty exactly when the matrix has no
    entry with a top-level TP and the sequence lengths (1024, 8192).  With
    [--run-evals] alone every entry is kept, and only eval flags change. *)
Theorem evals_only_keeps_selected (run_evals : bool) (matrix : list MatrixEntry) :
  (∃ out, handle_eval_options run_evals true matrix = Ok out
          ∧ (∀ e', e' ∈ out ↔
                   ∃ e, e ∈ matrix ∧ eval_selected matrix e ∧ e' = set_run_eval e true)
          ∧ (out = [] ↔ ∀ e, e ∈ matrix → ¬ eval_eligible e))
  ∧ (∃ marked, handle_eval_options true false matrix = Ok marked
               ∧ Forall2 same_but_eval matrix marked)
  ∧ handle_eval_options false false matrix = Ok matrix.
Proof.
  split; [|split; [|done]].
  - destruct (handle_evals_only run_evals matrix) as (out & Hout & Hiff).
    exists out. split; [done|]. split; [done|]. split.
    + intros -> e He Hel.
      destruct (eval_selected_exists matrix e He Hel) as (e1 & He1 & Hsel & _).
      eapply elem_of_nil. apply Hiff. by exists e1.
    + intros Hnone. destruct out as [|e' l]; [done|].
      destruct (proj1 (Hiff e')) as (e & He & [Hel _] & _); [left|].
      by destruct (Hnone e He).
  - destruct (mark_eval_entries_lookup matrix) as (marked & Hmarked & _).
    unfold handle_eval_options. simpl. rewrite Hmarked. simpl.
    exists marked. split; [done|]. by apply mark_eval_entries_same_but_eval.
Qed.

(** ** [main]: the generators and the eval options together *)

Lemma set_run_eval_same e : set_run_eval e (run_eval e) = e.
Proof. by destruct e. Qed.

(** Marking a matrix without eligible entries, whose flags are all false,
    returns it as it is. *)
Lemma mark_eval_entries_none_eligible (m : list MatrixEntry) :
  (∀ e, e ∈ m → ¬ eval_eligible e ∧ run_eval e = false) → mark_eval_entries m = Ok m.
Proof.
  intros Hnone.
  destruct (mark_eval_entries_lookup m) as (marked & Hmarked & Hlen & Hlookup).
  rewrite Hmarked. f_equal. apply list_eq_same_length with (length m); [done..|].
  intros i x y Hi Hx Hy.
  destruct (Hlookup i y Hy) as (b & Hb & Hsel).
  destruct (Hnone y) as [Hel Hrun]; [by eapply list_elem_of_lookup_2|].
  assert (b = false) as ->.
  { destruct b; [|done]. destruct Hel. by apply Hsel. }
  rewrite <-Hrun, set_run_eval_same in Hb. congruence.
Qed.

Lemma handle_eval_options_none_eligible run_evals evals_only (m : list MatrixEntry) :
  (∀ e, e ∈ m → ¬ eval_eligible e ∧ run_eval e = false) →
  handle_eval_options run_evals evals_only m = Ok (if evals_only then [] else m).
Proof.
  intros Hnone. unfold handle_eval_options.
  rewrite (mark_eval_entries_none_eligible m Hnone). simpl.
  destruct evals_only; [|by destruct run_evals].
  rewrite orb_true_r. f_equal. apply filter_nil_iff, Forall_forall.
  intros e He. destruct (Hnone e He) as [_ ->]. done.
Qed.

Section eval_options_of_main.

Variable validate_matrix_entry : MatrixEntry → bool → bool.

(** What every generator's entries have in common: the eval flag is false. *)
Lemma generators_run_eval_false fuel command all_config_data runner_data out :
  main validate_matrix_entry fuel command false false all_config_data runner_data = Ok out →
  ∀ e, e ∈ out → run_eval e = false.
Proof.
  unfold main. intros H e He. inv_bind H. injection H as ->.
  destruct command as [args | args | args].
  - destruct (generate_full_sweep_provenance _ _ _ _ _ _ Ha e He)
      as (key & val & nodes & seq & bmk & o & slf & _ & _ & _ & _ & _ & _ & _ & _ & _ & _
          & Hpt & Heo).
    by destruct (full_sweep_point_fields _ _ _ _ _ _ _ _ _ Hpt e Heo)
      as (_ & _ & _ & _ & _ & _ & _ & _ & _ & _ & _ & ?).
  - destruct (generate_runner_model_sweep_entries _ _ _ _ _ Ha e He)
      as (runner_nodes & key & val & o & _ & _ & Hcfg & Heo).
    by destruct (runner_sweep_config_fields _ _ _ _ _ _ Hcfg e Heo)
      as (_ & _ & _ & _ & _ & _ & _ & _ & _ & _ & _ & _ & _ & _ & ? & _).
  - destruct (generate_test_config_sweep_entries _ _ _ _ _ Ha e He)
      as (key & val & seq & bmk & o & _ & _ & _ & _ & Hpt & Heo).
    by destruct (test_config_point_fields _ _ _ _ _ _ _ _ Hpt e Heo)
      as (_ & _ & _ & _ & _ & _ & _ & _ & _ & _ & _ & ? & _).
Qed.

(** X15: runner-model-sweep never has an eval entry, since its entries all
    have the sequence lengths (1024, 1024): with [--run-evals] it returns
    what it returns without, and with [--evals-only] it returns the empty
    matrix whenever the generator returns at all (and raises what the
    generator raises otherwise). *)
Theorem runner_model_sweep_eval_options fuel args run_evals all_config_data runner_data :
  main validate_matrix_entry fuel (RunnerModelSweep args) run_evals false
    all_config_data runner_data
  = generate_runner_model_sweep_config validate_matrix_entry args all_config_data runner_data
  ∧ main validate_matrix_entry fuel (RunnerModelSweep args) run_evals true
      all_config_data runner_data
    = (generate_runner_model_sweep_config validate_matrix_entry args all_config_data runner_data
       ≫= λ _, Ok []).
Proof.
  unfold main.
  destruct (generate_runner_model_sweep_config _ _ _ _) as [m|err] eqn:Hm; [|done].
  assert (∀ e, e ∈ m → ¬ eval_eligible e ∧ run_eval e = false) as Hnone.
  { intros e He.
    destruct (generate_runner_model_sweep_entries _ _ _ _ _ Hm e He)
      as (runner_nodes & key & val & o & _ & _ & Hcfg & Heo).
    destruct (runner_sweep_config_entries _ _ _ _ _ _ Hcfg e Heo) as (_ & Hosl & _).
    destruct (runner_sweep_config_fields _ _ _ _ _ _ Hcfg e Heo)
      as (_ & _ & _ & _ & _ & _ & _ & _ & _ & _ & _ & _ & _ & _ & Hrun & _).
    split; [|done]. intros (_ & _ & Hosl'). congruence. }
  cbn [mbind result_bind].
  by rewrite !(handle_eval_options_none_eligible _ _ m Hnone).
Qed.

(** X16: a full sweep restricted to multinode configurations never has an
    eval entry, since only entries with a top-level TP are eligible: with
    [--run-evals] it returns what it returns without, and with
    [--evals-only] it returns the empty matrix whenever the generator
    returns at all. *)
Theorem multi_node_sweep_eval_options fuel args run_evals all_config_data runner_data :
  fs_single_node args = false →
  main validate_matrix_entry fuel (FullSweep args) run_evals false all_config_data runner_data
  = generate_full_sweep validate_matrix_entry fuel args all_config_data runner_data
  ∧ main validate_matrix_entry fuel (FullSweep args) run_evals true
      all_config_data runner_data
    = (generate_full_sweep validate_matrix_entry fuel args all_config_data runner_data
       ≫= λ _, Ok []).
Proof.
  intros Hsingle. unfold main.
  destruct (generate_full_sweep _ _ _ _ _) as [m|err] eqn:Hm; [|done].
  assert (∀ e, e ∈ m → ¬ eval_eligible e ∧ run_eval e = false) as Hnone.
  { intros e He.
    destruct (generate_full_sweep_provenance _ _ _ _ _ _ Hm e He)
      as (key & val & nodes & seq & bmk & o & slf & _ & _ & _ & _ & _ & _ & _ & _ & _ & _
          & Hpt & Heo).
    destruct (full_sweep_point_fields _ _ _ _ _ _ _ _ _ Hpt e Heo)
      as (_ & _ & _ & _ & _ & _ & _ & _ & _ & _ & _ & Hrun).
    split; [|done]. intros ([tp Htp] & _).
    unfold full_sweep_point in Hpt. rewrite Hsingle in Hpt.
    destruct (default false (cfg_multinode val));
      [|injection Hpt as <-; by apply elem_of_nil in Heo].
    destruct (fs_multi_node args); [|injection Hpt as <-; by apply elem_of_nil in Heo].
    destruct (full_sweep_multinode_entries _ _ _ _ _ _ _ _ _ Hpt e Heo)
      as (_ & _ & _ & p & d & values & cv & _ & _ & Htopo).
    unfold entry_tp in Htp. by rewrite Htopo in Htp. }
  cbn [mbind result_bind].
  by rewrite !(handle_eval_options_none_eligible _ _ m Hnone).
Qed.

(** X17: without eval options no entry of the matrix that [main] returns
    has the eval flag.  With [--run-evals], [main] returns a matrix with the
    same entries in the same order, changed in eval flags only: the flag of
    an entry is true exactly when the entry is selected.  With
    [--evals-only] it returns exactly the selected entries, flagged. *)
Theorem main_eval_options fuel command all_config_data runner_data out :
  main validate_matrix_entry fuel command false false all_config_data runner_data = Ok out →
  Forall (λ e, run_eval e = false) out
  ∧ (∃ marked,
       main validate_matrix_entry fuel command true false all_config_data runner_data
         = Ok marked
       ∧ Forall2 (λ e e', same_but_eval e e' ∧ (run_eval e' = true ↔ eval_selected out e))
           out marked)
  ∧ (∃ only,
       main validate_matrix_entry fuel command false true all_config_data runner_data
         = Ok only
       ∧ ∀ e', e' ∈ only ↔ ∃ e, e ∈ out ∧ eval_selected out e ∧ e' = set_run_eval e true).
Proof.
  intros H. split; [apply Forall_forall; by eapply generators_run_eval_false|].
  unfold main in *. inv_bind H. injection H as ->. rewrite Ha. cbn [mbind result_bind].
  split.
  - destruct (mark_eval_entries_lookup out) as (marked & Hmarked & Hlen & Hlookup).
    exists marked. unfold handle_eval_options. simpl. rewrite Hmarked. split; [done|].
    apply Forall2_same_length_lookup. split; [done|].
    intros i e e' Hi Hi'. destruct (Hlookup i e Hi) as (b & Hb & Hsel).
    assert (e' = set_run_eval e b) as -> by congruence.
    split; [unfold same_but_eval; simpl; tauto | done].
  - destruct (handle_evals_only false out) as (only & Honly & Hiff). by exists only.
Qed.

End eval_options_of_main.

Lemma multi_node_sweep_eval_options_witness :
  let multi := unfiltered_sweep false true in
  let catalog := [("dsr1-fp8-h200-dynamo",
                   sample_config true [profile 1024 8192 [list_point [16; 8; 32];
                                                          list_point [4; 64]]])] in
  (∃ out, generate_full_sweep accept_all 64 multi catalog sample_runners = Ok out
          ∧ length out = 2%nat)
  ∧ main accept_all 64 (FullSweep multi) true false catalog sample_runners
    = generate_full_sweep accept_all 64 multi catalog sample_runners
  ∧ main accept_all 64 (FullSweep multi) true true catalog sample_runners
    = (generate_full_sweep accept_all 64 multi catalog sample_runners ≫= λ _, Ok []).
Proof.
  intros multi catalog. split; [eexists; split; vm_compute; reflexivity|].
  apply (multi_node_sweep_eval_options accept_all 64 multi true catalog sample_runners).
  reflexivity.
Defined.

Lemma main_eval_options_witness :
  let command := TestConfig (test_config_keys ["dsr1-fp8-h200-vllm"]) in
  ∃ out,
    main accept_all 64 command false false sample_catalog sample_runners = Ok out
    ∧ length out = 15%nat
    ∧ Forall (λ e, run_eval e = false) out
    ∧ (∃ marked,
         main accept_all 64 command true false sample_catalog sample_runners = Ok marked
         ∧ Forall2 (λ e e', same_but_eval e e' ∧ (run_eval e' = true ↔ eval_selected out e))
             out marked)
    ∧ (∃ only,
         main accept_all 64 command false true sample_catalog sample_runners = Ok only
         ∧ ∀ e', e' ∈ only ↔ ∃ e, e ∈ out ∧ eval_selected out e ∧ e' = set_run_eval e true).
Proof.
  intros command. eexists. split; [vm_compute; reflexivity|]. split; [reflexivity|].
  apply (main_eval_options accept_all 64 command sample_catalog sample_runners).
  vm_compute; reflexivity.
Defined.

(** ** test-config and the unfiltered full sweep *)

(** When no run of the body raises, the concurrency loop is the loop over
    the expanded range. *)
Lemma conc_sweep_total {A} (f : Z → list A) (body : Z → result (list A)) fuel s e st :
  (∀ c, body c = Ok (f c)) →
  conc_sweep body fuel s e st = conc_range fuel s e st ≫= for_each body.
Proof.
  intros Hbody. unfold conc_range. revert s.
  induction fuel as [|fuel IH]; intros s; simpl; [done|].
  case_decide; [|done]. rewrite Hbody. simpl. case_decide.
  - simpl. rewrite Hbody. simpl. by rewrite app_nil_r.
  - rewrite IH. destruct (conc_sweep _ fuel _ e st) as [l|err]; simpl; [|done].
    by rewrite Hbody.
Qed.

Lemma for_each_fmap {A B C} (g : A → B) (body : B → result (list C)) l :
  for_each body (g <$> l) = for_each (λ a, body (g a)) l.
Proof. induction l as [|a l IH]; [done|]. rewrite fmap_cons. cbn [for_each]. by rewrite IH. Qed.

Section test_config_full_sweep.

Variable validate_matrix_entry : MatrixEntry → bool → bool.
Hypothesis validate_accepts : ∀ entry is_multinode,
  validate_matrix_entry entry is_multinode = true.

Lemma unfiltered_point fuel single_node multi_node keys val isl0 osl0 bmk :
  mode_admits single_node multi_node val → conc_keys_fit val bmk →
  full_sweep_point validate_matrix_entry fuel (unfiltered_sweep single_node multi_node)
    val None isl0 osl0 bmk
  = test_config_point validate_matrix_entry fuel (test_config_keys keys) val isl0 osl0 bmk.
Proof.
  unfold mode_admits, conc_keys_fit, full_sweep_point, test_config_point.
  intros Hmode Hkeys. destruct (default false (cfg_multinode val)).
  - cbn [fs_multi_node unfiltered_sweep]. rewrite Hmode.
    unfold full_sweep_multinode, multinode_conc_values, test_config_conc_values.
    destruct (bmk_prefill bmk) as [p|]; [|done].
    destruct (bmk_decode bmk) as [d|]; [|done]. simpl.
    destruct (bmk_conc_list bmk) as [[|c l]|]; [done| |]; simpl.
    + unfold validated. by rewrite !validate_accepts.
    + destruct (bmk_conc_start bmk) as [cs|]; [|done].
      destruct (bmk_conc_end bmk) as [ce|]; [|done]. simpl.
      destruct (conc_range fuel cs ce 2) as [cv|err]; [|done]. simpl.
      unfold validated. by rewrite !validate_accepts.
  - cbn [fs_single_node unfiltered_sweep]. rewrite Hmode.
    unfold full_sweep_single_node, test_config_conc_values. rewrite Hkeys.
    destruct (bmk_tp bmk) as [tp|]; [|done].
    destruct (bmk_conc_start bmk) as [cs|]; [|done].
    destruct (bmk_conc_end bmk) as [ce|]; [|done]. simpl.
    erewrite conc_sweep_total; last first.
    { intros c. simpl. unfold validated. rewrite validate_accepts. simpl. reflexivity. }
    destruct (conc_range fuel cs ce 2) as [cv|err]; [|done]. simpl.
    apply for_each_ext. intros c _. unfold validated. by rewrite !validate_accepts.
Qed.

(** X18: test-config asked for every key of the catalog, in catalog order,
    returns what a full sweep without filters and bounds returns (or raises
    what it raises), when the node mode of the sweep admits every
    configuration and the concurrency keys of the points fit their
    configuration's shape. *)
Theorem test_config_is_unfiltered_full_sweep fuel single_node multi_node
    all_config_data runner_data :
  NoDup (dict_keys all_config_data) →
  (∀ key val, (key, val) ∈ all_config_data →
     mode_admits single_node multi_node val
     ∧ ∀ seq bmk, seq ∈ seq_len_configs val → bmk ∈ search_space seq →
         conc_keys_fit val bmk) →
  generate_test_config_sweep validate_matrix_entry fuel
    (test_config_keys (dict_keys all_config_data)) all_config_data
  = generate_full_sweep validate_matrix_entry fuel (unfiltered_sweep single_node multi_node)
      all_config_data runner_data.
Proof.
  intros Hnd Hfit. unfold generate_test_config_sweep, generate_full_sweep.
  cbn [tc_config_keys test_config_keys fs_runner_type fs_seq_lens unfiltered_sweep given
       default traverse].
  assert (filter (λ key, dict_get key all_config_data = None) (dict_keys all_config_data) = [])
    as ->.
  { apply filter_nil_iff, Forall_forall. intros key Hkey. rewrite dict_get_None.
    intros Hnot. by apply Hnot. }
  rewrite filter_nil, !bool_decide_eq_false_2 by (intros Hne; by apply Hne).
  cbn [mbind result_bind]. unfold dict_keys. rewrite for_each_fmap.
  apply for_each_ext. intros [key val] Hkv. cbn [fst snd].
  rewrite (dict_get_elem_of_NoDup _ _ _ Hnd Hkv). cbn [require mbind result_bind].
  destruct (Hfit key val Hkv) as [Hmode Hpoints].
  unfold test_config_entry, full_sweep_config. simpl.
  apply for_each_ext. intros seq Hseq. simpl.
  apply for_each_ext. intros bmk Hbmk. symmetry. apply unfiltered_point; [done|].
  exact (Hpoints seq bmk Hseq Hbmk).
Qed.

End test_config_full_sweep.

Lemma test_config_is_unfiltered_full_sweep_witness :
  (∃ out, generate_full_sweep accept_all 64 (unfiltered_sweep true false) sample_catalog
            sample_runners = Ok out
          ∧ length out = 15%nat)
  ∧ generate_test_config_sweep accept_all 64 (test_config_keys (dict_keys sample_catalog))
      sample_catalog
    = generate_full_sweep accept_all 64 (unfiltered_sweep true false) sample_catalog
        sample_runners.
Proof.
  split; [eexists; split; vm_compute; reflexivity|].
  apply (test_config_is_unfiltered_full_sweep accept_all (λ _ _, eq_refl) 64 true false
           sample_catalog sample_runners).
  - apply NoDup_singleton.
  - intros key val [= -> ->]%list_elem_of_singleton. split; [reflexivity|].
    intros seq bmk Hseq Hbmk. simpl in Hseq.
    repeat (apply elem_of_cons in Hseq as [-> | Hseq]); [| |by apply elem_of_nil in Hseq];
      simpl in Hbmk;
      repeat (apply elem_of_cons in Hbmk as [-> | Hbmk]);
      try reflexivity; by apply elem_of_nil in Hbmk.
Defined.

(** ** runner-model-sweep: every matching configuration on every node *)

(** A loop that returns has run its body on every element, and what a run
    returned is part of what the loop returns. *)
Lemma for_each_Ok_elem {A B} (body : A → result (list B)) l out a :
  for_each body l = Ok out → a ∈ l → ∃ o, body a = Ok o ∧ ∀ b, b ∈ o → b ∈ out.
Proof.
  revert out. induction l as [|x l IH]; intros out H Ha; [by apply elem_of_nil in Ha|].
  cbn [for_each] in H. inv_bind H. inv_bind H. injection H as <-.
  apply elem_of_cons in Ha as [-> | Ha].
  - exists a0. split; [done|]. intros b Hb. apply elem_of_app. by left.
  - destruct (IH _ Ha1 Ha) as (o & Ho & Hsub). exists o. split; [done|].
    intros b Hb. apply elem_of_app. right. by apply Hsub.
Qed.

Lemma resolve_runner_nodes_elem args runner_data runner_nodes node :
  resolve_runner_nodes args runner_data = Ok runner_nodes →
  node ∈ default [] (dict_get (rs_runner_type args) runner_data) →
  (∀ f, truthy_filter (rs_runner_node_filter args) = Some f → substring_of f node = true) →
  node ∈ runner_nodes.
Proof.
  unfold resolve_runner_nodes. intros H Hin Hsub.
  destruct (dict_get _ runner_data) as [[|n l]|]; [done| |done]. simpl in Hin.
  destruct (truthy_filter _) as [f|]; [|by injection H as <-].
  destruct (filter _ (n :: l)) as [|n' l'] eqn:Hf; [done|]. injection H as <-.
  rewrite <-Hf. apply list_elem_of_filter. split; [by apply Hsub | done].
Qed.

Section runner_sweep_coverage.

Variable validate_matrix_entry : MatrixEntry → bool → bool.

(** X19: when runner-model-sweep returns, its matrix has, for every
    configuration of the catalog that matches (the requested runner type, the
    filters, the node mode, a profile with [isl = osl = 1024]) and for every
    node that the inventory lists for the runner type (and that contains the
    node filter, when given), an entry of that configuration on that node. *)
Theorem runner_sweep_covers_every_node args all_config_data runner_data out key val node :
  generate_runner_model_sweep_config validate_matrix_entry args all_config_data runner_data
    = Ok out →
  (key, val) ∈ all_config_data →
  cfg_runner val = rs_runner_type args →
  prefix_mismatch (rs_model_prefix args) key = false →
  not_among (rs_precision args) (cfg_precision val) = false →
  not_among (rs_framework args) (cfg_framework val) = false →
  (if default false (cfg_multinode val) then rs_single_node args = false
   else rs_multi_node args = false) →
  is_Some (find_1k1k (seq_len_configs val)) →
  node ∈ default [] (dict_get (rs_runner_type args) runner_data) →
  (∀ f, truthy_filter (rs_runner_node_filter args) = Some f → substring_of f node = true) →
  ∃ e, e ∈ out ∧ runner e = node
       ∧ image e = cfg_image val ∧ model e = cfg_model val
       ∧ model_prefix e = cfg_model_prefix val
       ∧ precision e = cfg_precision val ∧ framework e = cfg_framework val
       ∧ disagg e = default false (cfg_disagg val).
Proof.
  intros H Hkv Hrunner Hprefix Hprec Hfw Hmode [target Htarget] Hnode Hsub.
  unfold generate_runner_model_sweep_config in H. inv_bind H.
  pose proof (resolve_runner_nodes_elem _ _ _ _ Ha Hnode Hsub) as Hin.
  destruct (for_each_Ok_elem _ _ _ _ H Hkv) as (o & Ho & Hout).
  cbn [fst snd] in Ho. unfold runner_sweep_config in Ho.
  rewrite bool_decide_eq_false_2 in Ho by (by intros ?).
  rewrite Hprefix, Hprec, Hfw, Htarget in Ho. simpl in Ho.
  destruct (default false (cfg_multinode val)).
  - rewrite Hmode in Ho. rewrite andb_false_r in Ho. simpl in Ho.
    inv_bind Ho. inv_bind Ho. inv_bind Ho.
    destruct (for_each_Ok_elem _ _ _ _ Ho Hin) as (o' & Ho' & Hsub').
    simpl in Ho'. inv_bind Ho'. inv_bind Ho'. apply validated_Ok in Ho' as ->.
    eexists. split; [apply Hout, Hsub'; left|]. by simpl.
  - rewrite Hmode in Ho. rewrite andb_false_r in Ho. simpl in Ho.
    inv_bind Ho. inv_bind Ho. inv_bind Ho. inv_bind Ho.
    apply for_each_validated_Ok in Ho as ->.
    eexists. split; [apply Hout, list_elem_of_fmap; eexists; split; [reflexivity|done]|].
    by simpl.
Qed.

End runner_sweep_coverage.

Lemma runner_sweep_covers_every_node_witness :
  ∃ out e,
    generate_runner_model_sweep_config accept_all runner_sweep_single_node sample_catalog
      sample_runners = Ok out
    ∧ e ∈ out ∧ runner e = "h200-cw_0"
    ∧ image e = "image:latest" ∧ model e = "org/model" ∧ model_prefix e = "dsr1"
    ∧ precision e = "fp8" ∧ framework e = "vllm" ∧ disagg e = false.
Proof.
  eexists.
  assert (generate_runner_model_sweep_config accept_all runner_sweep_single_node sample_catalog
            sample_runners = Ok _) as Hout by (vm_compute; reflexivity).
  destruct (runner_sweep_covers_every_node accept_all runner_sweep_single_node sample_catalog
              sample_runners _ "dsr1-fp8-h200-vllm"
              (sample_config false [profile 1024 1024 [range_point 1 4 16; range_point 4 4 64;
                                                      range_point 2 8 8];
                                    profile 1024 8192 [range_point 8 1 8; range_point 1 1 2]])
              "h200-cw_0" Hout) as (e & He); try reflexivity.
  - left.
  - by eexists.
  - simpl. do 2 right. left.
  - discriminate.
  - exists e. split; [exact Hout | exact He].
Defined.

(** ** The generators take the catalog entry by entry *)

Lemma for_each_app {A B} (body : A → result (list B)) l1 l2 :
  for_each body (l1 ++ l2)
  = (o1 ← for_each body l1; o2 ← for_each body l2; Ok (o1 ++ o2)).
Proof.
  induction l1 as [|a l1 IH]; simpl.
  { destruct (for_each body l2); done. }
  destruct (body a) as [o|]; simpl; [|done]. rewrite IH.
  destruct (for_each body l1) as [o1|]; simpl; [|done].
  destruct (for_each body l2) as [o2|]; simpl; [|done]. by rewrite app_assoc.
Qed.

Section catalog_order.

Variable validate_matrix_entry : MatrixEntry → bool → bool.

(** X20: full-sweep and runner-model-sweep handle the catalog entry by
    entry, in catalog order: the matrix of a catalog in two parts is the
    matrix of the first part followed by that of the second.  test-config
    does so with the requested keys: the matrix of a list of keys in two
    parts is the matrix of the first keys followed by that of the others. *)
Theorem generators_concatenate fuel fs_args rs_args (keys1 keys2 : list string) conc
    (catalog1 catalog2 all_config_data : Catalog) runner_data out :
  (generate_full_sweep validate_matrix_entry fuel fs_args (catalog1 ++ catalog2) runner_data
     = Ok out
   ↔ ∃ o1 o2,
       generate_full_sweep validate_matrix_entry fuel fs_args catalog1 runner_data = Ok o1
       ∧ generate_full_sweep validate_matrix_entry fuel fs_args catalog2 runner_data = Ok o2
       ∧ out = o1 ++ o2)
  ∧ (generate_runner_model_sweep_config validate_matrix_entry rs_args (catalog1 ++ catalog2)
       runner_data = Ok out
     ↔ ∃ o1 o2,
         generate_runner_model_sweep_config validate_matrix_entry rs_args catalog1 runner_data
           = Ok o1
         ∧ generate_runner_model_sweep_config validate_matrix_entry rs_args catalog2 runner_data
           = Ok o2
         ∧ out = o1 ++ o2)
  ∧ (generate_test_config_sweep validate_matrix_entry fuel
       {| tc_config_keys := keys1 ++ keys2; tc_conc := conc |} all_config_data = Ok out
     ↔ ∃ o1 o2,
         generate_test_config_sweep validate_matrix_entry fuel
           {| tc_config_keys := keys1; tc_conc := conc |} all_config_data = Ok o1
         ∧ generate_test_config_sweep validate_matrix_entry fuel
             {| tc_config_keys := keys2; tc_conc := conc |} all_config_data = Ok o2
         ∧ out = o1 ++ o2).
Proof.
  assert (∀ {A} (r1 r2 : result (list A)) out,
            (o1 ← r1; o2 ← r2; Ok (o1 ++ o2)) = Ok out
            ↔ ∃ o1 o2, r1 = Ok o1 ∧ r2 = Ok o2 ∧ out = o1 ++ o2) as Hbind.
  { intros A [o1|] [o2|] out'; simpl; split;
      try (intros [= <-]; by exists o1, o2);
      try (intros (? & ? & [= <-] & [= <-] & ->); done);
      try done; by intros (? & ? & ? & ? & _). }
  split; [|split].
  - unfold generate_full_sweep. case_bool_decide.
    { split; [done | by intros (? & ? & ? & _)]. }
    destruct (traverse _ _) as [slf|]; simpl.
    + rewrite for_each_app. apply Hbind.
    + split; [done | by intros (? & ? & ? & _)].
  - unfold generate_runner_model_sweep_config.
    destruct (resolve_runner_nodes _ _) as [nodes|]; simpl.
    + rewrite for_each_app. apply Hbind.
    + split; [done | by intros (? & ? & ? & _)].
  - unfold generate_test_config_sweep. cbn [tc_config_keys]. rewrite filter_app.
    destruct (filter _ keys1) as [|k1 m1] eqn:H1; simpl.
    + destruct (filter _ keys2) as [|k2 m2] eqn:H2; simpl.
      * rewrite for_each_app. apply Hbind.
      * split; [done | by intros (? & ? & _ & ? & _)].
    + split; [done | by intros (? & ? & ? & _)].
Qed.

End catalog_order.

(** ** full-sweep: the nodes of each configuration *)

Section full_sweep_nodes.

Variable validate_matrix_entry : MatrixEntry → bool → bool.

(** X3: the entries that a full sweep emits for one catalog entry (the part
    of the matrix between what it emits for the entries before and for those
    after) carry the image, model, prefix, precision and framework of that
    catalog entry; with a node filter, the runner of each of them is a node
    that the inventory lists for the runner type of that catalog entry and
    that contains the filter text; with no node filter it is the runner
    value of that catalog entry itself. *)
Theorem full_sweep_runner_resolution fuel args (before after : Catalog) key val
    runner_data out :
  generate_full_sweep validate_matrix_entry fuel args (before ++ (key, val) :: after)
    runner_data = Ok out →
  ∃ o1 o o2,
    generate_full_sweep validate_matrix_entry fuel args before runner_data = Ok o1
    ∧ generate_full_sweep validate_matrix_entry fuel args [(key, val)] runner_data = Ok o
    ∧ generate_full_sweep validate_matrix_entry fuel args after runner_data = Ok o2
    ∧ out = o1 ++ o ++ o2
    ∧ Forall (λ e,
        image e = cfg_image val ∧ model e = cfg_model val
        ∧ model_prefix e = cfg_model_prefix val
        ∧ precision e = cfg_precision val ∧ framework e = cfg_framework val
        ∧ match truthy_filter (fs_runner_node_filter args) with
          | Some f =>
              runner e ∈ default [] (dict_get (cfg_runner val) runner_data)
              ∧ substring_of f (runner e) = true
          | None => runner e = cfg_runner val
          end) o.
Proof.
  intros H.
  assert (∃ o1 o o2,
            generate_full_sweep validate_matrix_entry fuel args before runner_data = Ok o1
            ∧ generate_full_sweep validate_matrix_entry fuel args [(key, val)] runner_data
              = Ok o
            ∧ generate_full_sweep validate_matrix_entry fuel args after runner_data = Ok o2
            ∧ out = o1 ++ o ++ o2) as (o1 & o & o2 & H1 & Ho & H2 & ->).
  { unfold generate_full_sweep in *. case_bool_decide; [done|].
    destruct (traverse _ _) as [slf|]; [|done]. cbn [mbind result_bind] in *.
    rewrite for_each_app in H. inv_bind H. inv_bind H. injection H as <-.
    cbn [for_each] in Ha0 |- *. inv_bind Ha0. inv_bind Ha0. injection Ha0 as <-.
    exists a, a1, a2. rewrite Ha1. simpl. by rewrite app_nil_r. }
  exists o1, o, o2. do 4 (split; [done|]).
  apply Forall_forall. intros e He.
  destruct (generate_full_sweep_provenance _ _ _ _ _ _ Ho e He)
    as (key' & val' & nodes & seq & bmk & o' & slf & Hkv & _ & _ & _ & _ & _ & _
        & _ & _ & Hnodes & Hpt & Heo).
  apply list_elem_of_singleton in Hkv. injection Hkv as -> ->.
  destruct (full_sweep_point_fields _ _ _ _ _ _ _ _ _ Hpt e Heo)
    as (Himg & Hmodel & Hmp & Hp & Hf & Hrunner & _).
  do 5 (split; [done|]). unfold resolved_nodes in Hnodes.
  destruct (truthy_filter _) as [f|].
  - destruct Hnodes as (l & -> & Hne & Hl). simpl in Hrunner.
    destruct l as [|n l]; [done|]. rewrite Hl in Hrunner.
    apply list_elem_of_filter in Hrunner as [? ?]. done.
  - subst nodes. simpl in Hrunner. by apply list_elem_of_singleton in Hrunner.
Qed.

End full_sweep_nodes.

Lemma full_sweep_runner_resolution_witness :
  let args := {| fs_model_prefix := None; fs_precision := None; fs_framework := None;
                 fs_runner_type := None; fs_seq_lens := None; fs_step_size := 2;
                 fs_min_conc := None; fs_max_conc := None; fs_max_tp := None;
                 fs_max_ep := None; fs_single_node := true; fs_multi_node := false;
                 fs_runner_node_filter := Some "_0" |} in
  let on_h200 := sample_config false [profile 1024 8192 [range_point 8 1 2]] in
  let on_b200 :=
    {| cfg_image := cfg_image on_h200; cfg_model := cfg_model on_h200;
       cfg_model_prefix := cfg_model_prefix on_h200; cfg_precision := cfg_precision on_h200;
       cfg_framework := cfg_framework on_h200; cfg_runner := "b200";
       cfg_multinode := cfg_multinode on_h200; cfg_disagg := cfg_disagg on_h200;
       seq_len_configs := seq_len_configs on_h200 |} in
  ∃ o1 o o2,
    generate_full_sweep accept_all 8 args [("dsr1-fp8-b200-vllm", on_b200)] sample_runners
      = Ok o1
    ∧ generate_full_sweep accept_all 8 args [("dsr1-fp8-h200-vllm", on_h200)] sample_runners
      = Ok o
    ∧ generate_full_sweep accept_all 8 args [] sample_runners = Ok o2
    ∧ runner <$> o1 = ["b200-nv_0"; "b200-nv_0"]
    ∧ runner <$> o = ["h200-dgx_0"; "h200-cw_0"; "h200-dgx_0"; "h200-cw_0"]
    ∧ Forall (λ e,
        image e = cfg_image on_h200 ∧ model e = cfg_model on_h200
        ∧ model_prefix e = cfg_model_prefix on_h200
        ∧ precision e = cfg_precision on_h200 ∧ framework e = cfg_framework on_h200
        ∧ match truthy_filter (fs_runner_node_filter args) with
          | Some f =>
              runner e ∈ default [] (dict_get (cfg_runner on_h200) sample_runners)
              ∧ substring_of f (runner e) = true
          | None => runner e = cfg_runner on_h200
          end) o.
Proof.
  intros args on_h200 on_b200.
  assert (∃ out, generate_full_sweep accept_all 8 args
                   ([("dsr1-fp8-b200-vllm", on_b200)] ++ [("dsr1-fp8-h200-vllm", on_h200)])
                   sample_runners = Ok out) as [out Hout].
  { eexists. vm_compute. reflexivity. }
  destruct (full_sweep_runner_resolution accept_all 8 args [("dsr1-fp8-b200-vllm", on_b200)] []
              "dsr1-fp8-h200-vllm" on_h200 sample_runners out Hout)
    as (o1 & o & o2 & H1 & Ho & H2 & _ & Hall).
  exists o1, o, o2. split; [exact H1|]. split; [exact Ho|]. split; [exact H2|].
  split; [|split; [|exact Hall]].
  - vm_compute in H1. injection H1 as <-. reflexivity.
  - vm_compute in Ho. injection Ho as <-. reflexivity.
Defined.
